(** * dwm-msg: the IPC client of dwm, embedded from [dwm-msg.c]

    The development follows the C file top to bottom: the libc and yajl
    routines the client calls, the socket as an explicit world state, the
    framing functions [recv_message], [read_socket], [write_socket] and
    [send_message], the argument grammars, the request builders and the
    dispatch at the end of [main].  Theorems come after the definitions. *)

From Stdlib Require Import ZArith List Bool Lia.
From Stdlib Require Import Strings.String Strings.Ascii Strings.Byte.
From Stdlib Require Import Floats.SpecFloat.
Import ListNotations.

Open Scope string_scope.
Open Scope Z_scope.

(* ================================================================== *)
(** * libc: characters, [atoll], [printf] of integers                  *)
(* ================================================================== *)

Module Libc.

Definition char_code (c : ascii) : Z := Z.of_N (N_of_ascii c).

(** [isdigit] and [isspace] in the C locale. *)
Definition isdigit (c : ascii) : bool :=
  (48 <=? char_code c) && (char_code c <=? 57).

Definition isspace (c : ascii) : bool :=
  (char_code c =? 32) || ((9 <=? char_code c) && (char_code c <=? 13)).

Definition digit_char (d : Z) : ascii := ascii_of_N (Z.to_N (48 + d)).

Definition LLONG_MAX : Z := 2 ^ 63 - 1.
Definition LLONG_MIN : Z := - 2 ^ 63.

Fixpoint skip_space (s : string) : string :=
  match s with
  | String c rest => if isspace c then skip_space rest else s
  | EmptyString => s
  end.

(** The digit run at the head of [s], accumulated left to right; the scan
    stops at the first character that is not a digit. *)
Fixpoint digits_value (acc : Z) (s : string) : Z :=
  match s with
  | String c rest =>
      if isdigit c then digits_value (acc * 10 + (char_code c - 48)) rest
      else acc
  | EmptyString => acc
  end.

(** Number of digits in that run. *)
Fixpoint digits_count (s : string) : nat :=
  match s with
  | String c rest => if isdigit c then S (digits_count rest) else O
  | EmptyString => O
  end.

Definition take_sign (s : string) : bool * string :=
  match s with
  | String c rest =>
      if Ascii.eqb c "-" then (true, rest)
      else if Ascii.eqb c "+" then (false, rest)
      else (false, s)
  | EmptyString => (false, s)
  end.

(** [atoll] as glibc has it, [strtoll (s, NULL, 10)]: blanks, a sign, the
    digit run; no digits give 0 and a value out of range saturates.  The
    function gives the value alone: that glibc also sets [errno] to
    [ERANGE] when it saturates is not followed. *)
Definition atoll (s : string) : Z :=
  let '(neg, body) := take_sign (skip_space s) in
  let v := digits_value 0 body in
  let r := if neg then - v else v in
  Z.max LLONG_MIN (Z.min LLONG_MAX r).

(** [atol] into [unsigned long] and back into [long long], 64 bits each. *)
Definition atol : string -> Z := atoll.

(** Decimal digits of a non-negative number, most significant first. *)
Fixpoint fmt_digits (fuel : nat) (n : Z) (tail : string) : string :=
  match fuel with
  | O => tail
  | S f =>
      if n <? 10 then String (digit_char n) tail
      else fmt_digits f (n / 10) (String (digit_char (n mod 10)) tail)
  end.

Definition fmt_unsigned (n : Z) : string :=
  fmt_digits (S (Z.to_nat (Z.log2 n))) n "".

(** [sprintf (buf, "%lld", z)]. *)
Definition fmt_lld (z : Z) : string :=
  if z <? 0 then String "-" (fmt_unsigned (- z)) else fmt_unsigned z.

End Libc.

(* ================================================================== *)
(** * libc: [atof], narrowing to [float], [printf ("%.20g")]            *)
(* ================================================================== *)

Module CFloat.
Import Libc.

(** C [double] and [float] values are IEEE 754 binary64 and binary32,
    carried as [spec_float]; arithmetic rounds to nearest, ties to even. *)
Definition double := spec_float.

(** [strtod] on the decimal texts the client can hand to [atof]
    (sign, digits, optional point and digits): the exact rational
    [m / 10 ^ k] is divided out with a correctly rounded binary64
    division. *)
Definition decimal_to_double (neg : bool) (m : Z) (k : nat) : double :=
  match m with
  | Zpos p =>
      SFdiv 53 1024 (S754_finite neg p 0)
                    (S754_finite false (Z.to_pos (10 ^ Z.of_nat k)) 0)
  | _ => S754_zero neg
  end.

Definition atof (s : string) : double :=
  let '(neg, body) := take_sign (skip_space s) in
  let ip := digits_value 0 body in
  let rest := substring (digits_count body) (String.length body) body in
  match rest with
  | String c frac =>
      if Ascii.eqb c "." then
        let k := digits_count frac in
        decimal_to_double neg (digits_value ip frac) k
      else decimal_to_double neg ip 0
  | EmptyString => decimal_to_double neg ip 0
  end.

(** [(float) d]: rounding a binary64 value to binary32. *)
Definition to_float (d : double) : spec_float :=
  match d with
  | S754_finite s m e => binary_normalize 24 128 (cond_Zopp s (Zpos m)) e s
  | _ => d
  end.

(** ** [%.20g] *)

(** [num / den] with [num, den > 0]; is [10 ^ x <= num / den]? *)
Definition pow10_le (x num den : Z) : bool :=
  if 0 <=? x then 10 ^ x * den <=? num else den <=? num * 10 ^ (- x).

(** The decimal exponent [x] with [10 ^ x <= num / den < 10 ^ (x + 1)],
    searched downwards from a bound taken from the binary sizes. *)
Fixpoint find_exp10 (fuel : nat) (x num den : Z) : Z :=
  match fuel with
  | O => x
  | S f => if pow10_le x num den then x else find_exp10 f (x - 1) num den
  end.

Definition exp10 (num den : Z) : Z :=
  let est := (Z.log2 num - Z.log2 den + 1) * 30103 / 100000 + 1 in
  find_exp10 8 est num den.

(** [num / den * 10 ^ s], rounded to the nearest integer, ties to even. *)
Definition scale_round (num den s : Z) : Z :=
  let n := if 0 <=? s then num * 10 ^ s else num in
  let d := if 0 <=? s then den else den * 10 ^ (- s) in
  let q := n / d in
  let r := n mod d in
  match 2 * r ?= d with
  | Lt => q
  | Gt => q + 1
  | Eq => if Z.even q then q else q + 1
  end.

Fixpoint strip_zeros_rev (l : list ascii) : list ascii :=
  match l with
  | c :: rest => if Ascii.eqb c "0" then strip_zeros_rev rest else l
  | [] => []
  end.

(** Trailing zeros of a fraction removed, as [%g] does without [#]. *)
Definition strip_trailing_zeros (s : string) : string :=
  string_of_list_ascii (rev (strip_zeros_rev (rev (list_ascii_of_string s)))).

Definition with_fraction (ip frac : string) : string :=
  match strip_trailing_zeros frac with
  | EmptyString => ip
  | f => ip ++ "." ++ f
  end.

Fixpoint zeros (n : nat) : string :=
  match n with O => "" | S k => String "0" (zeros k) end.

Definition fmt_exponent (x : Z) : string :=
  let a := Z.abs x in
  (if x <? 0 then "-" else "+") ++
  (if a <? 10 then String "0" (fmt_unsigned a) else fmt_unsigned a).

(** The magnitude [num / den > 0] under [%.20g]. *)
Definition fmt_g20_pos (num den : Z) : string :=
  let x0 := exp10 num den in
  let d0 := scale_round num den (19 - x0) in
  let '(x, d) := if 10 ^ 20 <=? d0 then (x0 + 1, d0 / 10) else (x0, d0) in
  let ds := fmt_unsigned d in
  if (x <? -4) || (20 <=? x) then
    with_fraction (substring 0 1 ds) (substring 1 19 ds) ++ "e" ++ fmt_exponent x
  else if 0 <=? x then
    with_fraction (substring 0 (Z.to_nat (x + 1)) ds)
                  (substring (Z.to_nat (x + 1)) (Z.to_nat (19 - x)) ds)
  else
    with_fraction "0" (zeros (Z.to_nat (- x - 1)) ++ ds).

(** [sprintf (buf, "%.20g", d)] for a finite [d]. *)
Definition fmt_g20 (d : double) : string :=
  match d with
  | S754_zero s => if s then "-0" else "0"
  | S754_finite s m e =>
      let body :=
        if 0 <=? e then fmt_g20_pos (Zpos m * 2 ^ e) 1
        else fmt_g20_pos (Zpos m) (2 ^ (- e)) in
      if s then String "-" body else body
  | S754_infinity s => if s then "-inf" else "inf"
  | S754_nan => "nan"
  end.

Definition is_finite (d : double) : bool :=
  match d with
  | S754_zero _ | S754_finite _ _ _ => true
  | _ => false
  end.

End CFloat.

(* ================================================================== *)
(** * yajl: the JSON generator behind [YSTR], [YINT], [YDOUBLE], ...    *)
(* ================================================================== *)

Module Yajl.
Import Libc CFloat.

Inductive yajl_gen_state :=
| yajl_gen_start
| yajl_gen_map_start
| yajl_gen_map_key
| yajl_gen_map_val
| yajl_gen_array_start
| yajl_gen_in_array
| yajl_gen_complete
| yajl_gen_error.

(** The generator handle: the output buffer and the state stack, the state
    of the innermost open container first.  [yajl_gen_alloc (NULL)] leaves
    every option off: compact output, no slash escaping. *)
Record yajl_gen := mk_gen {
  gen_buf : string;
  gen_top : yajl_gen_state;
  gen_outer : list yajl_gen_state
}.

Definition yajl_gen_alloc : yajl_gen := mk_gen "" yajl_gen_start [].

Definition print (g : yajl_gen) (s : string) : yajl_gen :=
  mk_gen (gen_buf g ++ s) (gen_top g) (gen_outer g).

(** [ENSURE_VALID_STATE] *)
Definition valid_state (g : yajl_gen) : bool :=
  match gen_top g with
  | yajl_gen_error | yajl_gen_complete => false
  | _ => true
  end.

(** [ENSURE_NOT_KEY] *)
Definition not_key (g : yajl_gen) : bool :=
  match gen_top g with
  | yajl_gen_map_key | yajl_gen_map_start => false
  | _ => true
  end.

(** [INSERT_SEP] *)
Definition insert_sep (g : yajl_gen) : yajl_gen :=
  match gen_top g with
  | yajl_gen_map_key | yajl_gen_in_array => print g ","
  | yajl_gen_map_val => print g ":"
  | _ => g
  end.

(** [APPENDED_ATOM] *)
Definition appended_atom (g : yajl_gen) : yajl_gen :=
  let next :=
    match gen_top g with
    | yajl_gen_start => yajl_gen_complete
    | yajl_gen_map_start | yajl_gen_map_key => yajl_gen_map_val
    | yajl_gen_array_start => yajl_gen_in_array
    | yajl_gen_map_val => yajl_gen_map_key
    | st => st
    end in
  mk_gen (gen_buf g) next (gen_outer g).

(** [INCREMENT_DEPTH] followed by the store of the new state. *)
Definition push_state (st : yajl_gen_state) (g : yajl_gen) : yajl_gen :=
  mk_gen (gen_buf g) st (gen_top g :: gen_outer g).

Definition hex_digit (n : Z) : ascii :=
  if n <? 10 then digit_char n else ascii_of_N (Z.to_N (55 + n)).

(** [yajl_string_encode]: what one character becomes inside a string. *)
Definition encode_char (c : ascii) : string :=
  let n := char_code c in
  if n =? 13 then "\r"
  else if n =? 10 then "\n"
  else if n =? 92 then "\\"
  else if n =? 34 then String "\" (String c "")
  else if n =? 12 then "\f"
  else if n =? 8 then "\b"
  else if n =? 9 then "\t"
  else if n <? 32 then
    "\u00" ++ String (hex_digit (n / 16)) (String (hex_digit (n mod 16)) "")
  else String c "".

Fixpoint yajl_string_encode (s : string) : string :=
  match s with
  | String c rest => encode_char c ++ yajl_string_encode rest
  | EmptyString => ""
  end.

Definition quote : string := String (ascii_of_N 34) "".

Definition json_string (s : string) : string :=
  quote ++ yajl_string_encode s ++ quote.

(** The generator calls.  Each returns a status in C, which the client's
    macros throw away; a refused call leaves the generator as it was. *)

Definition yajl_gen_string (g : yajl_gen) (s : string) : yajl_gen :=
  if valid_state g then appended_atom (print (insert_sep g) (json_string s))
  else g.

Definition yajl_gen_integer (g : yajl_gen) (number : Z) : yajl_gen :=
  if valid_state g && not_key g
  then appended_atom (print (insert_sep g) (fmt_lld number))
  else g.

Definition only_digits_or_minus (s : string) : bool :=
  forallb (fun c => isdigit c || Ascii.eqb c "-") (list_ascii_of_string s).

(** The text of a finite double: [%.20g], with [.0] added when the text
    would otherwise read as an integer. *)
Definition double_text (number : double) : string :=
  let i := fmt_g20 number in
  if only_digits_or_minus i then i ++ ".0" else i.

Definition yajl_gen_double (g : yajl_gen) (number : double) : yajl_gen :=
  if valid_state g && not_key g then
    if is_finite number
    then appended_atom (print (insert_sep g) (double_text number))
    else g
  else g.

Definition yajl_gen_map_open (g : yajl_gen) : yajl_gen :=
  if valid_state g && not_key g
  then print (push_state yajl_gen_map_start (insert_sep g)) "{"
  else g.

Definition yajl_gen_array_open (g : yajl_gen) : yajl_gen :=
  if valid_state g && not_key g
  then print (push_state yajl_gen_array_start (insert_sep g)) "["
  else g.

(** [DECREMENT_DEPTH], [APPENDED_ATOM], then the closing bracket. *)
Definition close_container (g : yajl_gen) (bracket : string) : yajl_gen :=
  if valid_state g then
    match gen_outer g with
    | st :: outer => print (appended_atom (mk_gen (gen_buf g) st outer)) bracket
    | [] => g
    end
  else g.

Definition yajl_gen_map_close (g : yajl_gen) : yajl_gen := close_container g "}".
Definition yajl_gen_array_close (g : yajl_gen) : yajl_gen := close_container g "]".

(** [yajl_gen_get_buf]: the bytes generated so far and their count. *)
Definition yajl_gen_get_buf (g : yajl_gen) : list byte * Z :=
  (list_byte_of_string (gen_buf g), Z.of_nat (String.length (gen_buf g))).

End Yajl.

(* ================================================================== *)
(** * The argument grammars: [is_float], [is_unsigned_int], [is_signed_int] *)
(* ================================================================== *)

Import Libc CFloat Yajl.

(** Each scan is the [for (int i = 0; i < len; i++)] loop of the C function,
    run over the characters still ahead, with [i] the index of the first. *)

Fixpoint is_float_from (len i : nat) (is_dot_used is_minus_used : bool)
                       (s : string) : bool :=
  match s with
  | EmptyString => true
  | String c rest =>
      if isdigit c then is_float_from len (S i) is_dot_used is_minus_used rest
      else if negb is_dot_used && Ascii.eqb c "."
              && negb (Nat.eqb i 0) && negb (Nat.eqb i (len - 1))
      then is_float_from len (S i) true is_minus_used rest
      else if negb is_minus_used && Ascii.eqb c "-" && Nat.eqb i 0
      then is_float_from len (S i) is_dot_used true rest
      else false
  end.

Definition is_float (s : string) : bool :=
  is_float_from (String.length s) 0 false false s.

Fixpoint is_unsigned_int (s : string) : bool :=
  match s with
  | EmptyString => true
  | String c rest => if isdigit c then is_unsigned_int rest else false
  end.

Fixpoint is_signed_int_from (i : nat) (s : string) : bool :=
  match s with
  | EmptyString => true
  | String c rest =>
      if isdigit c then is_signed_int_from (S i) rest
      else if Nat.eqb i 0 && Ascii.eqb c "-" then is_signed_int_from (S i) rest
      else false
  end.

Definition is_signed_int (s : string) : bool := is_signed_int_from 0 s.

(* ================================================================== *)
(** * The process state: socket, [errno], heap, standard streams        *)
(* ================================================================== *)

Inductive errno_t := ENONE | EINTR | EAGAIN | EPIPE | ECONNRESET | EIO | EBADF.

(** On Linux the two names are one number. *)
Definition EWOULDBLOCK : errno_t := EAGAIN.

Definition errno_eqb (a b : errno_t) : bool :=
  match a, b with
  | ENONE, ENONE | EINTR, EINTR | EAGAIN, EAGAIN | EPIPE, EPIPE
  | ECONNRESET, ECONNRESET | EIO, EIO | EBADF, EBADF => true
  | _, _ => false
  end.

(** What the kernel does at one call of [read] or [write]: it moves at
    most [S k] bytes, or it fails and sets [errno]. *)
Inductive io_event :=
| Chunk (k : nat)
| Fail (e : errno_t).

(** A line on standard error: [warnx (text)] or [err (_, text)], the
    latter with the [errno] it prints after the text. *)
Inductive diag :=
| Warnx (text : string)
| Err (text : string) (e : errno_t).

(** [sock_in] holds the bytes the peer sends before it closes its end:
    a [read] that finds it empty returns 0.  [read_sched] and
    [write_sched] say how the next calls go; when one runs out, calls
    move everything asked for.  [heap] lists the sizes of the live
    [malloc] blocks, the newest first. *)
Record world := mk_world {
  sock_in : list byte;
  read_sched : list io_event;
  write_sched : list io_event;
  sock_out : list byte;
  errno : errno_t;
  ignore_reply : bool;
  heap : list Z;
  stdout : string;
  stderr : list diag
}.

Definition set_sock_in (l : list byte) (w : world) : world :=
  mk_world l (read_sched w) (write_sched w) (sock_out w) (errno w)
           (ignore_reply w) (heap w) (stdout w) (stderr w).
Definition set_read_sched (s : list io_event) (w : world) : world :=
  mk_world (sock_in w) s (write_sched w) (sock_out w) (errno w)
           (ignore_reply w) (heap w) (stdout w) (stderr w).
Definition set_write_sched (s : list io_event) (w : world) : world :=
  mk_world (sock_in w) (read_sched w) s (sock_out w) (errno w)
           (ignore_reply w) (heap w) (stdout w) (stderr w).
Definition set_sock_out (l : list byte) (w : world) : world :=
  mk_world (sock_in w) (read_sched w) (write_sched w) l (errno w)
           (ignore_reply w) (heap w) (stdout w) (stderr w).
Definition set_errno (e : errno_t) (w : world) : world :=
  mk_world (sock_in w) (read_sched w) (write_sched w) (sock_out w) e
           (ignore_reply w) (heap w) (stdout w) (stderr w).
Definition set_heap (h : list Z) (w : world) : world :=
  mk_world (sock_in w) (read_sched w) (write_sched w) (sock_out w) (errno w)
           (ignore_reply w) h (stdout w) (stderr w).
Definition set_stdout (s : string) (w : world) : world :=
  mk_world (sock_in w) (read_sched w) (write_sched w) (sock_out w) (errno w)
           (ignore_reply w) (heap w) s (stderr w).
Definition set_stderr (d : list diag) (w : world) : world :=
  mk_world (sock_in w) (read_sched w) (write_sched w) (sock_out w) (errno w)
           (ignore_reply w) (heap w) (stdout w) d.

Definition warnx (text : string) (w : world) : world :=
  set_stderr (stderr w ++ [Warnx text]) w.

Definition malloc (size : Z) (w : world) : world := set_heap (size :: heap w) w.

(** [free] of the block [malloc] returned last. *)
Definition free (w : world) : world := set_heap (tl (heap w)) w.

(** [read (sock_fd, buf, count)]: the return value, the bytes stored at
    [buf], the state afterwards. *)
Definition deliver (avail : nat) (count : Z) (w : world)
  : Z * list byte * world :=
  let n := Nat.min avail (Nat.min (Z.to_nat count) (List.length (sock_in w))) in
  (Z.of_nat n, firstn n (sock_in w), set_sock_in (skipn n (sock_in w)) w).

Definition read (count : Z) (w : world) : Z * list byte * world :=
  match read_sched w with
  | Fail e :: sched => (-1, [], set_errno e (set_read_sched sched w))
  | Chunk k :: sched => deliver (S k) count (set_read_sched sched w)
  | [] => deliver (List.length (sock_in w)) count w
  end.

(** [write (sock_fd, buf, count)], [buf] holding [count] bytes. *)
Definition accept (avail : nat) (buf : list byte) (w : world) : Z * world :=
  let n := Nat.min avail (List.length buf) in
  (Z.of_nat n, set_sock_out (sock_out w ++ firstn n buf) w).

Definition write (buf : list byte) (w : world) : Z * world :=
  match write_sched w with
  | Fail e :: sched => (-1, set_errno e (set_write_sched sched w))
  | Chunk k :: sched => accept (S k) buf (set_write_sched sched w)
  | [] => accept (List.length buf) buf w
  end.

(** How a call ends: it returns, or the process exits inside it, or the
    loop bound of the model ran out before either. *)
Inductive outcome (A : Type) :=
| Returns (a : A) (w : world)
| Exits (status : Z) (w : world)
| OutOfFuel.

Arguments Returns {A} a w.
Arguments Exits {A} status w.
Arguments OutOfFuel {A}.

Definition bind {A B} (m : outcome A) (k : A -> world -> outcome B) : outcome B :=
  match m with
  | Returns a w => k a w
  | Exits status w => Exits status w
  | OutOfFuel => OutOfFuel
  end.

Notation "'do' ( a , w ) <- m ; k" := (bind m (fun a w => k))
  (at level 10, a name, w name, m at level 100, k at level 200).

Definition EXIT_FAILURE : Z := 1.

(** [err (EXIT_FAILURE, text)] *)
Definition err {A} (text : string) (w : world) : outcome A :=
  Exits EXIT_FAILURE (set_stderr (stderr w ++ [Err text (errno w)]) w).

(* ================================================================== *)
(** * The wire format                                                   *)
(* ================================================================== *)

Definition IPC_MAGIC : string := "DWM-IPC".
Definition IPC_MAGIC_ARR : list byte := list_byte_of_string IPC_MAGIC.
Definition IPC_MAGIC_LEN : nat := 7.

Inductive IPCMessageType :=
| IPC_TYPE_RUN_COMMAND
| IPC_TYPE_GET_MONITORS
| IPC_TYPE_GET_TAGS
| IPC_TYPE_GET_LAYOUTS
| IPC_TYPE_GET_DWM_CLIENT
| IPC_TYPE_SUBSCRIBE
| IPC_TYPE_EVENT.

Definition type_code (t : IPCMessageType) : Z :=
  match t with
  | IPC_TYPE_RUN_COMMAND => 0
  | IPC_TYPE_GET_MONITORS => 1
  | IPC_TYPE_GET_TAGS => 2
  | IPC_TYPE_GET_LAYOUTS => 3
  | IPC_TYPE_GET_DWM_CLIENT => 4
  | IPC_TYPE_SUBSCRIBE => 5
  | IPC_TYPE_EVENT => 6
  end.

Definition Z_of_byte (b : byte) : Z := Z.of_N (Byte.to_N b).

(** Conversion to [uint8_t]. *)
Definition byte_of_Z (z : Z) : byte :=
  match Byte.of_N (Z.to_N (z mod 256)) with
  | Some b => b
  | None => x00
  end.

(** A [uint32_t] in memory, in the byte order of the host (the low byte
    first, as on x86-64), and back. *)
Definition u32_bytes (n : Z) : list byte :=
  [byte_of_Z n; byte_of_Z (n / 2 ^ 8); byte_of_Z (n / 2 ^ 16); byte_of_Z (n / 2 ^ 24)].

Definition u32_of_bytes (l : list byte) : Z :=
  fold_right (fun b acc => Z_of_byte b + 256 * acc) 0 (firstn 4 l).

(** [sizeof (dwm_ipc_header_t)], the struct being packed: 7 + 4 + 1. *)
Definition to_read : Z := 12.

(** The packed [dwm_ipc_header_t] as it lies in memory. *)
Definition header_bytes (msg_type : Z) (msg_size : Z) : list byte :=
  IPC_MAGIC_ARR ++ u32_bytes msg_size ++ [byte_of_Z msg_type].

Fixpoint bytes_eqb (a b : list byte) : bool :=
  match a, b with
  | [], [] => true
  | x :: a', y :: b' => Byte.eqb x y && bytes_eqb a' b'
  | _, _ => false
  end.

(** The characters [%s] and [%.*s] print: up to the first NUL. *)
Fixpoint until_nul (l : list byte) : list byte :=
  match l with
  | [] => []
  | b :: rest => if Byte.eqb b x00 then [] else b :: until_nul rest
  end.

Definition c_string (l : list byte) : string := string_of_list_byte (until_nul l).

(* ================================================================== *)
(** * [recv_message], [read_socket], [write_socket], [send_message]     *)
(* ================================================================== *)

(** [recv_message] returns 0 with the three out-parameters filled, or a
    negative code. *)
Inductive recv_result :=
| RecvOk (msg_type : Z) (reply_size : Z) (reply : list byte)
| RecvErr (code : Z).

Definition eof_header : string := "Unexpectedly reached EOF while reading header.".
Definition eof_payload : string := "Unexpectedly reached EOF while reading payload.".

Definition read_of_total (read_bytes expected : Z) : string :=
  "Read " ++ fmt_unsigned read_bytes ++ " bytes, expected "
          ++ fmt_unsigned expected ++ " total bytes.".

Definition read_of (read_bytes expected : Z) : string :=
  "Read " ++ fmt_unsigned read_bytes ++ " bytes, expected "
          ++ fmt_unsigned expected ++ " bytes.".

Definition invalid_magic (walk : list byte) : string :=
  "Invalid magic string. Got '" ++ c_string (firstn IPC_MAGIC_LEN walk)
    ++ "', expected '" ++ IPC_MAGIC ++ "'".

(** The first loop of [recv_message], [header] being the bytes stored so
    far and [read_bytes] their count.  It ends with the full header or
    with the code [recv_message] returns from inside the loop. *)
Fixpoint read_header (fuel : nat) (header : list byte) (w : world)
  : outcome (list byte + Z) :=
  match fuel with
  | O => OutOfFuel
  | S fuel' =>
      let read_bytes := Z.of_nat (List.length header) in
      if read_bytes <? to_read then
        let '(n, data, w1) := read (to_read - read_bytes) w in
        if n =? 0 then
          if read_bytes =? 0 then
            Returns (inr (-2))
              (warnx (read_of_total read_bytes to_read) (warnx eof_header w1))
          else
            Returns (inr (-3))
              (warnx (read_of_total read_bytes to_read) (warnx eof_header w1))
        else if n =? -1 then Returns (inr (-1)) w1
        else read_header fuel' (header ++ data) w1
      else Returns (inl header) w
  end.

Definition transient_read (e : errno_t) : bool :=
  errno_eqb e EINTR || errno_eqb e EAGAIN.

(** The second loop, reading into the block [malloc] returned. *)
Fixpoint read_payload (fuel : nat) (reply_size : Z) (reply : list byte)
                      (w : world) : outcome (list byte + Z) :=
  match fuel with
  | O => OutOfFuel
  | S fuel' =>
      let read_bytes := Z.of_nat (List.length reply) in
      if read_bytes <? reply_size then
        let '(n, data, w1) := read (reply_size - read_bytes) w in
        if n =? 0 then
          Returns (inr (-2))
            (free (warnx (read_of read_bytes reply_size) (warnx eof_payload w1)))
        else if n =? -1 then
          if transient_read (errno w1) then read_payload fuel' reply_size reply w1
          else Returns (inr (-1)) (free w1)
        else read_payload fuel' reply_size (reply ++ data) w1
      else Returns (inl reply) w
  end.

Definition recv_message (fuel : nat) (w : world) : outcome recv_result :=
  do (h, w1) <- read_header fuel [] w;
  match h with
  | inr code => Returns (RecvErr code) w1
  | inl header =>
      let walk := header in
      if negb (bytes_eqb (firstn IPC_MAGIC_LEN walk) IPC_MAGIC_ARR) then
        Returns (RecvErr (-3)) (warnx (invalid_magic walk) w1)
      else
        let walk := skipn IPC_MAGIC_LEN walk in
        let reply_size := u32_of_bytes walk in
        let walk := skipn 4 walk in
        let msg_type := Z_of_byte (hd x00 walk) in
        let w2 := malloc reply_size w1 in
        do (p, w3) <- read_payload fuel reply_size [] w2;
        match p with
        | inr code => Returns (RecvErr code) w3
        | inl reply => Returns (RecvOk msg_type reply_size reply) w3
        end
  end.

Definition receiving_failed : string :=
  "Error receiving response from socket. The connection might have been lost.".

(** [read_socket]: the message on return 0; every other way out of the
    loop is [err], which ends the process. *)
Fixpoint read_socket (fuel : nat) (w : world) : outcome (Z * Z * list byte) :=
  match fuel with
  | O => OutOfFuel
  | S fuel' =>
      do (ret, w1) <- recv_message fuel w;
      match ret with
      | RecvOk msg_type msg_size msg => Returns (msg_type, msg_size, msg) w1
      | RecvErr code =>
          if (code =? -1) && transient_read (errno w1)
          then read_socket fuel' w1
          else err receiving_failed w1
      end
  end.

Definition transient_write (e : errno_t) : bool :=
  errno_eqb e EAGAIN || errno_eqb e EWOULDBLOCK || errno_eqb e EINTR.

(** [write_socket (buf, count)] with [count] the length of [buf];
    [written] counts the bytes gone so far. *)
Fixpoint write_loop (fuel : nat) (buf : list byte) (written : nat) (w : world)
  : outcome Z :=
  match fuel with
  | O => OutOfFuel
  | S fuel' =>
      if (written <? List.length buf)%nat then
        let '(n, w1) := write (skipn written buf) w in
        if n =? -1 then
          if transient_write (errno w1) then write_loop fuel' buf written w1
          else Returns n w1
        else write_loop fuel' buf (written + Z.to_nat n) w1
      else Returns (Z.of_nat written) w
  end.

Definition write_socket (fuel : nat) (buf : list byte) (w : world) : outcome Z :=
  write_loop fuel buf 0 w.

(** The buffer [send_message] fills: the header, then [header.size]
    bytes copied from [msg]. *)
Definition message_buffer (msg_type : IPCMessageType) (msg_size : Z)
                          (msg : list byte) : list byte :=
  header_bytes (type_code msg_type) msg_size ++ firstn (Z.to_nat msg_size) msg.

(** [msg_size] arrives through a [uint32_t] parameter; what [write_socket]
    returns is dropped. *)
Definition send_message (fuel : nat) (msg_type : IPCMessageType) (msg_size : Z)
                        (msg : list byte) (w : world) : outcome Z :=
  let msg_size := msg_size mod 2 ^ 32 in
  let buffer := message_buffer msg_type msg_size msg in
  do (_n, w1) <- write_socket fuel buffer w;
  Returns 0 w1.

(* ================================================================== *)
(** * Replies                                                           *)
(* ================================================================== *)

Definition newline : string := String (ascii_of_N 10) "".

(** A [uint32_t] passed where an [int] is expected. *)
Definition int_of_uint32 (n : Z) : Z := if n <? 2 ^ 31 then n else n - 2 ^ 32.

(** [printf ("%.*s\n", reply_size, reply)].  The precision is an [int]:
    a negative one counts as none given, and the text then runs to the
    first NUL.  The bytes are those of the block: behind a block of
    2^31 bytes or more that holds no NUL [printf] would read on, which
    is not followed here, and what is stated below about the text
    printed keeps to replies under 2^31 bytes or with a NUL inside. *)
Definition printf_reply (reply_size : Z) (reply : list byte) (w : world) : world :=
  let precision := int_of_uint32 reply_size in
  let text := if precision <? 0 then c_string reply
              else c_string (firstn (Z.to_nat precision) reply) in
  set_stdout (stdout w ++ text ++ newline) w.

Definition flush_socket_reply (fuel : nat) (w : world) : outcome unit :=
  do (r, w1) <- read_socket fuel w;
  Returns tt (free w1).

Definition print_socket_reply (fuel : nat) (w : world) : outcome unit :=
  do (r, w1) <- read_socket fuel w;
  let '(_, reply_size, reply) := r in
  Returns tt (free (printf_reply reply_size reply w1)).

(* ================================================================== *)
(** * The requests                                                      *)
(* ================================================================== *)

(** The body of the [for] loop over [args] in [run_command]. *)
Definition gen_arg (gen : yajl_gen) (arg : string) : yajl_gen :=
  if is_signed_int arg then
    let num := atoll arg in
    yajl_gen_integer gen num
  else if is_float arg then
    let num := to_float (atof arg) in
    yajl_gen_double gen num
  else
    yajl_gen_string gen arg.

(** The generator of [run_command] after the [YMAP (...)] block. *)
Definition run_command_gen (name : string) (args : list string) : yajl_gen :=
  let gen := yajl_gen_alloc in
  let gen := yajl_gen_map_open gen in
  let gen := yajl_gen_string gen "command" in
  let gen := yajl_gen_string gen name in
  let gen := yajl_gen_string gen "args" in
  let gen := yajl_gen_array_open gen in
  let gen := fold_left gen_arg args gen in
  let gen := yajl_gen_array_close gen in
  yajl_gen_map_close gen.

Definition run_command (fuel : nat) (name : string) (args : list string)
                       (w : world) : outcome Z :=
  let '(msg, msg_size) := yajl_gen_get_buf (run_command_gen name args) in
  do (_r, w1) <- send_message fuel IPC_TYPE_RUN_COMMAND msg_size msg w;
  do (_u, w2) <- (if negb (ignore_reply w1) then print_socket_reply fuel w1
                  else flush_socket_reply fuel w1);
  Returns 0 w2.

(** The string literal [""] in memory: its terminating NUL. *)
Definition empty_literal : list byte := [x00].

Definition get_monitors (fuel : nat) (w : world) : outcome Z :=
  do (_r, w1) <- send_message fuel IPC_TYPE_GET_MONITORS 1 empty_literal w;
  do (_u, w2) <- print_socket_reply fuel w1;
  Returns 0 w2.

Definition get_tags (fuel : nat) (w : world) : outcome Z :=
  do (_r, w1) <- send_message fuel IPC_TYPE_GET_TAGS 1 empty_literal w;
  do (_u, w2) <- print_socket_reply fuel w1;
  Returns 0 w2.

Definition get_layouts (fuel : nat) (w : world) : outcome Z :=
  do (_r, w1) <- send_message fuel IPC_TYPE_GET_LAYOUTS 1 empty_literal w;
  do (_u, w2) <- print_socket_reply fuel w1;
  Returns 0 w2.

Definition get_dwm_client_gen (win : Z) : yajl_gen :=
  let gen := yajl_gen_alloc in
  let gen := yajl_gen_map_open gen in
  let gen := yajl_gen_string gen "client_window_id" in
  let gen := yajl_gen_integer gen win in
  yajl_gen_map_close gen.

Definition get_dwm_client (fuel : nat) (win : Z) (w : world) : outcome Z :=
  let '(msg, msg_size) := yajl_gen_get_buf (get_dwm_client_gen win) in
  do (_r, w1) <- send_message fuel IPC_TYPE_GET_DWM_CLIENT msg_size msg w;
  do (_u, w2) <- print_socket_reply fuel w1;
  Returns 0 w2.

Definition subscribe_gen (event : string) : yajl_gen :=
  let gen := yajl_gen_alloc in
  let gen := yajl_gen_map_open gen in
  let gen := yajl_gen_string gen "event" in
  let gen := yajl_gen_string gen event in
  let gen := yajl_gen_string gen "action" in
  let gen := yajl_gen_string gen "subscribe" in
  yajl_gen_map_close gen.

Definition subscribe (fuel : nat) (event : string) (w : world) : outcome Z :=
  let '(msg, msg_size) := yajl_gen_get_buf (subscribe_gen event) in
  do (_r, w1) <- send_message fuel IPC_TYPE_SUBSCRIBE msg_size msg w;
  do (_u, w2) <- (if negb (ignore_reply w1) then print_socket_reply fuel w1
                  else flush_socket_reply fuel w1);
  Returns 0 w2.

(* ================================================================== *)
(** * [main], from the end of option parsing                            *)
(* ================================================================== *)

(** [usage_error]: the message through [vwarnx], two usage lines after
    it, then [exit (EXIT_FAILURE)]. *)
Definition usage_error {A} (format : string) (w : world) : outcome A :=
  Exits EXIT_FAILURE (warnx format w).

(** [for (int j = optind; j < argc; j++) subscribe (argv[j]);] *)
Fixpoint subscribe_all (fuel : nat) (events : list string) (w : world)
  : outcome unit :=
  match events with
  | [] => Returns tt w
  | event :: rest =>
      do (_r, w1) <- subscribe fuel event w;
      subscribe_all fuel rest w1
  end.

(** [do { print_socket_reply (); } while (monitor);] *)
Fixpoint listen (fuel : nat) (monitor : bool) (w : world) : outcome unit :=
  match fuel with
  | O => OutOfFuel
  | S fuel' =>
      do (_u, w1) <- print_socket_reply fuel w;
      if monitor then listen fuel' monitor w1 else Returns tt w1
  end.

Definition is_subscribe (t : IPCMessageType) : bool :=
  match t with IPC_TYPE_SUBSCRIBE => true | _ => false end.

(** [main] once the options are read and the socket is connected:
    [message_type] and [monitor] as the options left them, [rest] the
    arguments from [argv[optind]] on. *)
Definition main (fuel : nat) (message_type : IPCMessageType) (monitor : bool)
                (rest : list string) (w : world) : outcome Z :=
  if monitor && negb (is_subscribe message_type) then
    usage_error ("The monitor option -m is used with " ++ quote
                   ++ "-t subscribe" ++ quote ++ " exclusively.") w
  else
    match message_type with
    | IPC_TYPE_RUN_COMMAND =>
        match rest with
        | [] => usage_error "No command specified" w
        | command :: command_args =>
            do (_r, w1) <- run_command fuel command command_args w;
            Returns 0 w1
        end
    | IPC_TYPE_GET_MONITORS => do (_r, w1) <- get_monitors fuel w; Returns 0 w1
    | IPC_TYPE_GET_TAGS => do (_r, w1) <- get_tags fuel w; Returns 0 w1
    | IPC_TYPE_GET_LAYOUTS => do (_r, w1) <- get_layouts fuel w; Returns 0 w1
    | IPC_TYPE_GET_DWM_CLIENT =>
        match rest with
        | arg :: _ =>
            if is_unsigned_int arg then
              let win := atol arg in
              do (_r, w1) <- get_dwm_client fuel win w;
              Returns 0 w1
            else usage_error "Expected unsigned integer argument" w
        | [] => usage_error "Expected the window id" w
        end
    | IPC_TYPE_SUBSCRIBE =>
        match rest with
        | _ :: _ =>
            do (_u, w1) <- subscribe_all fuel rest w;
            do (_v, w2) <- listen fuel monitor w1;
            Returns 0 w2
        | [] => usage_error "Expected event name" w
        end
    | IPC_TYPE_EVENT => Returns 0 w
    end.

(* ================================================================== *)
(** * Notions the properties are stated with                            *)
(* ================================================================== *)

(** JSON texts are written with ['] for the double quote. *)
Fixpoint dq (s : string) : string :=
  match s with
  | String c rest =>
      String (if Ascii.eqb c "'" then ascii_of_N 34 else c) (dq rest)
  | EmptyString => EmptyString
  end.

(** A process at the start of an exchange: nothing written, read or
    printed yet. *)
Definition fresh_world (inbound : list byte) (reads writes : list io_event)
  : world :=
  mk_world inbound reads writes [] ENONE false [] "" [].

(** The three ways run_command hands an argument to the generator. *)
Inductive arg_class :=
| AsInteger (num : Z)
| AsDouble (num : double)
| AsString (s : string).

Definition classify (arg : string) : arg_class :=
  if is_signed_int arg then AsInteger (atoll arg)
  else if is_float arg then AsDouble (to_float (atof arg))
  else AsString arg.

Definition emit (gen : yajl_gen) (c : arg_class) : yajl_gen :=
  match c with
  | AsInteger num => yajl_gen_integer gen num
  | AsDouble num => yajl_gen_double gen num
  | AsString s => yajl_gen_string gen s
  end.

(** The JSON text one argument of run_command contributes to the [args]
    array, by the precedence integer, float, string; [None] for a float
    too large for [float], which the generator refuses. *)
Definition arg_text (arg : string) : option string :=
  if is_signed_int arg then Some (fmt_lld (atoll arg))
  else if is_float arg then
    let num := to_float (atof arg) in
    if is_finite num then Some (double_text num) else None
  else Some (json_string arg).

Fixpoint arg_texts (args : list string) : list string :=
  match args with
  | [] => []
  | arg :: rest =>
      match arg_text arg with
      | Some t => t :: arg_texts rest
      | None => arg_texts rest
      end
  end.

(** Every text after the first one, each behind its comma. *)
Fixpoint with_commas (ts : list string) : string :=
  match ts with
  | [] => ""
  | t :: rest => "," ++ t ++ with_commas rest
  end.

(** The whole run_command document, argument by argument. *)
Definition run_command_text (name : string) (args : list string) : string :=
  dq "{'command':" ++ json_string name ++ dq ",'args':["
    ++ String.concat "," (arg_texts args) ++ "]}".

(** The subscribe document. *)
Definition subscribe_text (event : string) : string :=
  dq "{'event':" ++ json_string event ++ dq ",'action':'subscribe'}".

(** A decimal text with [k] zeros put before its digits. *)
Definition padded (k : nat) (z : Z) : string :=
  if z <? 0 then String "-" (zeros k ++ fmt_unsigned (- z))
  else zeros k ++ fmt_unsigned z.

(** Leading zeros dropped, the sign and the last digit kept: the only
    change integer formatting makes to a number's text. *)
Fixpoint drop_zeros (s : string) : string :=
  match s with
  | String c rest =>
      if Ascii.eqb c "0" && negb (String.eqb rest "") then drop_zeros rest else s
  | EmptyString => EmptyString
  end.

Definition drop_leading_zeros (s : string) : string :=
  match s with
  | String c rest => if Ascii.eqb c "-" then String c (drop_zeros rest) else drop_zeros s
  | EmptyString => EmptyString
  end.

(** A string whose first character is a digit. *)
Definition digit_first (s : string) : Prop :=
  match s with
  | String c _ => isdigit c = true
  | EmptyString => False
  end.

(** Schedules: every call moves bytes; every call moves bytes or fails
    with a condition the loop in question retries. *)
Definition is_chunk (ev : io_event) : Prop :=
  match ev with Chunk _ => True | Fail _ => False end.

Definition read_benign (ev : io_event) : Prop :=
  match ev with Chunk _ => True | Fail e => transient_read e = true end.

Definition write_benign (ev : io_event) : Prop :=
  match ev with Chunk _ => True | Fail e => transient_write e = true end.

(** Bytes and calls still to come on the read side. *)
Definition pending (w : world) : nat :=
  (List.length (sock_in w) + List.length (read_sched w))%nat.

(** What the read side of the client never touches. *)
Definition same_writes (w w' : world) : Prop :=
  sock_out w' = sock_out w /\ write_sched w' = write_sched w
  /\ ignore_reply w' = ignore_reply w /\ stdout w' = stdout w.

(** What the write side never touches. *)
Definition same_reads (w w' : world) : Prop :=
  sock_in w' = sock_in w /\ read_sched w' = read_sched w
  /\ ignore_reply w' = ignore_reply w /\ heap w' = heap w
  /\ stdout w' = stdout w /\ stderr w' = stderr w.

(** Only input was consumed: every field but [sock_in] and [read_sched]
    is as before; the second form lets [errno] change too. *)
Definition only_input_moved (w w' : world) : Prop :=
  w' = set_read_sched (read_sched w') (set_sock_in (sock_in w') w).

Definition only_input_and_errno_moved (w w' : world) : Prop :=
  w' = set_errno (errno w') (set_read_sched (read_sched w') (set_sock_in (sock_in w') w)).

(** The call ends, by return or by exit, in a state with property [P]. *)
Definition ends_in {A} (o : outcome A) (P : world -> Prop) : Prop :=
  match o with
  | Returns _ w | Exits _ w => P w
  | OutOfFuel => False
  end.

(** What a call returned, or the status it exited with. *)
Definition returned {A} (o : outcome A) : option A :=
  match o with Returns a _ => Some a | _ => None end.

Definition exit_status {A} (o : outcome A) : option Z :=
  match o with Exits status _ => Some status | _ => None end.

(** The size field of a frame, read the way [recv_message] reads it. *)
Definition declared_size (frame : list byte) : Z :=
  u32_of_bytes (skipn IPC_MAGIC_LEN frame).

(** Frames used in the scenarios below: a reply [ok], an event [evt]. *)
Definition ok_reply : list byte :=
  message_buffer IPC_TYPE_GET_MONITORS 2 (list_byte_of_string "ok").

Definition evt_event : list byte :=
  message_buffer IPC_TYPE_EVENT 3 (list_byte_of_string "evt").

(** The state after a reply has been read and dealt with: the stream
    advanced, the schedule advanced, [out] on standard output. *)
Definition after_reply (rest : list byte) (sched : list io_event)
                       (out : string) (w : world) : world :=
  set_stdout out (set_read_sched sched (set_sock_in rest w)).

(** A message as a type code and a payload; its frame on the wire; a
    stream of frames; and what [print_socket_reply] prints for them,
    one line each. *)
Definition frame (m : Z * list byte) : list byte :=
  (header_bytes (fst m) (Z.of_nat (List.length (snd m))) ++ snd m)%list.

Fixpoint stream (ms : list (Z * list byte)) : list byte :=
  match ms with
  | [] => []
  | m :: rest => (frame m ++ stream rest)%list
  end.

Fixpoint printed (ms : list (Z * list byte)) : string :=
  match ms with
  | [] => ""
  | m :: rest => c_string (snd m) ++ newline ++ printed rest
  end.

Definition fits_u32 (m : Z * list byte) : Prop :=
  Z.of_nat (List.length (snd m)) < 2 ^ 32.

(** A message whose size, passed to [printf] as a precision, is still
    that size as an [int]. *)
Definition fits_int (m : Z * list byte) : Prop :=
  Z.of_nat (List.length (snd m)) < 2 ^ 31.

(** What a reply adds to standard output when it is printed, and what
    standard output holds after a reply that is printed unless [quiet]. *)
Definition line_of (payload : list byte) : string := c_string payload ++ newline.

Definition shown (quiet : bool) (out : string) (payload : list byte) : string :=
  if quiet then out else out ++ line_of payload.

(** A write that finds the peer gone: by default the process gets
    [SIGPIPE] there and [write] does not return.  The schedules of
    writes that stay clear of it. *)
Definition no_sigpipe (ev : io_event) : Prop :=
  match ev with Fail EPIPE => False | _ => True end.

(** One request and its reply, seen from outside: [sent] went out after
    what was already on the wire, the stream is down to [rest], standard
    output reads [out], and the heap, standard error and the
    [ignore_reply] flag are as before; the schedules only got shorter. *)
Definition exchanged (w w' : world) (sent rest : list byte) (out : string) : Prop :=
  sock_out w' = (sock_out w ++ sent)%list /\ sock_in w' = rest /\
  stdout w' = out /\ heap w' = heap w /\ stderr w' = stderr w /\
  ignore_reply w' = ignore_reply w /\
  Forall is_chunk (read_sched w') /\ Forall write_benign (write_sched w') /\
  (List.length (read_sched w') <= List.length (read_sched w))%nat /\
  (List.length (write_sched w') <= List.length (write_sched w))%nat.

(** The frame of a request of type [t] whose payload is the text [s]. *)
Definition request_frame (t : IPCMessageType) (s : string) : list byte :=
  frame (type_code t, list_byte_of_string s).

(** A call of [read] that fails with a condition [read_socket] and the
    payload loop take as a reason to try again. *)
Definition transient_failure (ev : io_event) : Prop :=
  match ev with Fail e => transient_read e = true | Chunk _ => False end.

(** How [main] may end: by [return 0], or by [exit (EXIT_FAILURE)]; in
    both cases with the blocks allocated that were allocated before. *)
Definition zero_or_failure (w : world) (o : outcome Z) : Prop :=
  match o with
  | Returns r w' => r = 0 /\ heap w' = heap w
  | Exits status w' => status = EXIT_FAILURE /\ heap w' = heap w
  | OutOfFuel => False
  end.

Definition exits_with_failure (w : world) (o : outcome Z) : Prop :=
  match o with
  | Exits status w' => status = EXIT_FAILURE /\ heap w' = heap w
  | _ => False
  end.

(* ================================================================== *)
(** * The [-t] option                                                   *)
(* ================================================================== *)

(** [tolower] and [strcasecmp] in the C locale. *)
Definition tolower (c : ascii) : ascii :=
  if (65 <=? char_code c) && (char_code c <=? 90)
  then ascii_of_N (Z.to_N (char_code c + 32))
  else c.

Fixpoint strcasecmp (s1 s2 : string) : Z :=
  match s1, s2 with
  | String c1 r1, String c2 r2 =>
      let d := char_code (tolower c1) - char_code (tolower c2) in
      if d =? 0 then strcasecmp r1 r2 else d
  | String c1 _, EmptyString => char_code (tolower c1)
  | EmptyString, String c2 _ => - char_code (tolower c2)
  | EmptyString, EmptyString => 0
  end.

(** The chain of comparisons under [o == 't'] in [main]: the type
    selected, or [None] where the code calls [usage_error]. *)
Definition select_type (optarg : string) : option IPCMessageType :=
  if strcasecmp optarg "command" =? 0 then Some IPC_TYPE_RUN_COMMAND
  else if strcasecmp optarg "run_command" =? 0 then Some IPC_TYPE_RUN_COMMAND
  else if strcasecmp optarg "get_monitors" =? 0 then Some IPC_TYPE_GET_MONITORS
  else if strcasecmp optarg "get_tags" =? 0 then Some IPC_TYPE_GET_TAGS
  else if strcasecmp optarg "get_layouts" =? 0 then Some IPC_TYPE_GET_LAYOUTS
  else if strcasecmp optarg "get_dwm_client" =? 0 then Some IPC_TYPE_GET_DWM_CLIENT
  else if strcasecmp optarg "subscribe" =? 0 then Some IPC_TYPE_SUBSCRIBE
  else None.

(** A string as [argv] holds it: no NUL inside. *)
Fixpoint no_nul (s : string) : bool :=
  match s with
  | EmptyString => true
  | String c r => negb (char_code c =? 0) && no_nul r
  end.

Fixpoint lowercase (s : string) : string :=
  match s with
  | EmptyString => EmptyString
  | String c r => String (tolower c) (lowercase r)
  end.

(** The names of the requests, in lower case. *)
Definition type_names : list (string * IPCMessageType) :=
  [("command", IPC_TYPE_RUN_COMMAND);
   ("run_command", IPC_TYPE_RUN_COMMAND);
   ("get_monitors", IPC_TYPE_GET_MONITORS);
   ("get_tags", IPC_TYPE_GET_TAGS);
   ("get_layouts", IPC_TYPE_GET_LAYOUTS);
   ("get_dwm_client", IPC_TYPE_GET_DWM_CLIENT);
   ("subscribe", IPC_TYPE_SUBSCRIBE)].

(** The three requests that carry no argument. *)
Definition is_query (t : IPCMessageType) : bool :=
  match t with
  | IPC_TYPE_GET_MONITORS | IPC_TYPE_GET_TAGS | IPC_TYPE_GET_LAYOUTS => true
  | _ => false
  end.

Definition has_no_nul (l : list byte) : Prop := Forall (fun b => b <> x00) l.

(* ================================================================== *)
(** * Strings and digits                                                *)
(* ================================================================== *)

Lemma append_assoc (a b c : string) : (a ++ b) ++ c = a ++ (b ++ c).
Proof.
  induction a as [|x a IH]; simpl; [reflexivity | now rewrite IH].
Qed.

Lemma append_nil_r (a : string) : a ++ "" = a.
Proof.
  induction a as [|x a IH]; simpl; [reflexivity | now rewrite IH].
Qed.

Lemma digit_char_code (d : Z) :
  0 <= d < 10 -> char_code (digit_char d) = 48 + d.
Proof.
  intros H.
  assert (C : d = 0 \/ d = 1 \/ d = 2 \/ d = 3 \/ d = 4 \/ d = 5 \/ d = 6
              \/ d = 7 \/ d = 8 \/ d = 9) by lia.
  repeat (destruct C as [-> | C]; [reflexivity |]); subst; reflexivity.
Qed.

Lemma digit_char_isdigit (d : Z) : 0 <= d < 10 -> isdigit (digit_char d) = true.
Proof.
  intros H. unfold isdigit. rewrite (digit_char_code d H).
  apply andb_true_iff; split; apply Z.leb_le; lia.
Qed.

Lemma isdigit_code (c : ascii) : isdigit c = true -> 48 <= char_code c <= 57.
Proof.
  unfold isdigit. intros H. apply andb_true_iff in H as [A B].
  apply Z.leb_le in A, B. lia.
Qed.

Lemma isdigit_not_space (c : ascii) : isdigit c = true -> isspace c = false.
Proof.
  intros H. apply isdigit_code in H. unfold isspace.
  apply orb_false_iff; split.
  - apply Z.eqb_neq. lia.
  - apply andb_false_iff. right. apply Z.leb_gt. lia.
Qed.

Lemma isdigit_not_char (c x : ascii) :
  isdigit c = true -> isdigit x = false -> Ascii.eqb c x = false.
Proof.
  intros H Hx. destruct (Ascii.eqb_spec c x) as [->|]; congruence.
Qed.

Lemma fmt_digits_digit_first (fuel : nat) : forall n tail,
  0 <= n -> (fuel <> O \/ digit_first tail) ->
  digit_first (fmt_digits fuel n tail).
Proof.
  induction fuel as [|f IH]; intros n tail Hn Hor; simpl.
  - destruct Hor as [Hf | Ht]; [congruence | exact Ht].
  - destruct (n <? 10) eqn:E.
    + apply Z.ltb_lt in E. simpl. apply digit_char_isdigit. lia.
    + apply IH.
      * apply Z.div_pos; lia.
      * right. simpl. apply digit_char_isdigit. apply Z.mod_pos_bound. lia.
Qed.

Lemma fmt_digits_unsigned (fuel : nat) : forall n tail,
  0 <= n -> is_unsigned_int tail = true ->
  is_unsigned_int (fmt_digits fuel n tail) = true.
Proof.
  induction fuel as [|f IH]; intros n tail Hn Ht; simpl; [exact Ht |].
  destruct (n <? 10) eqn:E.
  - apply Z.ltb_lt in E. simpl. rewrite digit_char_isdigit by lia. exact Ht.
  - apply IH; [apply Z.div_pos; lia |].
    simpl. rewrite digit_char_isdigit; [exact Ht |].
    apply Z.mod_pos_bound. lia.
Qed.

(** Reading back the digits [fmt_digits] wrote gives the number. *)
Lemma digits_value_fmt (fuel : nat) : forall n tail,
  0 <= n < 10 ^ Z.of_nat fuel ->
  digits_value 0 (fmt_digits fuel n tail) = digits_value n tail.
Proof.
  induction fuel as [|f IH]; intros n tail Hn.
  - simpl in *. assert (n = 0) by lia. subst. reflexivity.
  - simpl fmt_digits. destruct (n <? 10) eqn:E.
    + apply Z.ltb_lt in E. simpl.
      rewrite digit_char_isdigit, digit_char_code by lia.
      f_equal. lia.
    + apply Z.ltb_ge in E.
      rewrite IH.
      * simpl. assert (B : 0 <= n mod 10 < 10) by (apply Z.mod_pos_bound; lia).
        rewrite digit_char_isdigit, digit_char_code by exact B.
        f_equal. pose proof (Z.div_mod n 10). lia.
      * split; [apply Z.div_pos; lia |].
        apply Z.div_lt_upper_bound; [lia |].
        rewrite Nat2Z.inj_succ, Z.pow_succ_r in Hn by lia. lia.
Qed.

Lemma enough_digits (n : Z) :
  0 <= n -> n < 10 ^ Z.of_nat (S (Z.to_nat (Z.log2 n))).
Proof.
  intros Hn.
  rewrite Nat2Z.inj_succ, Z2Nat.id by apply Z.log2_nonneg.
  destruct (Z.eq_dec n 0) as [-> | Hz]; [reflexivity |].
  assert (L : n < 2 ^ Z.succ (Z.log2 n)) by (apply Z.log2_spec; lia).
  assert (P : 2 ^ Z.succ (Z.log2 n) <= 10 ^ Z.succ (Z.log2 n)).
  { apply Z.pow_le_mono_l. lia. }
  lia.
Qed.

Lemma digits_value_unsigned (n : Z) :
  0 <= n -> digits_value 0 (fmt_unsigned n) = n.
Proof.
  intros Hn. unfold fmt_unsigned.
  rewrite digits_value_fmt by (split; [exact Hn | apply enough_digits; exact Hn]).
  reflexivity.
Qed.

Lemma fmt_unsigned_digit_first (n : Z) : 0 <= n -> digit_first (fmt_unsigned n).
Proof.
  intros Hn. apply fmt_digits_digit_first; [exact Hn | left; discriminate].
Qed.

Lemma fmt_unsigned_unsigned (n : Z) :
  0 <= n -> is_unsigned_int (fmt_unsigned n) = true.
Proof.
  intros Hn. apply fmt_digits_unsigned; [exact Hn | reflexivity].
Qed.

Lemma zeros_value (k : nat) (s : string) :
  digits_value 0 (zeros k ++ s) = digits_value 0 s.
Proof.
  induction k as [|k IH]; simpl; [reflexivity | exact IH].
Qed.

Lemma zeros_unsigned (k : nat) (s : string) :
  is_unsigned_int s = true -> is_unsigned_int (zeros k ++ s) = true.
Proof.
  intros H. induction k as [|k IH]; simpl; [exact H | exact IH].
Qed.

Lemma zeros_digit_first (k : nat) (s : string) :
  digit_first s -> digit_first (zeros k ++ s).
Proof.
  intros H. destruct k; simpl; [exact H | reflexivity].
Qed.

Lemma unsigned_is_signed (s : string) : forall i,
  is_unsigned_int s = true -> is_signed_int_from i s = true.
Proof.
  induction s as [|c s IH]; intros i H; simpl in *; [reflexivity |].
  destruct (isdigit c); [apply IH; exact H | discriminate].
Qed.

(** [atoll] on a bare digit string and on one behind a minus sign. *)
Lemma atoll_digits (s : string) :
  digit_first s ->
  atoll s = Z.max LLONG_MIN (Z.min LLONG_MAX (digits_value 0 s)).
Proof.
  destruct s as [|c s]; simpl; [intros [] |]. intros H.
  unfold atoll. simpl skip_space. rewrite (isdigit_not_space c H).
  unfold take_sign.
  rewrite (isdigit_not_char c "-" H), (isdigit_not_char c "+" H) by reflexivity.
  reflexivity.
Qed.

Lemma atoll_minus (s : string) :
  atoll (String "-" s) = Z.max LLONG_MIN (Z.min LLONG_MAX (- digits_value 0 s)).
Proof. reflexivity. Qed.

Lemma padded_signed (k : nat) (z : Z) : is_signed_int (padded k z) = true.
Proof.
  unfold padded, is_signed_int. destruct (z <? 0) eqn:E.
  - apply Z.ltb_lt in E. simpl.
    apply unsigned_is_signed, zeros_unsigned, fmt_unsigned_unsigned. lia.
  - apply Z.ltb_ge in E.
    apply unsigned_is_signed, zeros_unsigned, fmt_unsigned_unsigned. lia.
Qed.

Lemma atoll_padded (k : nat) (z : Z) :
  LLONG_MIN <= z <= LLONG_MAX -> atoll (padded k z) = z.
Proof.
  intros Hz. unfold padded. destruct (z <? 0) eqn:E.
  - apply Z.ltb_lt in E.
    rewrite atoll_minus, zeros_value, digits_value_unsigned by lia. lia.
  - apply Z.ltb_ge in E.
    rewrite atoll_digits
      by (apply zeros_digit_first, fmt_unsigned_digit_first; exact E).
    rewrite zeros_value, digits_value_unsigned by lia. lia.
Qed.

(* ================================================================== *)
(** * The generator, argument by argument                               *)
(* ================================================================== *)

Lemma gen_arg_in_array (g : yajl_gen) (arg : string) :
  gen_top g = yajl_gen_in_array ->
  gen_arg g arg =
    match arg_text arg with
    | Some t => mk_gen (gen_buf g ++ "," ++ t) yajl_gen_in_array (gen_outer g)
    | None => g
    end.
Proof.
  destruct g as [buf top outer]; cbn [gen_top gen_buf gen_outer]; intros ->.
  unfold gen_arg, arg_text.
  destruct (is_signed_int arg).
  - unfold yajl_gen_integer, appended_atom, insert_sep, print.
    cbn [gen_top gen_buf gen_outer valid_state not_key andb].
    now rewrite append_assoc.
  - destruct (is_float arg).
    + unfold yajl_gen_double.
      cbn [gen_top valid_state not_key andb].
      destruct (is_finite (to_float (atof arg))); [| reflexivity].
      unfold appended_atom, insert_sep, print.
      cbn [gen_top gen_buf gen_outer].
      now rewrite append_assoc.
    + unfold yajl_gen_string, appended_atom, insert_sep, print.
      cbn [gen_top gen_buf gen_outer valid_state].
      now rewrite append_assoc.
Qed.

Lemma gen_arg_array_start (g : yajl_gen) (arg : string) :
  gen_top g = yajl_gen_array_start ->
  gen_arg g arg =
    match arg_text arg with
    | Some t => mk_gen (gen_buf g ++ t) yajl_gen_in_array (gen_outer g)
    | None => g
    end.
Proof.
  destruct g as [buf top outer]; cbn [gen_top gen_buf gen_outer]; intros ->.
  unfold gen_arg, arg_text.
  destruct (is_signed_int arg); [reflexivity |].
  destruct (is_float arg); [| reflexivity].
  unfold yajl_gen_double.
  cbn [gen_top valid_state not_key andb].
  destruct (is_finite (to_float (atof arg))); reflexivity.
Qed.

Lemma concat_commas (t : string) (ts : list string) :
  String.concat "," (t :: ts) = t ++ with_commas ts.
Proof.
  revert t. induction ts as [|u ts IH]; intros t.
  - cbn [String.concat with_commas]. now rewrite append_nil_r.
  - change (String.concat "," (t :: u :: ts))
      with (t ++ "," ++ String.concat "," (u :: ts)).
    rewrite IH. reflexivity.
Qed.

Lemma fold_gen_arg_in_array (args : list string) : forall g,
  gen_top g = yajl_gen_in_array ->
  fold_left gen_arg args g =
    mk_gen (gen_buf g ++ with_commas (arg_texts args))
           yajl_gen_in_array (gen_outer g).
Proof.
  induction args as [|arg args IH]; intros g Hg; cbn [fold_left arg_texts].
  - cbn [with_commas]. rewrite append_nil_r.
    destruct g; cbn [gen_top gen_buf gen_outer] in *; now subst.
  - rewrite (gen_arg_in_array g arg Hg).
    destruct (arg_text arg) as [t|].
    + rewrite IH by reflexivity. cbn [gen_buf gen_outer with_commas].
      f_equal. rewrite !append_assoc. reflexivity.
    + apply IH. exact Hg.
Qed.

Lemma fold_gen_arg_array_start (args : list string) : forall g,
  gen_top g = yajl_gen_array_start ->
  fold_left gen_arg args g =
    match arg_texts args with
    | [] => g
    | t :: ts =>
        mk_gen (gen_buf g ++ String.concat "," (t :: ts))
               yajl_gen_in_array (gen_outer g)
    end.
Proof.
  induction args as [|arg args IH]; intros g Hg; [reflexivity |].
  cbn [fold_left arg_texts].
  rewrite (gen_arg_array_start g arg Hg).
  destruct (arg_text arg) as [t|].
  - rewrite fold_gen_arg_in_array by reflexivity.
    rewrite concat_commas. cbn [gen_buf gen_outer].
    now rewrite append_assoc.
  - apply IH. exact Hg.
Qed.

(** The generator calls of the requests, state by state. *)
Lemma map_open_alloc :
  yajl_gen_map_open yajl_gen_alloc = mk_gen "{" yajl_gen_map_start [yajl_gen_start].
Proof. reflexivity. Qed.

Lemma string_first_key (buf s : string) (outer : list yajl_gen_state) :
  yajl_gen_string (mk_gen buf yajl_gen_map_start outer) s
  = mk_gen (buf ++ json_string s) yajl_gen_map_val outer.
Proof. reflexivity. Qed.

Lemma string_value (buf s : string) (outer : list yajl_gen_state) :
  yajl_gen_string (mk_gen buf yajl_gen_map_val outer) s
  = mk_gen (buf ++ ":" ++ json_string s) yajl_gen_map_key outer.
Proof.
  unfold yajl_gen_string, appended_atom, insert_sep, print.
  cbn [gen_top gen_buf gen_outer valid_state]. now rewrite append_assoc.
Qed.

Lemma string_next_key (buf s : string) (outer : list yajl_gen_state) :
  yajl_gen_string (mk_gen buf yajl_gen_map_key outer) s
  = mk_gen (buf ++ "," ++ json_string s) yajl_gen_map_val outer.
Proof.
  unfold yajl_gen_string, appended_atom, insert_sep, print.
  cbn [gen_top gen_buf gen_outer valid_state]. now rewrite append_assoc.
Qed.

Lemma integer_value (buf : string) (n : Z) (outer : list yajl_gen_state) :
  yajl_gen_integer (mk_gen buf yajl_gen_map_val outer) n
  = mk_gen (buf ++ ":" ++ fmt_lld n) yajl_gen_map_key outer.
Proof.
  unfold yajl_gen_integer, appended_atom, insert_sep, print.
  cbn [gen_top gen_buf gen_outer valid_state not_key andb].
  now rewrite append_assoc.
Qed.

Lemma array_open_value (buf : string) (outer : list yajl_gen_state) :
  yajl_gen_array_open (mk_gen buf yajl_gen_map_val outer)
  = mk_gen (buf ++ ":[") yajl_gen_array_start (yajl_gen_map_val :: outer).
Proof.
  unfold yajl_gen_array_open, push_state, insert_sep, print.
  cbn [gen_top gen_buf gen_outer valid_state not_key andb].
  now rewrite append_assoc.
Qed.

Lemma array_close_value (buf : string) (st : yajl_gen_state)
                        (outer : list yajl_gen_state) :
  st = yajl_gen_array_start \/ st = yajl_gen_in_array ->
  yajl_gen_array_close (mk_gen buf st (yajl_gen_map_val :: outer))
  = mk_gen (buf ++ "]") yajl_gen_map_key outer.
Proof. intros [-> | ->]; reflexivity. Qed.

Lemma map_close_top (buf : string) (st : yajl_gen_state) :
  st = yajl_gen_map_key \/ st = yajl_gen_map_val ->
  yajl_gen_map_close (mk_gen buf st [yajl_gen_start])
  = mk_gen (buf ++ "}") yajl_gen_complete [].
Proof. intros [-> | ->]; reflexivity. Qed.

(** The buffer of [run_command] is the document [run_command_text]. *)
Lemma run_command_gen_text (name : string) (args : list string) :
  gen_buf (run_command_gen name args) = run_command_text name args.
Proof.
  unfold run_command_gen, run_command_text.
  rewrite map_open_alloc, string_first_key, string_value, string_next_key,
    array_open_value.
  rewrite fold_gen_arg_array_start by reflexivity.
  destruct (arg_texts args) as [|t ts].
  - rewrite array_close_value, map_close_top by (left; reflexivity).
    cbn [gen_buf String.concat]. rewrite !append_assoc. reflexivity.
  - cbn [gen_buf gen_outer].
    rewrite array_close_value by (right; reflexivity).
    rewrite map_close_top by (left; reflexivity).
    cbn [gen_buf]. rewrite !append_assoc. reflexivity.
Qed.

Lemma subscribe_gen_text (event : string) :
  gen_buf (subscribe_gen event) = subscribe_text event.
Proof.
  unfold subscribe_gen, subscribe_text.
  rewrite map_open_alloc, string_first_key, string_value, string_next_key,
    string_value.
  rewrite map_close_top by (left; reflexivity).
  cbn [gen_buf]. rewrite !append_assoc. reflexivity.
Qed.

(* ================================================================== *)
(** * Argument classification                                           *)
(* ================================================================== *)

Lemma gen_arg_classify (gen : yajl_gen) (arg : string) :
  gen_arg gen arg = emit gen (classify arg).
Proof.
  unfold gen_arg, classify.
  destruct (is_signed_int arg); [reflexivity |].
  destruct (is_float arg); reflexivity.
Qed.

(** C1, as the code has it.  Each argument of run_command is classified on
    its own, integer scan first, float scan second, string otherwise, and
    the [args] array holds the arguments' texts in order.  ["42"] and
    ["-7"] go out as the integers 42 and -7, ["4.2"] and ["-0.5"] as
    doubles holding the [float] nearest the decimal (for 4.2 that is
    8808038 / 2^21, printed 4.1999998092651367188; -0.5 is exact),
    ["abc"], ["4.2.3"] and ["3-3"] as strings.  A lone ["-"] passes the
    integer scan and goes out as the integer 0. *)
Theorem argument_classification :
  (forall gen arg, gen_arg gen arg = emit gen (classify arg)) /\
  (forall name args,
     gen_buf (run_command_gen name args) = run_command_text name args) /\
  classify "42" = AsInteger 42 /\
  classify "-7" = AsInteger (-7) /\
  classify "4.2" = AsDouble (S754_finite false 8808038 (-21)) /\
  classify "-0.5" = AsDouble (S754_finite true 8388608 (-24)) /\
  classify "abc" = AsString "abc" /\
  classify "4.2.3" = AsString "4.2.3" /\
  classify "3-3" = AsString "3-3" /\
  classify "-" = AsInteger 0 /\
  gen_buf (run_command_gen "c"
             ["42"; "-7"; "4.2"; "-0.5"; "abc"; "4.2.3"; "-"; "3-3"])
  = dq "{'command':'c','args':[42,-7,4.1999998092651367188,-0.5,'abc','4.2.3',0,'3-3']}".
Proof.
  split; [exact gen_arg_classify |].
  split; [exact run_command_gen_text |].
  repeat split; vm_compute; reflexivity.
Qed.

(** C1 as the spec words it fails on the lone minus sign: the integer scan
    accepts it, so it is not emitted as the string ["-"]. *)
Lemma lone_minus_is_an_integer :
  is_signed_int "-" = true /\
  classify "-" = AsInteger 0 /\
  gen_buf (run_command_gen "c" ["-"]) = dq "{'command':'c','args':[0]}" /\
  String.eqb (gen_buf (run_command_gen "c" ["-"]))
             (dq "{'command':'c','args':['-']}") = false.
Proof. repeat split; vm_compute; reflexivity. Qed.

(** C10.  The empty argument passes the integer scan with no character
    looked at, and the float scan likewise; run_command tries the integer
    scan first and so emits the JSON integer 0, not an empty string. *)
Theorem empty_argument_is_integer_zero :
  is_signed_int "" = true /\
  is_float "" = true /\
  classify "" = AsInteger 0 /\
  (forall gen, gen_arg gen "" = yajl_gen_integer gen 0) /\
  (forall name,
     gen_buf (run_command_gen name [""])
     = dq "{'command':" ++ json_string name ++ dq ",'args':[0]}") /\
  String.eqb (gen_buf (run_command_gen "c" [""]))
             (dq "{'command':'c','args':['']}") = false.
Proof.
  repeat split; try reflexivity.
  intros name. rewrite run_command_gen_text. reflexivity.
Qed.

(* ================================================================== *)
(** * Integer arguments keep their text                                 *)
(* ================================================================== *)

Lemma signed_arg_text (arg : string) :
  is_signed_int arg = true -> arg_text arg = Some (fmt_lld (atoll arg)).
Proof. unfold arg_text. now intros ->. Qed.

(** C8, as the code has it.  For an integer [z] that fits [long long],
    written in decimal with any number [k] of extra zeros before its
    digits: the text passes the integer scan and the JSON integer emitted
    for it is the decimal text of [z].  With no extra zero the emitted
    text is the input itself. *)
Theorem integer_text_preserved (z : Z) (k : nat) (name : string) :
  LLONG_MIN <= z <= LLONG_MAX ->
  is_signed_int (padded k z) = true /\
  classify (padded k z) = AsInteger z /\
  gen_buf (run_command_gen name [padded k z])
  = dq "{'command':" ++ json_string name ++ dq ",'args':[" ++ fmt_lld z ++ "]}" /\
  padded 0 z = fmt_lld z.
Proof.
  intros Hz.
  pose proof (padded_signed k z) as Hs.
  split; [exact Hs |].
  split.
  - unfold classify. rewrite Hs, atoll_padded by exact Hz. reflexivity.
  - split; [| reflexivity].
    rewrite run_command_gen_text. unfold run_command_text.
    cbn [arg_texts]. rewrite (signed_arg_text _ Hs), atoll_padded by exact Hz.
    reflexivity.
Qed.

Lemma integer_text_preserved_witness :
  (LLONG_MIN <= -42 <= LLONG_MAX) /\
  gen_buf (run_command_gen "tag" [padded 2 (-42)])
  = dq "{'command':" ++ json_string "tag" ++ dq ",'args':[" ++ fmt_lld (-42) ++ "]}".
Proof.
  assert (H : LLONG_MIN <= -42 <= LLONG_MAX) by (unfold LLONG_MIN, LLONG_MAX; lia).
  split; [exact H |].
  exact (proj1 (proj2 (proj2 (integer_text_preserved (-42) 2 "tag" H)))).
Defined.

(** C8 as the spec words it fails: strings of the integer grammar whose
    emitted text is not the input, leading zeros set aside.  The lone
    sign and the empty string come out as 0, a negative zero loses its
    sign, and twenty nines come out as [LLONG_MAX]. *)
Lemma integer_text_not_preserved :
  (is_signed_int "-" = true /\
   arg_text "-" = Some "0" /\ drop_leading_zeros "-" = "-") /\
  (is_signed_int "" = true /\
   arg_text "" = Some "0" /\ drop_leading_zeros "" = "") /\
  (is_signed_int "-0" = true /\
   arg_text "-0" = Some "0" /\ drop_leading_zeros "-0" = "-0") /\
  (is_signed_int "99999999999999999999" = true /\
   arg_text "99999999999999999999" = Some "9223372036854775807" /\
   drop_leading_zeros "99999999999999999999" = "99999999999999999999").
Proof. repeat split; vm_compute; reflexivity. Qed.

(* ================================================================== *)
(** * The read side: it ends, and leaves the write side alone           *)
(* ================================================================== *)

Lemma same_writes_refl (w : world) : same_writes w w.
Proof. repeat split. Qed.

Lemma same_writes_trans (a b c : world) :
  same_writes a b -> same_writes b c -> same_writes a c.
Proof.
  unfold same_writes. intros (A1 & A2 & A3 & A4) (B1 & B2 & B3 & B4).
  repeat split; congruence.
Qed.

Lemma ends_in_bind {A B} (m : outcome A) (k : A -> world -> outcome B)
                   (Q P : world -> Prop) :
  ends_in m Q ->
  (forall a w, Q w -> ends_in (k a w) P) ->
  (forall w, Q w -> P w) ->
  ends_in (bind m k) P.
Proof.
  destruct m as [a w | st w |]; simpl; intros Hm Hk Hx.
  - apply Hk, Hm.
  - apply Hx, Hm.
  - exact Hm.
Qed.

Lemma read_frame (count : Z) (w : world) (n : Z) (data : list byte) (w' : world) :
  read count w = (n, data, w') ->
  same_writes w w' /\
  ((n = 0 /\ (pending w' <= pending w)%nat) \/ (n <> 0 /\ (pending w' < pending w)%nat)).
Proof.
  unfold read, deliver, pending.
  destruct (read_sched w) as [|[k|e] s] eqn:E; intros H;
    injection H as <- <- <-; (split; [repeat split |]); simpl;
    try rewrite E; simpl; try rewrite length_skipn; lia.
Qed.

Lemma warnx_pending (t : string) (w : world) : pending (warnx t w) = pending w.
Proof. reflexivity. Qed.

Lemma free_pending (w : world) : pending (free w) = pending w.
Proof. reflexivity. Qed.

Lemma malloc_pending (n : Z) (w : world) : pending (malloc n w) = pending w.
Proof. reflexivity. Qed.

Lemma read_header_step (fuel : nat) (header : list byte) (w : world) :
  read_header (S fuel) header w =
    let read_bytes := Z.of_nat (List.length header) in
    if read_bytes <? to_read then
      let '(n, data, w1) := read (to_read - read_bytes) w in
      if n =? 0 then
        if read_bytes =? 0 then
          Returns (inr (-2))
            (warnx (read_of_total read_bytes to_read) (warnx eof_header w1))
        else
          Returns (inr (-3))
            (warnx (read_of_total read_bytes to_read) (warnx eof_header w1))
      else if n =? -1 then Returns (inr (-1)) w1
      else read_header fuel (header ++ data) w1
    else Returns (inl header) w.
Proof. reflexivity. Qed.

Lemma read_payload_step (fuel : nat) (reply_size : Z) (reply : list byte) (w : world) :
  read_payload (S fuel) reply_size reply w =
    let read_bytes := Z.of_nat (List.length reply) in
    if read_bytes <? reply_size then
      let '(n, data, w1) := read (reply_size - read_bytes) w in
      if n =? 0 then
        Returns (inr (-2))
          (free (warnx (read_of read_bytes reply_size) (warnx eof_payload w1)))
      else if n =? -1 then
        if transient_read (errno w1) then read_payload fuel reply_size reply w1
        else Returns (inr (-1)) (free w1)
      else read_payload fuel reply_size (reply ++ data) w1
    else Returns (inl reply) w.
Proof. reflexivity. Qed.

Lemma read_header_total (fuel : nat) : forall header w,
  (pending w < fuel)%nat ->
  exists r w',
    read_header fuel header w = Returns r w' /\ same_writes w w' /\
    (pending w' <= pending w)%nat /\
    (r = inr (-1) -> (pending w' < pending w)%nat).
Proof.
  induction fuel as [|fuel IH]; intros header w Hf; [lia |].
  rewrite read_header_step. cbv zeta.
  destruct (Z.of_nat (List.length header) <? to_read).
  2:{ exists (inl header), w. repeat split; [lia | discriminate]. }
  destruct (read (to_read - Z.of_nat (List.length header)) w) as [[n data] w1] eqn:R.
  destruct (read_frame _ _ _ _ _ R) as [Hs Hp].
  destruct (n =? 0) eqn:E0.
  - apply Z.eqb_eq in E0.
    assert (Hle : (pending w1 <= pending w)%nat) by lia.
    destruct (Z.of_nat (List.length header) =? 0);
      eexists; eexists; (split; [reflexivity |]);
      (split; [exact Hs |]); (split; [exact Hle | discriminate]).
  - apply Z.eqb_neq in E0.
    assert (Hlt : (pending w1 < pending w)%nat) by lia.
    destruct (n =? -1).
    + exists (inr (-1)), w1. repeat split; try apply Hs; lia.
    + destruct (IH (header ++ data)%list w1) as (r & w' & Hr & Hs' & Hp' & Hm); [lia |].
      exists r, w'. split; [exact Hr |].
      split; [exact (same_writes_trans _ _ _ Hs Hs') |].
      split; [lia | intros _; lia].
Qed.

Lemma read_payload_total (fuel : nat) : forall reply_size reply w,
  (pending w < fuel)%nat ->
  exists r w',
    read_payload fuel reply_size reply w = Returns r w' /\ same_writes w w' /\
    (pending w' <= pending w)%nat /\
    (r = inr (-1) -> (pending w' < pending w)%nat).
Proof.
  induction fuel as [|fuel IH]; intros reply_size reply w Hf; [lia |].
  rewrite read_payload_step. cbv zeta.
  destruct (Z.of_nat (List.length reply) <? reply_size).
  2:{ exists (inl reply), w. repeat split; [lia | discriminate]. }
  destruct (read (reply_size - Z.of_nat (List.length reply)) w) as [[n data] w1] eqn:R.
  destruct (read_frame _ _ _ _ _ R) as [Hs Hp].
  destruct (n =? 0) eqn:E0.
  - apply Z.eqb_eq in E0.
    eexists; eexists; split; [reflexivity |].
    split; [exact Hs |]. split; [| discriminate].
    rewrite free_pending, !warnx_pending. lia.
  - apply Z.eqb_neq in E0.
    assert (Hlt : (pending w1 < pending w)%nat) by lia.
    destruct (n =? -1).
    + destruct (transient_read (errno w1)).
      * destruct (IH reply_size reply w1) as (r & w' & Hr & Hs' & Hp' & Hm); [lia |].
        exists r, w'. split; [exact Hr |].
        split; [exact (same_writes_trans _ _ _ Hs Hs') |].
        split; [lia | intros _; lia].
      * eexists; eexists; split; [reflexivity |].
        split; [exact Hs |]. rewrite free_pending. split; [lia | intros _; lia].
    + destruct (IH reply_size (reply ++ data)%list w1) as (r & w' & Hr & Hs' & Hp' & Hm); [lia |].
      exists r, w'. split; [exact Hr |].
      split; [exact (same_writes_trans _ _ _ Hs Hs') |].
      split; [lia | intros _; lia].
Qed.

Lemma recv_message_total (fuel : nat) (w : world) :
  (pending w < fuel)%nat ->
  exists r w',
    recv_message fuel w = Returns r w' /\ same_writes w w' /\
    (pending w' <= pending w)%nat /\
    (r = RecvErr (-1) -> (pending w' < pending w)%nat).
Proof.
  intros Hf. unfold recv_message.
  destruct (read_header_total fuel [] w Hf) as (h & w1 & Hh & Hs1 & Hp1 & Hm1).
  rewrite Hh. cbn [bind].
  destruct h as [header | code].
  - destruct (negb (bytes_eqb (firstn IPC_MAGIC_LEN header) IPC_MAGIC_ARR)).
    + eexists; eexists; split; [reflexivity |].
      split; [exact Hs1 |]. rewrite warnx_pending. split; [lia | discriminate].
    + set (n := u32_of_bytes (skipn IPC_MAGIC_LEN header)).
      destruct (read_payload_total fuel n [] (malloc n w1))
        as (p & w3 & Hp & Hs3 & Hp3 & Hm3); [rewrite malloc_pending; lia |].
      rewrite Hp. cbn [bind]. rewrite malloc_pending in *.
      destruct p as [reply | code];
        eexists; eexists; (split; [reflexivity |]);
        (split; [exact (same_writes_trans _ _ _ Hs1 Hs3) |]);
        (split; [lia |]).
      * discriminate.
      * intros H. injection H as ->. specialize (Hm3 eq_refl). lia.
  - exists (RecvErr code), w1. split; [reflexivity |].
    split; [exact Hs1 |]. split; [lia |].
    intros H. injection H as ->. apply Hm1. reflexivity.
Qed.

Lemma read_socket_total (fuel : nat) : forall w,
  (pending w < fuel)%nat ->
  ends_in (read_socket fuel w)
          (fun w' => same_writes w w' /\ (pending w' <= pending w)%nat).
Proof.
  induction fuel as [|fuel IH]; intros w Hf; [lia |].
  cbn [read_socket].
  destruct (recv_message_total (S fuel) w Hf) as (r & w1 & Hr & Hs & Hp & Hm).
  rewrite Hr. cbn [bind].
  destruct r as [t n msg | code].
  - cbn [ends_in]. split; [exact Hs | exact Hp].
  - destruct ((code =? -1) && transient_read (errno w1)) eqn:E.
    + apply andb_true_iff in E as [Ec _]. apply Z.eqb_eq in Ec. subst code.
      specialize (Hm eq_refl).
      assert (Hf1 : (pending w1 < fuel)%nat) by lia.
      specialize (IH w1 Hf1).
      destruct (read_socket fuel w1) as [a w2 | st w2 |]; cbn [ends_in] in *;
        try (destruct IH as [Hs2 Hp2];
             split; [exact (same_writes_trans _ _ _ Hs Hs2) | lia]).
      exact IH.
    + unfold err. cbn [ends_in]. split; [exact Hs | exact Hp].
Qed.

(* ================================================================== *)
(** * Reads that move bytes                                             *)
(* ================================================================== *)

(** Projections of an updated state, and nothing else, reduced. *)
Ltac fields :=
  cbn [sock_in read_sched write_sched sock_out errno ignore_reply heap stdout
       stderr set_sock_in set_read_sched set_write_sched set_sock_out set_errno
       set_heap set_stdout set_stderr warnx malloc free].

Tactic Notation "fields" "in" hyp(H) :=
  cbn [sock_in read_sched write_sched sock_out errno ignore_reply heap stdout
       stderr set_sock_in set_read_sched set_write_sched set_sock_out set_errno
       set_heap set_stdout set_stderr warnx malloc free] in H.

Lemma only_input_moved_refl (w : world) : only_input_moved w w.
Proof. destruct w; reflexivity. Qed.

Lemma only_input_moved_trans (a b c : world) :
  only_input_moved a b -> only_input_moved b c -> only_input_moved a c.
Proof.
  destruct a, b, c; unfold only_input_moved, set_read_sched, set_sock_in; cbn. congruence.
Qed.

Lemma errno_moved_refl (w : world) : only_input_and_errno_moved w w.
Proof. destruct w; reflexivity. Qed.

Lemma errno_moved_trans (a b c : world) :
  only_input_and_errno_moved a b -> only_input_and_errno_moved b c ->
  only_input_and_errno_moved a c.
Proof.
  destruct a, b, c; unfold only_input_and_errno_moved, set_errno, set_read_sched, set_sock_in; cbn.
  congruence.
Qed.

(** One [read] under a schedule of chunks: [k] bytes arrive, [k] being
    zero only at the end of the stream or for an empty request. *)
Lemma min_zero_cases (a : nat) (count : Z) (l : list byte) :
  (a <> 0)%nat \/ a = List.length l ->
  Nat.min a (Nat.min (Z.to_nat count) (List.length l)) = O ->
  l = [] \/ count <= 0.
Proof.
  intros Ha H0. destruct l; [now left | right].
  cbn [List.length] in *. lia.
Qed.

Lemma read_chunk (count : Z) (w : world) (n : Z) (data : list byte) (w1 : world) :
  Forall is_chunk (read_sched w) ->
  read count w = (n, data, w1) ->
  exists k : nat,
    n = Z.of_nat k /\
    (k <= Z.to_nat count)%nat /\ (k <= List.length (sock_in w))%nat /\
    (k = O -> sock_in w = [] \/ count <= 0) /\
    data = firstn k (sock_in w) /\ sock_in w1 = skipn k (sock_in w) /\
    Forall is_chunk (read_sched w1) /\
    (List.length (read_sched w1) <= List.length (read_sched w))%nat /\
    only_input_moved w w1.
Proof.
  intros Hc. unfold read, deliver.
  destruct (read_sched w) as [|[c|e] s] eqn:E; intros H.
  - injection H as <- <- <-.
    exists (Nat.min (List.length (sock_in w))
                    (Nat.min (Z.to_nat count) (List.length (sock_in w)))).
    split; [reflexivity |]. split; [lia |]. split; [lia |].
    split; [apply min_zero_cases; now right |].
    split; [reflexivity |]. split; [reflexivity |].
    split; [fields; rewrite E; constructor |].
    split; [fields; rewrite E; fields; cbn [List.length]; lia |].
    destruct w; unfold only_input_moved; cbn in *. now subst.
  - injection H as <- <- <-.
    exists (Nat.min (S c) (Nat.min (Z.to_nat count) (List.length (sock_in w)))).
    split; [reflexivity |]. split; [fields; cbn [List.length]; lia |]. split; [fields; cbn [List.length]; lia |].
    split; [apply min_zero_cases; now left |].
    split; [reflexivity |]. split; [reflexivity |].
    split; [fields; now inversion Hc |].
    split; [fields; cbn [List.length]; lia |].
    destruct w; unfold only_input_moved; cbn in *. reflexivity.
  - inversion Hc as [|? ? Hbad]. destruct Hbad.
Qed.

(** One [read] under a schedule the payload loop rides out: it fails
    with a transient condition and consumes nothing, or bytes arrive. *)
Lemma read_benign_cases (count : Z) (w : world) (n : Z) (data : list byte)
                        (w1 : world) :
  Forall read_benign (read_sched w) ->
  read count w = (n, data, w1) ->
  Forall read_benign (read_sched w1) /\
  only_input_and_errno_moved w w1 /\
  ((n = -1 /\ transient_read (errno w1) = true /\ sock_in w1 = sock_in w /\
    (List.length (read_sched w1) < List.length (read_sched w))%nat)
   \/
   (exists k : nat,
      n = Z.of_nat k /\
      (k <= Z.to_nat count)%nat /\ (k <= List.length (sock_in w))%nat /\
      (k = O -> sock_in w = [] \/ count <= 0) /\
      data = firstn k (sock_in w) /\ sock_in w1 = skipn k (sock_in w) /\
      (List.length (read_sched w1) <= List.length (read_sched w))%nat)).
Proof.
  intros Hc. unfold read, deliver.
  destruct (read_sched w) as [|[c|e] s] eqn:E; intros H; injection H as <- <- <-.
  - split; [fields; rewrite E; constructor |].
    split; [destruct w; unfold only_input_and_errno_moved; cbn in *; now subst |].
    right.
    exists (Nat.min (List.length (sock_in w))
                    (Nat.min (Z.to_nat count) (List.length (sock_in w)))).
    split; [reflexivity |]. split; [lia |]. split; [lia |].
    split; [apply min_zero_cases; now right |].
    split; [reflexivity |]. split; [reflexivity |].
    fields; rewrite E; fields; cbn [List.length]; lia.
  - split; [fields; now inversion Hc |].
    split; [destruct w; unfold only_input_and_errno_moved; cbn in *; reflexivity |].
    right.
    exists (Nat.min (S c) (Nat.min (Z.to_nat count) (List.length (sock_in w)))).
    split; [reflexivity |]. split; [fields; cbn [List.length]; lia |]. split; [fields; cbn [List.length]; lia |].
    split; [apply min_zero_cases; now left |].
    split; [reflexivity |]. split; [reflexivity |].
    fields; cbn [List.length]; lia.
  - split; [fields; now inversion Hc |].
    split; [destruct w; unfold only_input_and_errno_moved; cbn in *; reflexivity |].
    left. inversion Hc as [|? ? Hb]. cbn [read_benign] in Hb.
    split; [reflexivity |]. split; [exact Hb |]. split; [reflexivity |].
    fields. cbn [List.length]. lia.
Qed.

Lemma firstn_app_le {A} (k : nat) (a b : list A) :
  (k <= List.length a)%nat -> firstn k (a ++ b) = firstn k a.
Proof.
  intros H. rewrite firstn_app.
  replace (k - List.length a)%nat with O by lia.
  simpl. apply app_nil_r.
Qed.

Lemma skipn_app_le {A} (k : nat) (a b : list A) :
  (k <= List.length a)%nat -> skipn k (a ++ b) = (skipn k a ++ b)%list.
Proof.
  intros H. rewrite skipn_app.
  replace (k - List.length a)%nat with O by lia. reflexivity.
Qed.

(** The header loop on a stream that holds the rest of the header. *)
Lemma read_header_ok (fuel : nat) : forall h0 w h1 rest,
  Forall is_chunk (read_sched w) ->
  sock_in w = (h1 ++ rest)%list ->
  (List.length h0 + List.length h1 = 12)%nat ->
  (List.length h1 < fuel)%nat ->
  exists w',
    read_header fuel h0 w = Returns (inl (h0 ++ h1)%list) w' /\
    sock_in w' = rest /\ Forall is_chunk (read_sched w') /\
    (List.length (read_sched w') <= List.length (read_sched w))%nat /\
    only_input_moved w w'.
Proof.
  induction fuel as [|fuel IH]; intros h0 w h1 rest Hc Hin Hlen Hf; [lia |].
  rewrite read_header_step. cbv zeta. unfold to_read.
  destruct (Z.of_nat (List.length h0) <? 12) eqn:E.
  2:{ apply Z.ltb_ge in E. assert (List.length h1 = O) by lia.
      destruct h1; [| discriminate].
      exists w. rewrite app_nil_r. repeat split; auto.
      apply only_input_moved_refl. }
  apply Z.ltb_lt in E.
  destruct (read (12 - Z.of_nat (List.length h0)) w) as [[n data] w1] eqn:R.
  destruct (read_chunk _ _ _ _ _ Hc R)
    as (k & -> & Hk1 & Hk2 & Hk0 & -> & Hin1 & Hc1 & Hl1 & Hm1).
  rewrite Hin in *.
  assert (Hk : k <> O).
  { intros ->. destruct (Hk0 eq_refl) as [Hnil | Hcnt]; [| lia].
    destruct h1; [simpl in Hlen; lia | discriminate]. }
  assert (Hkl : (k <= List.length h1)%nat) by lia.
  destruct (Z.of_nat k =? 0) eqn:E0; [apply Z.eqb_eq in E0; lia |].
  destruct (Z.of_nat k =? -1) eqn:E1; [apply Z.eqb_eq in E1; lia |].
  rewrite firstn_app_le by exact Hkl.
  rewrite skipn_app_le in Hin1 by exact Hkl.
  destruct (IH (h0 ++ firstn k h1)%list w1 (skipn k h1) rest Hc1 Hin1)
    as (w' & Hr & Hin' & Hc' & Hl' & Hm').
  - rewrite length_app, length_firstn, length_skipn. lia.
  - rewrite length_skipn. lia.
  - exists w'. rewrite Hr, <- app_assoc, firstn_skipn.
    repeat split; auto; [lia |].
    exact (only_input_moved_trans _ _ _ Hm1 Hm').
Qed.

(** The header loop on a stream that ends before the header does. *)
Lemma read_header_eof (fuel : nat) : forall h0 w,
  Forall is_chunk (read_sched w) ->
  (List.length h0 + List.length (sock_in w) < 12)%nat ->
  (List.length (sock_in w) < fuel)%nat ->
  let total := Z.of_nat (List.length h0 + List.length (sock_in w)) in
  exists w1,
    read_header fuel h0 w
    = Returns (inr (if total =? 0 then -2 else -3))
              (warnx (read_of_total total to_read) (warnx eof_header w1)) /\
    sock_in w1 = [] /\ only_input_moved w w1.
Proof.
  induction fuel as [|fuel IH]; intros h0 w Hc Hlen Hf; [lia |].
  cbv zeta. rewrite read_header_step. cbv zeta. unfold to_read.
  destruct (Z.of_nat (List.length h0) <? 12) eqn:E;
    [| apply Z.ltb_ge in E; lia].
  destruct (read (12 - Z.of_nat (List.length h0)) w) as [[n data] w1] eqn:R.
  destruct (read_chunk _ _ _ _ _ Hc R)
    as (k & -> & Hk1 & Hk2 & Hk0 & -> & Hin1 & Hc1 & Hl1 & Hm1).
  destruct (Z.of_nat k =? 0) eqn:E0.
  - apply Z.eqb_eq in E0. assert (k = O) by lia. subst k.
    destruct (Hk0 eq_refl) as [Hnil | Hcnt]; [| lia].
    rewrite Hnil in *. simpl in Hin1.
    rewrite Nat.add_0_r.
    exists w1. split; [| split; [exact Hin1 | exact Hm1]].
    destruct (Z.of_nat (List.length h0) =? 0); reflexivity.
  - apply Z.eqb_neq in E0.
    destruct (Z.of_nat k =? -1) eqn:E1; [apply Z.eqb_eq in E1; lia |].
    destruct (IH (h0 ++ firstn k (sock_in w))%list w1 Hc1) as (w2 & Hr & Hin2 & Hm2).
    + rewrite Hin1, length_app, length_firstn, length_skipn. lia.
    + rewrite Hin1, length_skipn. lia.
    + exists w2. rewrite Hr.
      rewrite Hin1, length_app, length_firstn, length_skipn.
      replace (Nat.min k (List.length (sock_in w)) + (List.length (sock_in w) - k))%nat
        with (List.length (sock_in w)) by lia.
      rewrite <- Nat.add_assoc.
      replace (Nat.min k (List.length (sock_in w)) + (List.length (sock_in w) - k))%nat
        with (List.length (sock_in w)) by lia.
      split; [reflexivity |]. split; [exact Hin2 |].
      exact (only_input_moved_trans _ _ _ Hm1 Hm2).
Qed.

(** The payload loop on a stream that holds the rest of the payload,
    whatever transient failures come in between. *)
Lemma read_payload_ok (fuel : nat) : forall p0 w p1 rest n,
  Forall read_benign (read_sched w) ->
  sock_in w = (p1 ++ rest)%list ->
  n = Z.of_nat (List.length p0 + List.length p1) ->
  (List.length p1 + List.length (read_sched w) < fuel)%nat ->
  exists w',
    read_payload fuel n p0 w = Returns (inl (p0 ++ p1)%list) w' /\
    sock_in w' = rest /\ Forall read_benign (read_sched w') /\
    only_input_and_errno_moved w w'.
Proof.
  induction fuel as [|fuel IH]; intros p0 w p1 rest n Hc Hin Hn Hf; [lia |].
  rewrite read_payload_step. cbv zeta.
  destruct (Z.of_nat (List.length p0) <? n) eqn:E.
  2:{ apply Z.ltb_ge in E. assert (List.length p1 = O) by lia.
      destruct p1; [| discriminate].
      exists w. rewrite app_nil_r. repeat split; auto.
      apply errno_moved_refl. }
  apply Z.ltb_lt in E.
  destruct (read (n - Z.of_nat (List.length p0)) w) as [[m data] w1] eqn:R.
  destruct (read_benign_cases _ _ _ _ _ Hc R) as (Hc1 & Hm1 & Hcases).
  destruct Hcases as [(-> & Ht & Hin1 & Hl1)
                     | (k & -> & Hk1 & Hk2 & Hk0 & -> & Hin1 & Hl1)].
  - cbn [Z.eqb]. rewrite Ht.
    destruct (IH p0 w1 p1 rest n Hc1) as (w' & Hr & Hin' & Hc' & Hm');
      [congruence | exact Hn | lia |].
    exists w'. rewrite Hr. repeat split; auto.
    exact (errno_moved_trans _ _ _ Hm1 Hm').
  - rewrite Hin in *.
    assert (Hk : k <> O).
    { intros ->. destruct (Hk0 eq_refl) as [Hnil | Hcnt]; [| lia].
      destruct p1; [simpl in *; lia | discriminate]. }
    assert (Hkl : (k <= List.length p1)%nat) by lia.
    destruct (Z.of_nat k =? 0) eqn:E0; [apply Z.eqb_eq in E0; lia |].
    destruct (Z.of_nat k =? -1) eqn:E1; [apply Z.eqb_eq in E1; lia |].
    rewrite firstn_app_le by exact Hkl.
    rewrite skipn_app_le in Hin1 by exact Hkl.
    destruct (IH (p0 ++ firstn k p1)%list w1 (skipn k p1) rest n Hc1 Hin1)
      as (w' & Hr & Hin' & Hc' & Hm').
    + rewrite length_app, length_firstn, length_skipn. lia.
    + rewrite length_skipn. lia.
    + exists w'. rewrite Hr, <- app_assoc, firstn_skipn.
      repeat split; auto.
      exact (errno_moved_trans _ _ _ Hm1 Hm').
Qed.

(** The payload loop on a stream that ends before the payload does. *)
Lemma read_payload_eof (fuel : nat) : forall p0 w n,
  Forall read_benign (read_sched w) ->
  Z.of_nat (List.length p0 + List.length (sock_in w)) < n ->
  (pending w < fuel)%nat ->
  let total := Z.of_nat (List.length p0 + List.length (sock_in w)) in
  exists w1,
    read_payload fuel n p0 w
    = Returns (inr (-2))
              (free (warnx (read_of total n) (warnx eof_payload w1))) /\
    sock_in w1 = [] /\ only_input_and_errno_moved w w1.
Proof.
  induction fuel as [|fuel IH]; intros p0 w n Hc Hlen Hf; [lia |].
  cbv zeta. rewrite read_payload_step. cbv zeta.
  destruct (Z.of_nat (List.length p0) <? n) eqn:E;
    [| apply Z.ltb_ge in E; lia].
  destruct (read (n - Z.of_nat (List.length p0)) w) as [[m data] w1] eqn:R.
  destruct (read_benign_cases _ _ _ _ _ Hc R) as (Hc1 & Hm1 & Hcases).
  unfold pending in Hf.
  destruct Hcases as [(-> & Ht & Hin1 & Hl1)
                     | (k & -> & Hk1 & Hk2 & Hk0 & -> & Hin1 & Hl1)].
  - cbn [Z.eqb]. rewrite Ht.
    destruct (IH p0 w1 n Hc1) as (w2 & Hr & Hin2 & Hm2);
      [rewrite Hin1; exact Hlen | unfold pending; rewrite Hin1; lia |].
    exists w2. rewrite Hr, Hin1. split; [reflexivity |].
    split; [exact Hin2 |]. exact (errno_moved_trans _ _ _ Hm1 Hm2).
  - destruct (Z.of_nat k =? 0) eqn:E0.
    + apply Z.eqb_eq in E0. assert (k = O) by lia. subst k.
      destruct (Hk0 eq_refl) as [Hnil | Hcnt]; [| lia].
      rewrite Hnil in *. simpl in Hin1. rewrite Nat.add_0_r.
      exists w1. split; [reflexivity |]. split; [exact Hin1 | exact Hm1].
    + apply Z.eqb_neq in E0.
      destruct (Z.of_nat k =? -1) eqn:E1; [apply Z.eqb_eq in E1; lia |].
      assert (Hsum : (List.length (p0 ++ firstn k (sock_in w)) + List.length (sock_in w1)
                      = List.length p0 + List.length (sock_in w))%nat).
      { rewrite Hin1, length_app, length_firstn, length_skipn. lia. }
      destruct (IH (p0 ++ firstn k (sock_in w))%list w1 n Hc1) as (w2 & Hr & Hin2 & Hm2).
      * rewrite Hsum. exact Hlen.
      * unfold pending. rewrite Hin1, length_skipn. lia.
      * exists w2. rewrite Hr, Hsum. split; [reflexivity |].
        split; [exact Hin2 |]. exact (errno_moved_trans _ _ _ Hm1 Hm2).
Qed.

(* ================================================================== *)
(** * Writes                                                            *)
(* ================================================================== *)

Lemma same_reads_trans (a b c : world) :
  same_reads a b -> same_reads b c -> same_reads a c.
Proof.
  unfold same_reads.
  intros (A1 & A2 & A3 & A4 & A5 & A6) (B1 & B2 & B3 & B4 & B5 & B6).
  repeat split; congruence.
Qed.

Lemma write_loop_step (fuel : nat) (buf : list byte) (written : nat) (w : world) :
  write_loop (S fuel) buf written w =
    if (written <? List.length buf)%nat then
      let '(n, w1) := write (skipn written buf) w in
      if n =? -1 then
        if transient_write (errno w1) then write_loop fuel buf written w1
        else Returns n w1
      else write_loop fuel buf (written + Z.to_nat n) w1
    else Returns (Z.of_nat written) w.
Proof. reflexivity. Qed.

(** One [write] of a non-empty buffer under a schedule [write_socket]
    rides out. *)
Lemma write_benign_cases (b : list byte) (w : world) (n : Z) (w1 : world) :
  Forall write_benign (write_sched w) ->
  b <> [] ->
  write b w = (n, w1) ->
  Forall write_benign (write_sched w1) /\ same_reads w w1 /\
  ((n = -1 /\ transient_write (errno w1) = true /\ sock_out w1 = sock_out w /\
    (List.length (write_sched w1) < List.length (write_sched w))%nat)
   \/
   (exists k : nat,
      n = Z.of_nat k /\ (1 <= k <= List.length b)%nat /\
      sock_out w1 = (sock_out w ++ firstn k b)%list /\
      (List.length (write_sched w1) <= List.length (write_sched w))%nat)).
Proof.
  intros Hc Hb. unfold write, accept.
  assert (Hl : (1 <= List.length b)%nat).
  { destruct b; [congruence | cbn [List.length]; lia]. }
  destruct (write_sched w) as [|[c|e] s] eqn:E; intros H; injection H as <- <-.
  - split; [fields; rewrite E; constructor |].
    split; [repeat split |]. right.
    exists (Nat.min (List.length b) (List.length b)).
    split; [reflexivity |]. split; [lia |]. split; [reflexivity |].
    fields. rewrite E. lia.
  - split; [fields; now inversion Hc |].
    split; [repeat split |]. right.
    exists (Nat.min (S c) (List.length b)).
    split; [reflexivity |]. split; [lia |]. split; [reflexivity |].
    fields. cbn [List.length]. lia.
  - split; [fields; now inversion Hc |].
    split; [repeat split |]. left.
    inversion Hc as [|? ? Hbn]. cbn [write_benign] in Hbn.
    split; [reflexivity |]. split; [exact Hbn |]. split; [reflexivity |].
    fields. cbn [List.length]. lia.
Qed.

(** [write_socket] under such a schedule puts the whole buffer on the
    wire and returns its length. *)
Lemma write_loop_ok (fuel : nat) : forall buf written w,
  Forall write_benign (write_sched w) ->
  (written <= List.length buf)%nat ->
  (List.length buf - written + List.length (write_sched w) < fuel)%nat ->
  exists w',
    write_loop fuel buf written w = Returns (Z.of_nat (List.length buf)) w' /\
    sock_out w' = (sock_out w ++ skipn written buf)%list /\
    same_reads w w' /\ Forall write_benign (write_sched w').
Proof.
  induction fuel as [|fuel IH]; intros buf written w Hc Hw Hf; [lia |].
  rewrite write_loop_step.
  destruct (written <? List.length buf)%nat eqn:E.
  2:{ apply Nat.ltb_ge in E. assert (written = List.length buf) by lia. subst.
      exists w. rewrite skipn_all, app_nil_r.
      repeat split; auto. }
  apply Nat.ltb_lt in E.
  destruct (write (skipn written buf) w) as [n w1] eqn:W.
  assert (Hb : skipn written buf <> []).
  { intros Hnil. apply (f_equal (@List.length byte)) in Hnil.
    rewrite length_skipn in Hnil. cbn [List.length] in Hnil. lia. }
  destruct (write_benign_cases _ _ _ _ Hc Hb W) as (Hc1 & Hs1 & Hcases).
  destruct Hcases as [(-> & Ht & Ho1 & Hl1) | (k & -> & Hk & Ho1 & Hl1)].
  - cbn [Z.eqb]. rewrite Ht.
    destruct (IH buf written w1 Hc1 Hw) as (w' & Hr & Ho' & Hs' & Hc'); [lia |].
    exists w'. rewrite Hr, Ho', Ho1. repeat split; auto.
    all: destruct Hs1 as (? & ? & ? & ? & ? & ?);
         destruct Hs' as (? & ? & ? & ? & ? & ?); congruence.
  - rewrite length_skipn in Hk.
    destruct (Z.of_nat k =? -1) eqn:E1; [apply Z.eqb_eq in E1; lia |].
    rewrite Nat2Z.id.
    destruct (IH buf (written + k)%nat w1 Hc1) as (w' & Hr & Ho' & Hs' & Hc');
      [lia | lia |].
    exists w'. rewrite Hr, Ho', Ho1. split; [reflexivity |].
    split.
    + rewrite <- app_assoc. f_equal.
      rewrite (Nat.add_comm written k), <- skipn_skipn.
      apply firstn_skipn.
    + split; [exact (same_reads_trans _ _ _ Hs1 Hs') | exact Hc'].
Qed.

Lemma write_socket_ok (fuel : nat) (buf : list byte) (w : world) :
  Forall write_benign (write_sched w) ->
  (List.length buf + List.length (write_sched w) < fuel)%nat ->
  exists w',
    write_socket fuel buf w = Returns (Z.of_nat (List.length buf)) w' /\
    sock_out w' = (sock_out w ++ buf)%list /\
    same_reads w w' /\ Forall write_benign (write_sched w').
Proof.
  intros Hc Hf. unfold write_socket.
  destruct (write_loop_ok fuel buf O w Hc) as (w' & Hr & Ho & Hs & Hc'); [lia | lia |].
  exists w'. repeat split; auto; apply Hs.
Qed.

Lemma send_message_ok (fuel : nat) (t : IPCMessageType) (msg_size : Z)
                      (msg : list byte) (w : world) :
  Forall write_benign (write_sched w) ->
  0 <= msg_size < 2 ^ 32 ->
  (List.length (message_buffer t msg_size msg)
   + List.length (write_sched w) < fuel)%nat ->
  exists w',
    send_message fuel t msg_size msg w = Returns 0 w' /\
    sock_out w' = (sock_out w ++ message_buffer t msg_size msg)%list /\
    same_reads w w' /\ Forall write_benign (write_sched w').
Proof.
  intros Hc Hsz Hf. unfold send_message.
  rewrite Z.mod_small by exact Hsz.
  destruct (write_socket_ok fuel _ w Hc Hf) as (w' & Hr & Ho & Hs & Hc').
  exists w'. rewrite Hr. repeat split; auto; apply Hs.
Qed.

(* ================================================================== *)
(** * The header, written and read back                                 *)
(* ================================================================== *)

Lemma Z_of_byte_of_Z (z : Z) : Z_of_byte (byte_of_Z z) = z mod 256.
Proof.
  unfold Z_of_byte, byte_of_Z.
  assert (B : 0 <= z mod 256 < 256) by (apply Z.mod_pos_bound; lia).
  destruct (Byte.of_N (Z.to_N (z mod 256))) as [b|] eqn:E.
  - apply Byte.to_of_N in E. rewrite E. apply Z2N.id. lia.
  - apply Byte.of_N_None_iff in E. lia.
Qed.

Lemma u32_round_trip (n : Z) (rest : list byte) :
  0 <= n < 2 ^ 32 -> u32_of_bytes (u32_bytes n ++ rest) = n.
Proof.
  intros Hn. unfold u32_of_bytes, u32_bytes.
  cbn [app firstn fold_right]. rewrite !Z_of_byte_of_Z.
  change (2 ^ 8) with 256. change (2 ^ 16) with (256 * 256).
  change (2 ^ 24) with (256 * 256 * 256). change (2 ^ 32) with 4294967296 in Hn.
  rewrite <- !Z.div_div by lia.
  pose proof (Z.div_mod n 256).
  pose proof (Z.div_mod (n / 256) 256).
  pose proof (Z.div_mod (n / 256 / 256) 256).
  assert (0 <= n / 256 / 256 / 256 < 256).
  { split; [repeat apply Z.div_pos; lia |].
    repeat (apply Z.div_lt_upper_bound; [lia |]). lia. }
  rewrite (Z.mod_small (n / 256 / 256 / 256)) by lia.
  lia.
Qed.

Lemma type_code_range (t : IPCMessageType) : 0 <= type_code t < 256.
Proof. destruct t; cbn; lia. Qed.

Lemma header_length (c n : Z) : List.length (header_bytes c n) = 12%nat.
Proof. reflexivity. Qed.

Lemma header_magic (c n : Z) :
  bytes_eqb (firstn IPC_MAGIC_LEN (header_bytes c n)) IPC_MAGIC_ARR = true.
Proof. reflexivity. Qed.

Lemma header_size (c n : Z) :
  0 <= n < 2 ^ 32 ->
  u32_of_bytes (skipn IPC_MAGIC_LEN (header_bytes c n)) = n.
Proof.
  intros Hn.
  change (skipn IPC_MAGIC_LEN (header_bytes c n))
    with (u32_bytes n ++ [byte_of_Z c])%list.
  apply u32_round_trip, Hn.
Qed.

Lemma header_type (c n : Z) :
  Z_of_byte (hd x00 (skipn 4 (skipn IPC_MAGIC_LEN (header_bytes c n)))) = c mod 256.
Proof.
  change (skipn 4 (skipn IPC_MAGIC_LEN (header_bytes c n))) with [byte_of_Z c].
  apply Z_of_byte_of_Z.
Qed.

Lemma bytes_eqb_eq (a : list byte) : forall b, bytes_eqb a b = true <-> a = b.
Proof.
  induction a as [|x a IH]; intros [|y b]; cbn; split; intros H;
    try reflexivity; try discriminate.
  - apply andb_true_iff in H as [Hx Ha].
    apply Byte.byte_dec_bl in Hx. apply IH in Ha. congruence.
  - injection H as -> ->. apply andb_true_iff. split.
    + now apply Byte.byte_dec_lb.
    + now apply IH.
Qed.

Lemma input_moved_fields (w w' : world) :
  only_input_moved w w' ->
  write_sched w' = write_sched w /\ sock_out w' = sock_out w /\
  errno w' = errno w /\ ignore_reply w' = ignore_reply w /\
  heap w' = heap w /\ stdout w' = stdout w /\ stderr w' = stderr w.
Proof. unfold only_input_moved. intros H. rewrite H. repeat split. Qed.

Lemma errno_moved_fields (w w' : world) :
  only_input_and_errno_moved w w' ->
  write_sched w' = write_sched w /\ sock_out w' = sock_out w /\
  ignore_reply w' = ignore_reply w /\
  heap w' = heap w /\ stdout w' = stdout w /\ stderr w' = stderr w.
Proof. unfold only_input_and_errno_moved. intros H. rewrite H. repeat split. Qed.

Lemma chunks_are_benign (s : list io_event) :
  Forall is_chunk s -> Forall read_benign s.
Proof.
  apply Forall_impl. intros [k|e] H; [exact I | destruct H].
Qed.

(** [recv_message] on a stream that starts with a whole message. *)
Lemma recv_message_ok (fuel : nat) (w : world) (c n : Z) (payload rest : list byte) :
  Forall is_chunk (read_sched w) ->
  sock_in w = (header_bytes c n ++ payload ++ rest)%list ->
  n = Z.of_nat (List.length payload) -> n < 2 ^ 32 ->
  (12 + List.length payload + List.length (read_sched w) < fuel)%nat ->
  exists w',
    recv_message fuel w = Returns (RecvOk (c mod 256) n payload) w' /\
    sock_in w' = rest /\
    heap w' = n :: heap w /\ stderr w' = stderr w /\ same_writes w w'.
Proof.
  intros Hc Hin Hn Hlt Hf. unfold recv_message.
  destruct (read_header_ok fuel [] w (header_bytes c n) (payload ++ rest)%list Hc Hin)
    as (wh & Hr & Hinh & Hch & Hlh & Hmh);
    [reflexivity | rewrite header_length; lia |].
  rewrite Hr. cbn [bind app].
  rewrite header_magic. cbn [negb].
  rewrite header_size, header_type by lia.
  destruct (input_moved_fields _ _ Hmh) as (F1 & F2 & F3 & F4 & F5 & F6 & F7).
  assert (Hb : Forall read_benign (read_sched (malloc n wh)))
    by (apply chunks_are_benign; exact Hch).
  destruct (read_payload_ok fuel [] (malloc n wh) payload rest n Hb)
    as (wp & Hrp & Hinp & Hcp & Hmp);
    [exact Hinh | cbn [List.length]; lia | fields; lia |].
  rewrite Hrp. cbn [bind app].
  exists wp. split; [reflexivity |].
  destruct (errno_moved_fields _ _ Hmp) as (G1 & G2 & G3 & G4 & G5 & G6).
  fields in G1. fields in G2. fields in G3. fields in G4. fields in G5. fields in G6.
  split; [exact Hinp |].
  split; [congruence |]. split; [congruence |].
  repeat split; congruence.
Qed.

(* ================================================================== *)
(** * Framing                                                           *)
(* ================================================================== *)

Lemma message_buffer_whole (t : IPCMessageType) (payload : list byte) :
  message_buffer t (Z.of_nat (List.length payload)) payload
  = (header_bytes (type_code t) (Z.of_nat (List.length payload)) ++ payload)%list.
Proof.
  unfold message_buffer. now rewrite Nat2Z.id, firstn_all.
Qed.

(** C2.  A message of any type of the enumeration and any payload shorter
    than 2^32 bytes, sent by [send_message] and read back by
    [recv_message] from the bytes that reached the wire (magic, length,
    type, payload), comes out with the same type, the same payload, and
    a size equal to the payload's length; this holds however the writes
    are cut or interrupted and however the reads are cut. *)
Theorem framing_round_trip (t : IPCMessageType) (payload : list byte)
                           (fuel : nat) (sender receiver : world) :
  Z.of_nat (List.length payload) < 2 ^ 32 ->
  Forall write_benign (write_sched sender) ->
  sock_out sender = [] ->
  Forall is_chunk (read_sched receiver) ->
  (12 + List.length payload + List.length (write_sched sender)
   + List.length (read_sched receiver) < fuel)%nat ->
  exists sender' receiver',
    send_message fuel t (Z.of_nat (List.length payload)) payload sender
    = Returns 0 sender' /\
    sock_out sender'
    = (IPC_MAGIC_ARR ++ u32_bytes (Z.of_nat (List.length payload))
         ++ [byte_of_Z (type_code t)] ++ payload)%list /\
    recv_message fuel (set_sock_in (sock_out sender') receiver)
    = Returns (RecvOk (type_code t) (Z.of_nat (List.length payload)) payload)
              receiver' /\
    sock_in receiver' = [].
Proof.
  intros Hlt Hw Hout Hr Hf.
  set (n := Z.of_nat (List.length payload)) in *.
  assert (Hlen : List.length (message_buffer t n payload)
                 = (12 + List.length payload)%nat).
  { subst n. rewrite message_buffer_whole, length_app, header_length. reflexivity. }
  destruct (send_message_ok fuel t n payload sender Hw) as (s' & Hs & Ho & _ & _);
    [subst n; lia | rewrite Hlen; lia |].
  rewrite Hout in Ho. cbn [app] in Ho.
  subst n. rewrite message_buffer_whole in Ho.
  destruct (recv_message_ok fuel (set_sock_in (sock_out s') receiver)
              (type_code t) (Z.of_nat (List.length payload)) payload [])
    as (r' & Hrecv & Hin & _); fields.
  - exact Hr.
  - rewrite Ho, app_nil_r. reflexivity.
  - reflexivity.
  - exact Hlt.
  - lia.
  - exists s', r'. split; [exact Hs |]. split.
    + rewrite Ho. unfold header_bytes. rewrite <- !app_assoc. reflexivity.
    + rewrite Z.mod_small in Hrecv by apply type_code_range.
      split; [exact Hrecv | exact Hin].
Qed.

Lemma framing_round_trip_witness :
  exists sender' receiver',
    send_message 20 IPC_TYPE_EVENT 2 (list_byte_of_string "{}")
                 (fresh_world [] [] [Chunk 2; Fail EINTR; Chunk 0])
    = Returns 0 sender' /\
    recv_message 20 (set_sock_in (sock_out sender')
                                 (fresh_world [] [Chunk 0; Chunk 4] []))
    = Returns (RecvOk 6 2 (list_byte_of_string "{}")) receiver'.
Proof.
  destruct (framing_round_trip IPC_TYPE_EVENT (list_byte_of_string "{}") 20
              (fresh_world [] [] [Chunk 2; Fail EINTR; Chunk 0])
              (fresh_world [] [Chunk 0; Chunk 4] []))
    as (s' & r' & Hs & _ & Hr & _).
  - reflexivity.
  - repeat constructor.
  - reflexivity.
  - repeat constructor.
  - cbn. lia.
  - exists s', r'. split; [exact Hs | exact Hr].
Defined.

(* ================================================================== *)
(** * End of stream                                                     *)
(* ================================================================== *)

(** C3, as the code has it.  Under reads that only ever move bytes:
    a stream that ends inside the header makes [recv_message] return -2
    when no byte had arrived and -3 when some had, with no block
    allocated; a stream that ends inside the payload, after a whole
    header and any number of payload bytes, makes it return -2 again,
    with its own line on standard error and the payload block freed. *)
Theorem eof_classification (fuel : nat) (w : world) :
  Forall is_chunk (read_sched w) ->
  (pending w < fuel)%nat ->
  ((List.length (sock_in w) < 12)%nat ->
   exists w',
     recv_message fuel w
     = Returns (RecvErr (if (List.length (sock_in w) =? 0)%nat then -2 else -3)) w' /\
     sock_in w' = [] /\ heap w' = heap w /\
     stderr w' = (stderr w ++
       [Warnx eof_header;
        Warnx (read_of_total (Z.of_nat (List.length (sock_in w))) to_read)])%list)
  /\
  (forall c n p,
     sock_in w = (header_bytes c n ++ p)%list ->
     0 <= n < 2 ^ 32 -> Z.of_nat (List.length p) < n ->
     exists w',
       recv_message fuel w = Returns (RecvErr (-2)) w' /\
       sock_in w' = [] /\ heap w' = heap w /\
       stderr w' = (stderr w ++
         [Warnx eof_payload; Warnx (read_of (Z.of_nat (List.length p)) n)])%list).
Proof.
  intros Hc Hf. unfold pending in Hf. split.
  - intros Hlen. unfold recv_message.
    destruct (read_header_eof fuel [] w Hc) as (w1 & Hr & Hin & Hm);
      [cbn [List.length]; lia | lia |].
    cbv zeta in Hr. cbn [List.length Nat.add] in Hr.
    rewrite Hr. cbn [bind].
    destruct (input_moved_fields _ _ Hm) as (F1 & F2 & F3 & F4 & F5 & F6 & F7).
    assert (Hb : (Z.of_nat (List.length (sock_in w)) =? 0)
                 = (List.length (sock_in w) =? 0)%nat)
      by (destruct (List.length (sock_in w)); reflexivity).
    rewrite Hb.
    eexists. split; [reflexivity |].
    + fields. split; [exact Hin |]. split; [exact F5 |].
      rewrite F7, <- app_assoc. reflexivity.
  - intros c n p Hin Hn Hp. unfold recv_message.
    destruct (read_header_ok fuel [] w (header_bytes c n) p Hc Hin)
      as (wh & Hr & Hinh & Hch & Hlh & Hmh);
      [reflexivity | rewrite Hin, length_app, header_length in Hf; rewrite header_length; lia |].
    rewrite Hr. cbn [bind app].
    rewrite header_magic. cbn [negb].
    rewrite header_size by lia.
    destruct (input_moved_fields _ _ Hmh) as (F1 & F2 & F3 & F4 & F5 & F6 & F7).
    destruct (read_payload_eof fuel [] (malloc n wh) n) as (w1 & Hrp & Hin1 & Hm1).
    + apply chunks_are_benign. exact Hch.
    + fields. cbn [List.length Nat.add]. rewrite Hinh. exact Hp.
    + unfold pending. fields. rewrite Hinh.
      rewrite Hin, length_app, header_length in Hf. lia.
    + cbv zeta in Hrp. fields in Hrp. cbn [List.length Nat.add] in Hrp.
      rewrite Hinh in Hrp. rewrite Hrp. cbn [bind].
      destruct (errno_moved_fields _ _ Hm1) as (G1 & G2 & G3 & G4 & G5 & G6).
      fields in G4. fields in G6.
      eexists. split; [reflexivity |]. fields.
      split; [exact Hin1 |]. split.
      * rewrite G4. cbn [tl]. exact F5.
      * rewrite G6, F7, <- app_assoc. reflexivity.
Qed.

Lemma eof_classification_witness :
  exists w',
    recv_message 20 (fresh_world (firstn 14 (message_buffer IPC_TYPE_EVENT 4
                                     (list_byte_of_string "abcd")))
                                 [Chunk 0] [])
    = Returns (RecvErr (-2)) w' /\ heap w' = [].
Proof.
  destruct (eof_classification 20
              (fresh_world (firstn 14 (message_buffer IPC_TYPE_EVENT 4
                               (list_byte_of_string "abcd")))
                           [Chunk 0] []))
    as [_ Hpayload].
  - repeat constructor.
  - vm_compute. lia.
  - destruct (Hpayload 6 4 (list_byte_of_string "ab")) as (w' & Hr & _ & Hh & _).
    + reflexivity.
    + lia.
    + vm_compute. reflexivity.
    + exists w'. split; [exact Hr | exact Hh].
Defined.

(** C3 as the spec words it fails on the payload: the stream below ends
    two bytes into a four-byte payload, and [recv_message] returns -2,
    the code it returns when the stream ends before any byte, not the
    -3 it returns when the stream ends inside the header. *)
Lemma truncated_payload_returns_early_eof_code :
  returned (recv_message 20 (fresh_world [] [] [])) = Some (RecvErr (-2)) /\
  returned (recv_message 20 (fresh_world (firstn 5 ok_reply) [] []))
  = Some (RecvErr (-3)) /\
  returned (recv_message 20
              (fresh_world (firstn 14 (message_buffer IPC_TYPE_EVENT 4
                                         (list_byte_of_string "abcd"))) [] []))
  = Some (RecvErr (-2)).
Proof. repeat split; vm_compute; reflexivity. Qed.

(* ================================================================== *)
(** * The magic marker                                                  *)
(* ================================================================== *)

(** C5.  When the twelve header bytes have arrived and the first seven
    are not the marker, [recv_message] returns its error code from the
    state the header loop left, with one more line on standard error:
    no [read] was issued after the header, so no payload byte was
    consumed, and no block was allocated, whatever the size and type
    fields say.  [read_socket] then ends the process with
    [EXIT_FAILURE]; it does not look for the next marker. *)
Theorem bad_magic_rejected (fuel : nat) (w : world) (hdr rest : list byte) :
  Forall is_chunk (read_sched w) ->
  sock_in w = (hdr ++ rest)%list ->
  List.length hdr = 12%nat ->
  firstn IPC_MAGIC_LEN hdr <> IPC_MAGIC_ARR ->
  (12 < fuel)%nat ->
  exists w_h,
    read_header fuel [] w = Returns (inl hdr) w_h /\
    sock_in w_h = rest /\ heap w_h = heap w /\ only_input_moved w w_h /\
    recv_message fuel w
    = Returns (RecvErr (-3)) (warnx (invalid_magic hdr) w_h) /\
    read_socket fuel w
    = Exits EXIT_FAILURE
        (set_stderr (stderr w ++ [Warnx (invalid_magic hdr);
                                  Err receiving_failed (errno w)])%list w_h).
Proof.
  intros Hc Hin Hlen Hbad Hf.
  destruct (read_header_ok fuel [] w hdr rest Hc Hin)
    as (wh & Hr & Hinh & _ & _ & Hm); [exact Hlen | lia |].
  cbn [app] in Hr.
  destruct (input_moved_fields _ _ Hm) as (F1 & F2 & F3 & F4 & F5 & F6 & F7).
  assert (Hneg : negb (bytes_eqb (firstn IPC_MAGIC_LEN hdr) IPC_MAGIC_ARR) = true).
  { destruct (bytes_eqb (firstn IPC_MAGIC_LEN hdr) IPC_MAGIC_ARR) eqn:E;
      [| reflexivity].
    apply bytes_eqb_eq in E. contradiction. }
  assert (Hrecv : recv_message fuel w
                  = Returns (RecvErr (-3)) (warnx (invalid_magic hdr) wh)).
  { unfold recv_message. rewrite Hr. cbn [bind]. rewrite Hneg. reflexivity. }
  exists wh. repeat split; auto.
  destruct fuel as [|fuel]; [lia |].
  cbn [read_socket]. rewrite Hrecv. cbn [bind Z.eqb andb].
  unfold err, warnx. fields. rewrite F3, F7, <- app_assoc.
  destruct wh; reflexivity.
Qed.

Lemma bad_magic_rejected_witness :
  exists w_h,
    sock_in w_h = list_byte_of_string "ok" /\ heap w_h = [] /\
    recv_message 20
      (fresh_world (list_byte_of_string "DWM-IPX" ++ u32_bytes 2 ++ [x01]
                      ++ list_byte_of_string "ok") [Chunk 3; Chunk 0] [])
    = Returns (RecvErr (-3))
        (warnx "Invalid magic string. Got 'DWM-IPX', expected 'DWM-IPC'" w_h).
Proof.
  destruct (bad_magic_rejected 20
              (fresh_world (list_byte_of_string "DWM-IPX" ++ u32_bytes 2 ++ [x01]
                              ++ list_byte_of_string "ok") [Chunk 3; Chunk 0] [])
              (list_byte_of_string "DWM-IPX" ++ u32_bytes 2 ++ [x01])
              (list_byte_of_string "ok"))
    as (wh & _ & Hin & Hh & _ & Hr & _).
  - repeat constructor.
  - reflexivity.
  - reflexivity.
  - intros H. vm_compute in H. discriminate H.
  - lia.
  - exists wh. split; [exact Hin |]. split; [exact Hh | exact Hr].
Defined.

(* ================================================================== *)
(** * The queries without arguments                                     *)
(* ================================================================== *)

Lemma query_ends (fuel : nat) (t : IPCMessageType) (w : world) :
  Forall write_benign (write_sched w) ->
  (13 + List.length (write_sched w) < fuel)%nat ->
  (pending w < fuel)%nat ->
  ends_in (do (_r, w1) <- send_message fuel t 1 empty_literal w;
           do (_u, w2) <- print_socket_reply fuel w1;
           Returns 0 w2)
          (fun w' => sock_out w'
                     = (sock_out w ++ message_buffer t 1 empty_literal)%list).
Proof.
  intros Hc Hf Hp.
  destruct (send_message_ok fuel t 1 empty_literal w Hc) as (w1 & Hs & Ho & Hsr & _);
    [lia | exact Hf |].
  rewrite Hs. cbn [bind].
  assert (Hp1 : (pending w1 < fuel)%nat).
  { unfold pending in *. destruct Hsr as (-> & -> & _). exact Hp. }
  pose proof (read_socket_total fuel w1 Hp1) as Hrs.
  unfold print_socket_reply.
  destruct (read_socket fuel w1) as [[[ty sz] msg] w2 | st w2 |];
    cbn [bind ends_in] in *.
  - unfold printf_reply. fields. destruct Hrs as ((-> & _) & _). exact Ho.
  - destruct Hrs as ((-> & _) & _). exact Ho.
  - exact Hrs.
Qed.

(** C9.  [get_monitors], [get_tags] and [get_layouts] each hand
    [write_socket] a frame of thirteen bytes whose size field reads 1,
    the one payload byte being the NUL of the empty literal; when no
    write fails for good, that frame is what the call has put on the
    wire by the time it ends. *)
Theorem zero_argument_queries_declare_one_byte (fuel : nat) (w : world) :
  Forall write_benign (write_sched w) ->
  (13 + List.length (write_sched w) < fuel)%nat ->
  (pending w < fuel)%nat ->
  (forall t,
     declared_size (message_buffer t 1 empty_literal) = 1 /\
     message_buffer t 1 empty_literal
     = (IPC_MAGIC_ARR ++ [x01; x00; x00; x00] ++ [byte_of_Z (type_code t)]
          ++ [x00])%list) /\
  ends_in (get_monitors fuel w)
    (fun w' => sock_out w'
       = (sock_out w ++ message_buffer IPC_TYPE_GET_MONITORS 1 empty_literal)%list) /\
  ends_in (get_tags fuel w)
    (fun w' => sock_out w'
       = (sock_out w ++ message_buffer IPC_TYPE_GET_TAGS 1 empty_literal)%list) /\
  ends_in (get_layouts fuel w)
    (fun w' => sock_out w'
       = (sock_out w ++ message_buffer IPC_TYPE_GET_LAYOUTS 1 empty_literal)%list).
Proof.
  intros Hc Hf Hp. split.
  - intros t. split; reflexivity.
  - split; [| split]; apply query_ends; assumption.
Qed.

Lemma zero_argument_queries_declare_one_byte_witness :
  ends_in (get_tags 20 (fresh_world ok_reply [Chunk 0] [Chunk 2; Fail EINTR]))
    (fun w' => sock_out w'
       = (IPC_MAGIC_ARR ++ [x01; x00; x00; x00] ++ [x02] ++ [x00])%list).
Proof.
  assert (Hc : Forall write_benign [Chunk 2; Fail EINTR]) by (repeat constructor).
  assert (Hf : (13 + 2 < 20)%nat) by lia.
  assert (Hp : (pending (fresh_world ok_reply [Chunk 0] [Chunk 2; Fail EINTR]) < 20)%nat)
    by (vm_compute; lia).
  exact (proj1 (proj2 (proj2
    (zero_argument_queries_declare_one_byte 20
       (fresh_world ok_reply [Chunk 0] [Chunk 2; Fail EINTR]) Hc Hf Hp)))).
Defined.

(* ================================================================== *)
(** * Where the code departs from its contract                          *)
(* ================================================================== *)

(** C4, on the code.  The reply [ok] is read whole when nothing
    interrupts, when the interruption comes before the first byte, and
    when interruptions come inside the payload.  Interrupted after five
    header bytes, [recv_message] returns -1, [read_socket] calls it
    again, and the new call starts a fresh header: the five bytes are
    lost, the remaining nine cannot make a header, and the process
    exits. *)
Theorem interrupted_header_read_loses_bytes :
  returned (read_socket 20 (fresh_world ok_reply [] []))
  = Some (1, 2, list_byte_of_string "ok") /\
  returned (read_socket 20 (fresh_world ok_reply [Fail EINTR; Chunk 4] []))
  = Some (1, 2, list_byte_of_string "ok") /\
  returned (read_socket 20 (fresh_world ok_reply
                              [Chunk 11; Fail EINTR; Chunk 0; Fail EAGAIN] []))
  = Some (1, 2, list_byte_of_string "ok") /\
  read_socket 20 (fresh_world ok_reply [Chunk 4; Fail EINTR] [])
  = Exits EXIT_FAILURE
      (mk_world [] [] [] [] EINTR false [] ""
         [Warnx eof_header;
          Warnx "Read 9 bytes, expected 12 total bytes.";
          Err receiving_failed EINTR]).
Proof. repeat split; vm_compute; reflexivity. Qed.

(** C6 as the spec words it fails on the messages read: [subscribe]
    itself sends the subscribe document and reads one reply, but [main]
    then runs the body of its [do ... while (monitor)] loop once also
    without [-m], so a one-shot subscribe is not done after that reply:
    it reads a second message, here the event [evt], and when the server
    sends nothing more after its reply the process ends in
    [EXIT_FAILURE] instead of returning. *)
Theorem one_shot_subscribe_reads_a_second_message :
  (forall event, gen_buf (subscribe_gen event) = subscribe_text event) /\
  subscribe_text "tag_change_event"
  = dq "{'event':'tag_change_event','action':'subscribe'}" /\
  subscribe 20 "tag_change_event" (fresh_world (ok_reply ++ evt_event) [] [])
  = Returns 0
      (mk_world evt_event [] []
         (message_buffer IPC_TYPE_SUBSCRIBE 49
            (list_byte_of_string (subscribe_text "tag_change_event")))
         ENONE false [] ("ok" ++ newline) []) /\
  main 20 IPC_TYPE_SUBSCRIBE false ["tag_change_event"]
       (fresh_world (ok_reply ++ evt_event) [] [])
  = Returns 0
      (mk_world [] [] []
         (message_buffer IPC_TYPE_SUBSCRIBE 49
            (list_byte_of_string (subscribe_text "tag_change_event")))
         ENONE false [] ("ok" ++ newline ++ "evt" ++ newline) []) /\
  exit_status (main 20 IPC_TYPE_SUBSCRIBE false ["tag_change_event"]
                    (fresh_world ok_reply [] []))
  = Some EXIT_FAILURE.
Proof.
  split; [exact subscribe_gen_text |].
  repeat split; vm_compute; reflexivity.
Qed.

(** C7, on the code.  [write_socket] returns -1 when a write fails with
    [EPIPE]; [send_message] drops that value and returns 0, and
    [get_monitors] goes on to read and print a reply, returning 0 with
    nothing sent and nothing reported. *)
Theorem write_failure_is_dropped :
  returned (write_socket 20 (message_buffer IPC_TYPE_GET_MONITORS 1 empty_literal)
                         (fresh_world ok_reply [] [Fail EPIPE]))
  = Some (-1) /\
  returned (send_message 20 IPC_TYPE_GET_MONITORS 1 empty_literal
                         (fresh_world ok_reply [] [Fail EPIPE]))
  = Some 0 /\
  get_monitors 20 (fresh_world ok_reply [] [Fail EPIPE])
  = Returns 0 (mk_world [] [] [] [] EPIPE false [] ("ok" ++ newline) []).
Proof. repeat split; vm_compute; reflexivity. Qed.

(* ================================================================== *)
(** * What the three scans accept                                       *)
(* ================================================================== *)

Lemma isdigit_minus : isdigit "-" = false.
Proof. reflexivity. Qed.

Lemma isdigit_dot : isdigit "." = false.
Proof. reflexivity. Qed.

Lemma signed_from_succ (s : string) : forall i,
  is_signed_int_from (S i) s = is_unsigned_int s.
Proof.
  induction s as [|c s IH]; intros i; cbn [is_signed_int_from is_unsigned_int];
    [reflexivity |].
  destruct (isdigit c); [apply IH | reflexivity].
Qed.

(** Past the decimal point, and past index 0, the float scan takes
    digits only. *)
Lemma float_after_dot (s : string) : forall len i m,
  is_float_from len (S i) true m s = is_unsigned_int s.
Proof.
  induction s as [|c s IH]; intros len i m;
    cbn [is_float_from is_unsigned_int]; [reflexivity |].
  destruct (isdigit c); [apply IH |].
  change (Nat.eqb (S i) 0) with false.
  cbn [negb andb]. rewrite !andb_false_r. reflexivity.
Qed.

(** Before the point and past index 0: digits, then possibly a point
    with at least one digit behind it. *)
Lemma float_before_dot (s : string) : forall len i m,
  len = (S i + String.length s)%nat ->
  is_float_from len (S i) false m s = true <->
  (is_unsigned_int s = true \/
   exists a c d, s = a ++ "." ++ String c d /\
                 is_unsigned_int a = true /\
                 is_unsigned_int (String c d) = true).
Proof.
  induction s as [|x s IH]; intros len i m Hlen.
  - cbn. split; [now left | reflexivity].
  - cbn [is_float_from is_unsigned_int]. destruct (isdigit x) eqn:Dx.
    + cbn [String.length] in Hlen.
      rewrite (IH len (S i) m) by lia. split.
      * intros [Hu | (a & c & d & -> & Ha & Hd)]; [now left | right].
        exists (String x a), c, d. cbn [append is_unsigned_int].
        rewrite Dx. auto.
      * intros [Hu | (a & c & d & Hs & Ha & Hd)]; [now left | right].
        destruct a as [|y a]; cbn [append] in Hs; injection Hs as -> ->.
        -- rewrite isdigit_dot in Dx. discriminate.
        -- cbn [is_unsigned_int] in Ha. rewrite Dx in Ha.
           exists a, c, d. auto.
    + change (Nat.eqb (S i) 0) with false.
      cbn [negb andb]. rewrite andb_false_r, andb_true_r.
      destruct (Ascii.eqb_spec x ".") as [-> | Hx].
      * cbn [andb]. cbn [String.length] in Hlen.
        destruct s as [|c d].
        -- replace (Nat.eqb (S i) (len - 1)) with true
             by (symmetry; apply Nat.eqb_eq; cbn [String.length] in Hlen; lia).
           cbn. split; [discriminate |].
           intros [Hu | (a & c & d & Hs & Ha & Hd)]; [discriminate |].
           destruct a as [|y a]; cbn [append] in Hs; [discriminate |].
           injection Hs as <- Hs. destruct a; discriminate.
        -- replace (Nat.eqb (S i) (len - 1)) with false
             by (symmetry; apply Nat.eqb_neq; cbn [String.length] in Hlen; lia).
           cbn [negb]. rewrite float_after_dot. split.
           ++ intros Hu. right. exists "", c, d. auto.
           ++ intros [Hu | (a & c' & d' & Hs & Ha & Hd)]; [discriminate |].
              destruct a as [|y a]; cbn [append] in Hs.
              ** injection Hs as <- <-. exact Hd.
              ** injection Hs as <- Hs. cbn [is_unsigned_int] in Ha.
                 rewrite isdigit_dot in Ha. discriminate.
      * cbn [andb]. split; [discriminate |].
        intros [Hu | (a & c & d & Hs & Ha & Hd)]; [discriminate |].
        destruct a as [|y a]; cbn [append] in Hs; injection Hs as -> Hs.
        -- contradiction.
        -- cbn [is_unsigned_int] in Ha. rewrite Dx in Ha. discriminate.
Qed.

(** X1.  [is_signed_int] accepts exactly the digit runs, empty or not,
    and the digit runs behind one minus sign; nothing in it asks for a
    digit. *)
Theorem signed_int_grammar (s : string) :
  is_signed_int s = true <->
  (is_unsigned_int s = true \/
   exists r, s = String "-" r /\ is_unsigned_int r = true).
Proof.
  unfold is_signed_int. destruct s as [|c s].
  - cbn. split; [now left | reflexivity].
  - cbn [is_signed_int_from is_unsigned_int]. rewrite signed_from_succ.
    destruct (isdigit c) eqn:Dc.
    + split; [now left |].
      intros [Hu | (r & Hs & Hr)]; [exact Hu |].
      injection Hs as -> ->. rewrite isdigit_minus in Dc. discriminate.
    + cbn [Nat.eqb andb]. destruct (Ascii.eqb_spec c "-") as [-> | Hc].
      * split; [intros Hu; right; exists s; auto |].
        intros [Hu | (r & Hs & Hr)]; [discriminate |].
        injection Hs as ->. exact Hr.
      * split; [discriminate |].
        intros [Hu | (r & Hs & Hr)]; [discriminate |].
        injection Hs as -> _. contradiction.
Qed.

(** X2.  [is_float] accepts exactly: an optional minus sign, a digit
    run, and then either nothing or a point followed by at least one
    digit, the point not being the first character of the string.  So
    the empty string and a lone minus sign are accepted, [-.5] is, and
    [.5], [5.] and [-.] are not. *)
Theorem float_grammar (s : string) :
  is_float s = true <->
  exists sign a b,
    s = sign ++ a ++ b /\ (sign = "" \/ sign = "-") /\
    is_unsigned_int a = true /\
    (b = "" \/
     exists c d, b = "." ++ String c d /\
                 is_unsigned_int (String c d) = true /\
                 (sign = "" -> a <> "")).
Proof.
  unfold is_float. destruct s as [|x s].
  - cbn. split; [| reflexivity].
    intros _. exists "", "", "". cbn. auto.
  - cbn [is_float_from]. destruct (isdigit x) eqn:Dx.
    + rewrite (float_before_dot s _ 0 false) by reflexivity. split.
      * intros [Hu | (a & c & d & -> & Ha & Hd)].
        -- exists "", (String x s), "". rewrite append_nil_r. cbn [append is_unsigned_int].
           rewrite Dx. auto.
        -- exists "", (String x a), ("." ++ String c d).
           cbn [append is_unsigned_int]. rewrite Dx.
           repeat split; auto. right. exists c, d. repeat split; auto.
           discriminate.
      * intros (sign & a & b & Hs & [-> | ->] & Ha & Hb).
        -- cbn [append] in Hs. destruct a as [|y a].
           ++ cbn [append] in Hs. destruct Hb as [-> | (c & d & -> & Hd & Hne)];
                [discriminate | now destruct Hne].
           ++ cbn [append] in Hs. injection Hs as <- ->.
              cbn [is_unsigned_int] in Ha. rewrite Dx in Ha.
              destruct Hb as [-> | (c & d & -> & Hd & _)].
              ** left. now rewrite append_nil_r.
              ** right. exists a, c, d. auto.
        -- cbn [append] in Hs. injection Hs as -> _.
           rewrite isdigit_minus in Dx. discriminate.
    + cbn [negb andb Nat.eqb]. rewrite andb_false_r. cbn [andb].
      rewrite andb_true_r.
      destruct (Ascii.eqb_spec x "-") as [-> | Hx].
      * rewrite (float_before_dot s _ 0 true) by reflexivity. split.
        -- intros [Hu | (a & c & d & -> & Ha & Hd)].
           ++ exists "-", s, "". rewrite append_nil_r. auto.
           ++ exists "-", a, ("." ++ String c d). repeat split; auto.
              right. exists c, d. repeat split; auto. discriminate.
        -- intros (sign & a & b & Hs & [-> | ->] & Ha & Hb).
           ++ cbn [append] in Hs. destruct a as [|y a].
              ** cbn [append] in Hs.
                 destruct Hb as [-> | (c & d & -> & Hd & Hne)];
                   [discriminate | now destruct Hne].
              ** cbn [append] in Hs. injection Hs as <- _.
                 cbn [is_unsigned_int] in Ha. rewrite isdigit_minus in Ha.
                 discriminate.
           ++ cbn [append] in Hs. injection Hs as ->.
              destruct Hb as [-> | (c & d & -> & Hd & _)].
              ** left. now rewrite append_nil_r.
              ** right. exists a, c, d. auto.
      * split; [discriminate |].
        intros (sign & a & b & Hs & [-> | ->] & Ha & Hb).
        -- cbn [append] in Hs. destruct a as [|y a].
           ++ cbn [append] in Hs.
              destruct Hb as [-> | (c & d & -> & Hd & Hne)];
                [discriminate | now destruct Hne].
           ++ cbn [append] in Hs. injection Hs as <- _.
              cbn [is_unsigned_int] in Ha. rewrite Dx in Ha. discriminate.
        -- cbn [append] in Hs. injection Hs as -> _. contradiction.
Qed.

Lemma unsigned_is_float (s : string) : forall len i d m,
  is_unsigned_int s = true -> is_float_from len i d m s = true.
Proof.
  induction s as [|c s IH]; intros len i d m H;
    cbn [is_float_from is_unsigned_int] in *; [reflexivity |].
  destruct (isdigit c); [apply IH; exact H | discriminate].
Qed.

(** X3.  The scans are nested: what [is_unsigned_int] accepts,
    [is_signed_int] accepts, and what [is_signed_int] accepts,
    [is_float] accepts.  The float branch of run_command is therefore
    reached only by strings the integer scan refused, and swapping the
    two tests would send every integer as a float. *)
Theorem scans_are_nested (s : string) :
  implb (is_unsigned_int s) (is_signed_int s) = true /\
  implb (is_signed_int s) (is_float s) = true.
Proof.
  split.
  - destruct (is_unsigned_int s) eqn:E; [| reflexivity].
    cbn. now apply unsigned_is_signed.
  - destruct (is_signed_int s) eqn:E; [| reflexivity]. cbn.
    unfold is_signed_int, is_float in *. destruct s as [|c s]; [reflexivity |].
    cbn [is_signed_int_from is_float_from] in *. rewrite signed_from_succ in E.
    destruct (isdigit c).
    + now apply unsigned_is_float.
    + cbn [negb andb Nat.eqb] in *. rewrite andb_false_r. cbn [andb].
      rewrite andb_true_r.
      destruct (Ascii.eqb c "-"); [now apply unsigned_is_float | discriminate].
Qed.

(* ================================================================== *)
(** * What [read_socket] hands back                                     *)
(* ================================================================== *)

Lemma deliver_any (avail : nat) (count : Z) (w : world)
                  (n : Z) (data : list byte) (w1 : world) :
  deliver avail count w = (n, data, w1) ->
  heap w1 = heap w /\
  n = Z.of_nat (List.length data) /\
  (List.length data <= Z.to_nat count)%nat /\
  sock_in w = (data ++ sock_in w1)%list.
Proof.
  unfold deliver.
  remember (Nat.min avail (Nat.min (Z.to_nat count) (List.length (sock_in w)))) as k.
  assert (Hk : (k <= Z.to_nat count /\ k <= List.length (sock_in w))%nat) by lia.
  clear Heqk. intros H. injection H as <- <- <-. fields.
  rewrite length_firstn, firstn_skipn.
  split; [reflexivity |]. split; [lia |]. split; [lia | reflexivity].
Qed.

(** One [read], whatever the schedule: it fails and consumes nothing, or
    it moves the first bytes of the stream, no more than asked for. *)
Lemma read_any (count : Z) (w : world) (n : Z) (data : list byte) (w1 : world) :
  read count w = (n, data, w1) ->
  heap w1 = heap w /\
  ((n = -1 /\ data = [] /\ sock_in w1 = sock_in w) \/
   (n = Z.of_nat (List.length data) /\
    (List.length data <= Z.to_nat count)%nat /\
    sock_in w = (data ++ sock_in w1)%list)).
Proof.
  unfold read.
  destruct (read_sched w) as [|[k|e] s]; intros H.
  - apply deliver_any in H. destruct H as (A & B & C & D). auto.
  - apply deliver_any in H. fields in H. destruct H as (A & B & C & D). auto.
  - injection H as <- <- <-. split; [reflexivity |]. left. auto.
Qed.

Lemma read_header_inv (fuel : nat) : forall h w r w',
  read_header fuel h w = Returns r w' ->
  heap w' = heap w /\
  exists c, sock_in w = (c ++ sock_in w')%list /\
    forall header, r = inl header ->
      header = (h ++ c)%list /\
      ((List.length h <= 12)%nat -> List.length header = 12%nat).
Proof.
  induction fuel as [|fuel IH]; intros h w r w' H; [discriminate |].
  rewrite read_header_step in H. cbv zeta in H. unfold to_read in H.
  destruct (Z.of_nat (List.length h) <? 12) eqn:E.
  2:{ apply Z.ltb_ge in E. injection H as <- <-.
      split; [reflexivity |]. exists []. split; [reflexivity |].
      intros header Hh. injection Hh as <-. rewrite app_nil_r.
      split; [reflexivity | lia]. }
  apply Z.ltb_lt in E.
  destruct (read (12 - Z.of_nat (List.length h)) w) as [[n data] w1] eqn:R.
  destruct (read_any _ _ _ _ _ R) as [Hh Hcase].
  destruct (n =? 0) eqn:E0.
  - apply Z.eqb_eq in E0. subst n.
    assert (Hc : exists c, sock_in w = (c ++ sock_in w1)%list).
    { destruct Hcase as [(? & _) | (_ & _ & Hs)]; [lia | eauto]. }
    destruct Hc as (c & Hc).
    destruct (Z.of_nat (List.length h) =? 0); injection H as <- <-;
      (split; [exact Hh |]); exists c; (split; [exact Hc | discriminate]).
  - destruct (n =? -1) eqn:E1.
    + injection H as <- <-. split; [exact Hh |].
      destruct Hcase as [(_ & _ & Hs) | (_ & _ & Hs)].
      * exists []. split; [now rewrite Hs | discriminate].
      * exists data. split; [exact Hs | discriminate].
    + apply Z.eqb_neq in E1.
      destruct Hcase as [(? & _) | (Hn & Hl & Hs)]; [contradiction |].
      destruct (IH _ _ _ _ H) as (Hh' & c & Hc & Hhdr).
      split; [congruence |].
      exists (data ++ c)%list. split; [rewrite <- app_assoc, <- Hc; exact Hs |].
      intros header Hr. destruct (Hhdr header Hr) as [-> Hlen].
      split; [now rewrite app_assoc |].
      intros Hle. apply Hlen. rewrite length_app. lia.
Qed.

Lemma read_payload_inv (fuel : nat) : forall n p w r w',
  read_payload fuel n p w = Returns r w' ->
  exists c, sock_in w = (c ++ sock_in w')%list /\
    (forall reply, r = inl reply ->
       heap w' = heap w /\ reply = (p ++ c)%list /\
       (Z.of_nat (List.length p) <= n -> Z.of_nat (List.length reply) = n)) /\
    (forall code, r = inr code -> heap w' = tl (heap w)).
Proof.
  induction fuel as [|fuel IH]; intros n p w r w' H; [discriminate |].
  rewrite read_payload_step in H. cbv zeta in H.
  destruct (Z.of_nat (List.length p) <? n) eqn:E.
  2:{ apply Z.ltb_ge in E. injection H as <- <-.
      exists []. split; [reflexivity |]. split; [| discriminate].
      intros reply Hr. injection Hr as <-. rewrite app_nil_r.
      repeat split. lia. }
  apply Z.ltb_lt in E.
  destruct (read (n - Z.of_nat (List.length p)) w) as [[m data] w1] eqn:R.
  destruct (read_any _ _ _ _ _ R) as [Hh Hcase].
  destruct (m =? 0) eqn:E0.
  - apply Z.eqb_eq in E0. subst m. injection H as <- <-.
    destruct Hcase as [(? & _) | (_ & _ & Hs)]; [lia |].
    exists data. split; [exact Hs |]. split; [discriminate |].
    intros code _. fields. now rewrite Hh.
  - destruct (m =? -1) eqn:E1.
    + destruct Hcase as [(_ & _ & Hs) | (Hm & _)];
        [| apply Z.eqb_eq in E1; lia].
      destruct (transient_read (errno w1)).
      * destruct (IH _ _ _ _ _ H) as (c & Hc & Hok & Herr).
        exists c. split; [congruence |]. split.
        -- intros reply Hr. destruct (Hok reply Hr) as (A & B & C).
           repeat split; [congruence | exact B | exact C].
        -- intros code Hr. rewrite (Herr code Hr). now rewrite Hh.
      * injection H as <- <-. exists [].
        split; [fields; cbn [app]; congruence |].
        split; [discriminate |]. intros code _. fields. now rewrite Hh.
    + destruct Hcase as [(? & _) | (Hm & Hl & Hs)];
        [apply Z.eqb_neq in E1; contradiction |].
      destruct (IH _ _ _ _ _ H) as (c & Hc & Hok & Herr).
      exists (data ++ c)%list.
      split; [rewrite <- app_assoc, <- Hc; exact Hs |]. split.
      * intros reply Hr. destruct (Hok reply Hr) as (A & B & C).
        split; [congruence |]. split; [now rewrite app_assoc |].
        intros _. apply C. rewrite length_app. lia.
      * intros code Hr. rewrite (Herr code Hr). now rewrite Hh.
Qed.

Lemma Z_of_byte_range (b : byte) : 0 <= Z_of_byte b < 256.
Proof.
  unfold Z_of_byte. pose proof (Byte.to_N_bounded b). lia.
Qed.

Lemma u32_of_bytes_range (l : list byte) : 0 <= u32_of_bytes l < 2 ^ 32.
Proof.
  unfold u32_of_bytes.
  assert (G : forall k : list byte,
            0 <= fold_right (fun b acc => Z_of_byte b + 256 * acc) 0 k
              < 256 ^ Z.of_nat (List.length k)).
  { induction k as [|b k IH]; [cbn; lia |].
    cbn [fold_right List.length]. rewrite Nat2Z.inj_succ, Z.pow_succ_r by lia.
    pose proof (Z_of_byte_range b). lia. }
  specialize (G (firstn 4 l)).
  assert (L : (List.length (firstn 4 l) <= 4)%nat) by apply firstn_le_length.
  assert (P : 256 ^ Z.of_nat (List.length (firstn 4 l)) <= 256 ^ 4)
    by (apply Z.pow_le_mono_r; lia).
  change (2 ^ 32) with (256 ^ 4). lia.
Qed.

Lemma recv_message_inv (fuel : nat) (w : world) (r : recv_result) (w' : world) :
  recv_message fuel w = Returns r w' ->
  exists c, sock_in w = (c ++ sock_in w')%list /\
    match r with
    | RecvOk t n msg =>
        heap w' = n :: heap w /\ Z.of_nat (List.length msg) = n /\
        0 <= t < 256 /\ 0 <= n < 2 ^ 32 /\
        (12 + List.length msg <= List.length c)%nat
    | RecvErr _ => heap w' = heap w
    end.
Proof.
  unfold recv_message. intros H.
  destruct (read_header fuel [] w) as [h w1 | |] eqn:Hh; cbn [bind] in H;
    try discriminate.
  destruct (read_header_inv _ _ _ _ _ Hh) as (Hheap1 & c1 & Hc1 & Hhdr).
  destruct h as [header | code].
  2:{ injection H as <- <-. exists c1. split; [exact Hc1 | exact Hheap1]. }
  destruct (Hhdr header eq_refl) as [Hheader Hlen]. cbn [app] in Hheader.
  specialize (Hlen (Nat.le_0_l _)).
  destruct (negb (bytes_eqb (firstn IPC_MAGIC_LEN header) IPC_MAGIC_ARR)).
  { injection H as <- <-. exists c1. split; [exact Hc1 | exact Hheap1]. }
  set (n := u32_of_bytes (skipn IPC_MAGIC_LEN header)) in *.
  destruct (read_payload fuel n [] (malloc n w1)) as [p w3 | |] eqn:Hp;
    cbn [bind] in H; try discriminate.
  destruct (read_payload_inv _ _ _ _ _ _ Hp) as (c2 & Hc2 & Hok & Herr).
  fields in Hc2.
  pose proof (u32_of_bytes_range (skipn IPC_MAGIC_LEN header)) as Hn. fold n in Hn.
  destruct p as [reply | code]; injection H as <- <-.
  - destruct (Hok reply eq_refl) as (Hheap3 & Hreply & Hsize).
    cbn [app] in Hreply. fields in Hheap3.
    exists (c1 ++ c2)%list. split; [rewrite <- app_assoc, <- Hc2; exact Hc1 |].
    split; [congruence |].
    split; [apply Hsize; cbn [List.length]; lia |].
    split; [apply Z_of_byte_range |]. split; [exact Hn |].
    rewrite length_app. subst. lia.
  - exists (c1 ++ c2)%list. split; [rewrite <- app_assoc, <- Hc2; exact Hc1 |].
    rewrite (Herr code eq_refl). fields. exact Hheap1.
Qed.

Lemma read_socket_inv (fuel : nat) : forall w,
  (pending w < fuel)%nat ->
  match read_socket fuel w with
  | Returns (t, n, msg) w' =>
      heap w' = n :: heap w /\ Z.of_nat (List.length msg) = n /\
      0 <= t < 256 /\ 0 <= n < 2 ^ 32 /\
      (List.length (sock_in w') + 12 + List.length msg
       <= List.length (sock_in w))%nat
  | Exits status w' => status = EXIT_FAILURE /\ heap w' = heap w
  | OutOfFuel => False
  end.
Proof.
  induction fuel as [|fuel IH]; intros w Hf; [lia |].
  cbn [read_socket].
  destruct (recv_message_total (S fuel) w Hf) as (r & w1 & Hr & _ & Hp & Hm).
  rewrite Hr. cbn [bind].
  destruct (recv_message_inv _ _ _ _ Hr) as (c & Hc & Hinv).
  destruct r as [t n msg | code].
  - destruct Hinv as (A & B & C & D & E).
    repeat split; try assumption; try lia.
    rewrite Hc, length_app. lia.
  - destruct ((code =? -1) && transient_read (errno w1)) eqn:Ec.
    + apply andb_true_iff in Ec as [Ec _]. apply Z.eqb_eq in Ec. subst code.
      specialize (Hm eq_refl).
      assert (Hf1 : (pending w1 < fuel)%nat) by lia.
      specialize (IH w1 Hf1).
      destruct (read_socket fuel w1) as [[[t n] msg] w2 | st w2 |];
        [| | exact IH].
      * destruct IH as (A & B & C & D & E).
        repeat split; try assumption; try congruence; try lia.
        rewrite Hc, length_app. lia.
      * destruct IH as [A B]. split; congruence.
    + unfold err. split; [reflexivity | exact Hinv].
Qed.

(* ================================================================== *)
(** * One message after another                                         *)
(* ================================================================== *)

(** The payload loop under a schedule of chunks; [errno] stays. *)
Lemma read_payload_chunks (fuel : nat) : forall p0 w p1 rest n,
  Forall is_chunk (read_sched w) ->
  sock_in w = (p1 ++ rest)%list ->
  n = Z.of_nat (List.length p0 + List.length p1) ->
  (List.length p1 < fuel)%nat ->
  exists w',
    read_payload fuel n p0 w = Returns (inl (p0 ++ p1)%list) w' /\
    sock_in w' = rest /\ Forall is_chunk (read_sched w') /\
    (List.length (read_sched w') <= List.length (read_sched w))%nat /\
    only_input_moved w w'.
Proof.
  induction fuel as [|fuel IH]; intros p0 w p1 rest n Hc Hin Hn Hf; [lia |].
  rewrite read_payload_step. cbv zeta.
  destruct (Z.of_nat (List.length p0) <? n) eqn:E.
  2:{ apply Z.ltb_ge in E. assert (List.length p1 = O) by lia.
      destruct p1; [| discriminate].
      exists w. rewrite app_nil_r. repeat split; auto.
      apply only_input_moved_refl. }
  apply Z.ltb_lt in E.
  destruct (read (n - Z.of_nat (List.length p0)) w) as [[m data] w1] eqn:R.
  destruct (read_chunk _ _ _ _ _ Hc R)
    as (k & -> & Hk1 & Hk2 & Hk0 & -> & Hin1 & Hc1 & Hl1 & Hm1).
  rewrite Hin in *.
  assert (Hk : k <> O).
  { intros ->. destruct (Hk0 eq_refl) as [Hnil | Hcnt]; [| lia].
    destruct p1; [cbn [List.length] in *; lia | discriminate]. }
  assert (Hkl : (k <= List.length p1)%nat) by lia.
  destruct (Z.of_nat k =? 0) eqn:E0; [apply Z.eqb_eq in E0; lia |].
  destruct (Z.of_nat k =? -1) eqn:E1; [apply Z.eqb_eq in E1; lia |].
  rewrite firstn_app_le by exact Hkl.
  rewrite skipn_app_le in Hin1 by exact Hkl.
  destruct (IH (p0 ++ firstn k p1)%list w1 (skipn k p1) rest n Hc1 Hin1)
    as (w' & Hr & Hin' & Hc' & Hl' & Hm').
  - rewrite length_app, length_firstn, length_skipn. lia.
  - rewrite length_skipn. lia.
  - exists w'. rewrite Hr, <- app_assoc, firstn_skipn.
    repeat split; auto; [lia |].
    exact (only_input_moved_trans _ _ _ Hm1 Hm').
Qed.

(** [read_socket] on a stream that starts with a whole message, under a
    schedule of chunks: the message, the block that holds it, and the
    rest of the stream left for the next call. *)
Lemma read_socket_chunks (fuel : nat) (w : world) (c n : Z)
                         (payload rest : list byte) :
  Forall is_chunk (read_sched w) ->
  sock_in w = (header_bytes c n ++ payload ++ rest)%list ->
  n = Z.of_nat (List.length payload) -> n < 2 ^ 32 ->
  (12 + List.length payload < fuel)%nat ->
  exists sched,
    read_socket fuel w
    = Returns (c mod 256, n, payload)
              (set_heap (n :: heap w) (set_read_sched sched (set_sock_in rest w))) /\
    Forall is_chunk sched /\
    (List.length sched <= List.length (read_sched w))%nat.
Proof.
  intros Hc Hin Hn Hlt Hf.
  destruct (read_header_ok fuel [] w (header_bytes c n) (payload ++ rest)%list Hc Hin)
    as (wh & Hr & Hinh & Hch & Hlh & Hmh);
    [reflexivity | rewrite header_length; lia |].
  cbn [app] in Hr.
  assert (Hcm : Forall is_chunk (read_sched (malloc n wh))) by exact Hch.
  destruct (read_payload_chunks fuel [] (malloc n wh) payload rest n Hcm)
    as (wp & Hrp & Hinp & Hcp & Hlp & Hmp);
    [exact Hinh | cbn [List.length]; lia | lia |].
  cbn [app] in Hrp. fields in Hlp.
  exists (read_sched wp).
  split; [| split; [exact Hcp | lia]].
  destruct fuel as [|fuel]; [lia |].
  cbn [read_socket]. unfold recv_message. rewrite Hr. cbn [bind].
  rewrite header_magic. cbn [negb].
  rewrite header_size, header_type by lia.
  rewrite Hrp. cbn [bind]. f_equal.
  clear - Hmh Hmp Hinp.
  destruct w, wh, wp.
  unfold only_input_moved, malloc, set_heap, set_read_sched, set_sock_in in *.
  cbn in *. congruence.
Qed.

(** The text [printf] takes from a block whose size is the one passed:
    with the precision or without it, the block up to its first NUL. *)
Lemma printf_text_whole (l : list byte) :
  Z.of_nat (List.length l) < 2 ^ 32 ->
  (if int_of_uint32 (Z.of_nat (List.length l)) <? 0 then c_string l
   else c_string (firstn (Z.to_nat (int_of_uint32 (Z.of_nat (List.length l)))) l))
  = c_string l.
Proof.
  intros Hl. unfold int_of_uint32.
  destruct (Z.of_nat (List.length l) <? 2 ^ 31) eqn:E.
  - replace (Z.of_nat (List.length l) <? 0) with false
      by (symmetry; apply Z.ltb_ge; lia).
    now rewrite Nat2Z.id, firstn_all.
  - replace (Z.of_nat (List.length l) - 2 ^ 32 <? 0) with true
      by (symmetry; apply Z.ltb_lt; lia).
    reflexivity.
Qed.

Lemma print_socket_reply_chunks (fuel : nat) (w : world) (c n : Z)
                                (payload rest : list byte) :
  Forall is_chunk (read_sched w) ->
  sock_in w = (header_bytes c n ++ payload ++ rest)%list ->
  n = Z.of_nat (List.length payload) -> n < 2 ^ 32 ->
  (12 + List.length payload < fuel)%nat ->
  exists sched,
    print_socket_reply fuel w
    = Returns tt (after_reply rest sched
                    (stdout w ++ c_string payload ++ newline) w) /\
    Forall is_chunk sched /\
    (List.length sched <= List.length (read_sched w))%nat.
Proof.
  intros Hc Hin Hn Hlt Hf.
  destruct (read_socket_chunks fuel w c n payload rest Hc Hin Hn Hlt Hf)
    as (sched & Hr & Hcs & Hls).
  exists sched. split; [| split; assumption].
  unfold print_socket_reply. rewrite Hr. cbn [bind]. f_equal.
  unfold printf_reply, after_reply. subst n. cbv zeta.
  rewrite (printf_text_whole payload Hlt). reflexivity.
Qed.

Lemma flush_socket_reply_chunks (fuel : nat) (w : world) (c n : Z)
                                (payload rest : list byte) :
  Forall is_chunk (read_sched w) ->
  sock_in w = (header_bytes c n ++ payload ++ rest)%list ->
  n = Z.of_nat (List.length payload) -> n < 2 ^ 32 ->
  (12 + List.length payload < fuel)%nat ->
  exists sched,
    flush_socket_reply fuel w
    = Returns tt (after_reply rest sched (stdout w) w) /\
    Forall is_chunk sched /\
    (List.length sched <= List.length (read_sched w))%nat.
Proof.
  intros Hc Hin Hn Hlt Hf.
  destruct (read_socket_chunks fuel w c n payload rest Hc Hin Hn Hlt Hf)
    as (sched & Hr & Hcs & Hls).
  exists sched. split; [| split; assumption].
  unfold flush_socket_reply. rewrite Hr. cbn [bind]. reflexivity.
Qed.

(* ================================================================== *)
(** * Progress of the read side                                         *)
(* ================================================================== *)

Lemma read_header_mono (fuel : nat) : forall h w r w',
  read_header fuel h w = Returns r w' -> (pending w' <= pending w)%nat.
Proof.
  induction fuel as [|fuel IH]; intros h w r w' H; [discriminate |].
  rewrite read_header_step in H. cbv zeta in H.
  destruct (Z.of_nat (List.length h) <? to_read); [| injection H as <- <-; lia].
  destruct (read (to_read - Z.of_nat (List.length h)) w) as [[n data] w1] eqn:R.
  destruct (read_frame _ _ _ _ _ R) as [_ Hp].
  destruct (n =? 0).
  - destruct (Z.of_nat (List.length h) =? 0); injection H as <- <-;
      rewrite !warnx_pending; lia.
  - destruct (n =? -1); [injection H as <- <-; lia |].
    apply IH in H. lia.
Qed.

Lemma read_payload_mono (fuel : nat) : forall n p w r w',
  read_payload fuel n p w = Returns r w' -> (pending w' <= pending w)%nat.
Proof.
  induction fuel as [|fuel IH]; intros n p w r w' H; [discriminate |].
  rewrite read_payload_step in H. cbv zeta in H.
  destruct (Z.of_nat (List.length p) <? n); [| injection H as <- <-; lia].
  destruct (read (n - Z.of_nat (List.length p)) w) as [[m data] w1] eqn:R.
  destruct (read_frame _ _ _ _ _ R) as [_ Hp].
  destruct (m =? 0).
  - injection H as <- <-. rewrite free_pending, !warnx_pending. lia.
  - destruct (m =? -1).
    + destruct (transient_read (errno w1)).
      * apply IH in H. lia.
      * injection H as <- <-. rewrite free_pending. lia.
    + apply IH in H. lia.
Qed.

(** A header completed from fewer than twelve bytes took input. *)
Lemma read_header_progress (fuel : nat) : forall h w header w',
  read_header fuel h w = Returns (inl header) w' ->
  (List.length h < 12)%nat -> (pending w' < pending w)%nat.
Proof.
  induction fuel as [|fuel IH]; intros h w header w' H Hh; [discriminate |].
  rewrite read_header_step in H. cbv zeta in H. unfold to_read in H.
  destruct (Z.of_nat (List.length h) <? 12) eqn:E;
    [| apply Z.ltb_ge in E; lia].
  destruct (read (12 - Z.of_nat (List.length h)) w) as [[n data] w1] eqn:R.
  destruct (read_frame _ _ _ _ _ R) as [_ Hp].
  destruct (n =? 0) eqn:E0.
  - destruct (Z.of_nat (List.length h) =? 0); discriminate.
  - apply Z.eqb_neq in E0.
    destruct (n =? -1); [discriminate |].
    apply read_header_mono in H. lia.
Qed.

Lemma recv_message_progress (fuel : nat) (w : world) (r : recv_result) (w' : world) :
  recv_message fuel w = Returns r w' ->
  (pending w' <= pending w)%nat /\
  (forall t n msg, r = RecvOk t n msg -> (pending w' < pending w)%nat).
Proof.
  unfold recv_message. intros H.
  destruct (read_header fuel [] w) as [h w1 | |] eqn:Hh; cbn [bind] in H;
    try discriminate.
  pose proof (read_header_mono _ _ _ _ _ Hh) as Hm.
  destruct h as [header | code].
  2:{ injection H as <- <-. split; [exact Hm | discriminate]. }
  pose proof (read_header_progress _ _ _ _ _ Hh) as Hs.
  cbn [List.length] in Hs. specialize (Hs ltac:(lia)).
  destruct (negb (bytes_eqb (firstn IPC_MAGIC_LEN header) IPC_MAGIC_ARR)).
  { injection H as <- <-. rewrite warnx_pending. split; [lia | discriminate]. }
  destruct (read_payload fuel _ [] (malloc _ w1)) as [p w3 | |] eqn:Hp;
    cbn [bind] in H; try discriminate.
  apply read_payload_mono in Hp. rewrite malloc_pending in Hp.
  destruct p; injection H as <- <-; (split; [lia | intros; lia]).
Qed.

Lemma read_socket_progress (fuel : nat) : forall w r w',
  read_socket fuel w = Returns r w' -> (pending w' < pending w)%nat.
Proof.
  induction fuel as [|fuel IH]; intros w r w' H; [discriminate |].
  cbn [read_socket] in H.
  destruct (recv_message (S fuel) w) as [r1 w1 | |] eqn:Hr; cbn [bind] in H;
    try discriminate.
  destruct (recv_message_progress _ _ _ _ Hr) as [Hle Hlt].
  destruct r1 as [t n msg | code].
  - injection H as <- <-. exact (Hlt t n msg eq_refl).
  - destruct ((code =? -1) && transient_read (errno w1)).
    + apply IH in H. lia.
    + discriminate.
Qed.

(** [read_socket] where the stream has ended, between two messages. *)
Lemma read_socket_at_end (fuel : nat) (w : world) :
  Forall is_chunk (read_sched w) -> sock_in w = [] ->
  exists w',
    read_socket (S fuel) w = Exits EXIT_FAILURE w' /\
    stdout w' = stdout w /\ heap w' = heap w /\ sock_out w' = sock_out w /\
    stderr w' = (stderr w ++ [Warnx eof_header;
                              Warnx (read_of_total 0 to_read);
                              Err receiving_failed (errno w)])%list /\
    sock_in w' = [] /\ ignore_reply w' = ignore_reply w /\
    write_sched w' = write_sched w.
Proof.
  intros Hc Hin.
  destruct (read_header_eof (S fuel) [] w Hc) as (w1 & Hr & Hin1 & Hm);
    [rewrite Hin; cbn; lia | rewrite Hin; cbn; lia |].
  cbv zeta in Hr. rewrite Hin in Hr. cbn [List.length Nat.add Z.of_nat Z.eqb] in Hr.
  destruct (input_moved_fields _ _ Hm) as (F1 & F2 & F3 & F4 & F5 & F6 & F7).
  eexists. split.
  - cbn [read_socket]. unfold recv_message. rewrite Hr. cbn [bind Z.eqb andb].
    unfold err. reflexivity.
  - fields. repeat split; try assumption.
    rewrite F7, F3, <- !app_assoc. reflexivity.
Qed.

(* ================================================================== *)
(** * Replies and events                                                *)
(* ================================================================== *)

(** X4.  With enough fuel for the input at hand, [read_socket] ends in
    one of two ways only.  It returns a message whose buffer holds
    exactly the declared number of bytes, a number below 2^32, with a
    type that fits a byte, with one more block on the heap (the reply
    its caller must free), and having consumed at least the twelve
    header bytes and the payload.  Or the process exits with
    [EXIT_FAILURE], and then no block is left allocated: every error
    path of [recv_message] frees what it allocated. *)
Theorem read_socket_message_or_exit (fuel : nat) (w : world) :
  (pending w < fuel)%nat ->
  match read_socket fuel w with
  | Returns (t, n, msg) w' =>
      heap w' = n :: heap w /\ Z.of_nat (List.length msg) = n /\
      0 <= t < 256 /\ 0 <= n < 2 ^ 32 /\
      (List.length (sock_in w') + 12 + List.length msg
       <= List.length (sock_in w))%nat
  | Exits status w' => status = EXIT_FAILURE /\ heap w' = heap w
  | OutOfFuel => False
  end.
Proof. apply read_socket_inv. Qed.

Lemma read_socket_message_or_exit_witness :
  match read_socket 40 (fresh_world (ok_reply ++ evt_event)
                                    [Fail EINTR; Chunk 2; Chunk 40] []) with
  | Returns (t, n, msg) w' =>
      heap w' = n :: [] /\ Z.of_nat (List.length msg) = n /\
      0 <= t < 256 /\ 0 <= n < 2 ^ 32 /\
      (List.length (sock_in w') + 12 + List.length msg
       <= List.length (ok_reply ++ evt_event))%nat
  | Exits status w' => status = EXIT_FAILURE /\ heap w' = []
  | OutOfFuel => False
  end.
Proof.
  apply (read_socket_message_or_exit 40
           (fresh_world (ok_reply ++ evt_event) [Fail EINTR; Chunk 2; Chunk 40] [])).
  vm_compute. lia.
Defined.

(** The loop at the end of [main] in monitor mode does not return: it
    ends by process exit, having sent nothing and leaving no reply block
    allocated. *)
Lemma listen_exits (fuel : nat) : forall w,
  (pending w < fuel)%nat ->
  exists w',
    listen fuel true w = Exits EXIT_FAILURE w' /\
    sock_out w' = sock_out w /\ heap w' = heap w.
Proof.
  induction fuel as [|fuel IH]; intros w Hf; [lia |].
  cbn [listen]. unfold print_socket_reply.
  pose proof (read_socket_inv (S fuel) w Hf) as Hinv.
  pose proof (read_socket_total (S fuel) w Hf) as Htot.
  destruct (read_socket (S fuel) w) as [[[t n] msg] w1 | st w1 |] eqn:Hr;
    cbn [bind ends_in] in *.
  - apply read_socket_progress in Hr.
    destruct Hinv as (Hh & _). destruct Htot as ((Ho & _) & _).
    destruct (IH (free (printf_reply n msg w1))) as (w' & Hl & Ho' & Hh').
    + unfold pending in *. unfold printf_reply. fields. lia.
    + exists w'. split; [exact Hl |].
      unfold printf_reply in Ho', Hh'. fields in Ho'. fields in Hh'.
      rewrite Hh in Hh'. cbn [tl] in Hh'. split; congruence.
  - destruct Hinv as [-> Hh]. destruct Htot as ((Ho & _) & _).
    exists w1. auto.
  - destruct Hinv.
Qed.

Lemma stream_cons (m : Z * list byte) (ms : list (Z * list byte)) :
  stream (m :: ms)
  = (header_bytes (fst m) (Z.of_nat (List.length (snd m)))
       ++ snd m ++ stream ms)%list.
Proof. cbn [stream]. unfold frame. now rewrite <- app_assoc. Qed.

(** The loop in monitor mode on a stream made of whole frames, each
    of less than 2^31 bytes, read in chunks of any sizes. *)
Lemma listen_drains_stream (ms : list (Z * list byte)) :
  forall (fuel : nat) (w : world),
  Forall is_chunk (read_sched w) ->
  Forall fits_int ms ->
  sock_in w = stream ms ->
  (pending w < fuel)%nat ->
  exists w',
    listen fuel true w = Exits EXIT_FAILURE w' /\
    stdout w' = stdout w ++ printed ms /\
    sock_out w' = sock_out w /\ heap w' = heap w /\
    stderr w' = (stderr w ++ [Warnx eof_header;
                              Warnx (read_of_total 0 to_read);
                              Err receiving_failed (errno w)])%list /\
    sock_in w' = [] /\ ignore_reply w' = ignore_reply w /\
    write_sched w' = write_sched w.
Proof.
  induction ms as [|m ms IH]; intros fuel w Hc Hfit Hin Hf.
  - destruct fuel as [|fuel]; [lia |].
    destruct (read_socket_at_end fuel w Hc Hin)
      as (w' & Hr & Hso & Hh & Ho & He & Hi & Hg & Hw).
    exists w'. cbn [listen]. unfold print_socket_reply. rewrite Hr. cbn [bind printed].
    rewrite append_nil_r. repeat split; assumption.
  - inversion Hfit as [|? ? Hm Hms]; subst.
    rewrite stream_cons in Hin.
    destruct fuel as [|fuel]; [lia |].
    assert (Hlen : (12 + List.length (snd m) + List.length (stream ms)
                    + List.length (read_sched w) < S fuel)%nat).
    { unfold pending in Hf. rewrite Hin, !length_app, header_length in Hf. lia. }
    assert (Hm32 : Z.of_nat (List.length (snd m)) < 2 ^ 32)
      by (unfold fits_int in Hm; lia).
    destruct (print_socket_reply_chunks (S fuel) w (fst m) _ (snd m) (stream ms)
                Hc Hin eq_refl Hm32) as (sched & Hp & Hcs & Hls); [lia |].
    cbn [listen]. rewrite Hp. cbn [bind].
    destruct (IH fuel (after_reply (stream ms) sched
                         (stdout w ++ c_string (snd m) ++ newline) w))
      as (w' & Hl & Hso & Ho & Hh & He & Hi & Hg & Hw).
    + exact Hcs.
    + exact Hms.
    + reflexivity.
    + unfold pending, after_reply. fields. lia.
    + exists w'. split; [exact Hl |].
      unfold after_reply in *. fields in Hso. fields in Ho. fields in Hh.
      fields in He. fields in Hg. fields in Hw.
      cbn [printed]. rewrite Hso, !append_assoc. repeat split; assumption.
Qed.

(** X5.  In monitor mode, on a stream made of whole frames, each of
    less than 2^31 bytes, and read in chunks of any sizes, every frame's
    payload is printed on a line of its own, in the order of arrival;
    nothing is sent; and when the stream ends the process reports the
    end of file and exits with [EXIT_FAILURE]. *)
Theorem monitor_prints_every_message (ms : list (Z * list byte)) :
  forall (fuel : nat) (w : world),
  Forall is_chunk (read_sched w) ->
  Forall fits_int ms ->
  sock_in w = stream ms ->
  (pending w < fuel)%nat ->
  exists w',
    listen fuel true w = Exits EXIT_FAILURE w' /\
    stdout w' = stdout w ++ printed ms /\
    sock_out w' = sock_out w /\ heap w' = heap w /\
    stderr w' = (stderr w ++ [Warnx eof_header;
                              Warnx (read_of_total 0 to_read);
                              Err receiving_failed (errno w)])%list.
Proof.
  intros fuel w Hc Hfit Hin Hf.
  destruct (listen_drains_stream ms fuel w Hc Hfit Hin Hf)
    as (w' & Hl & Hso & Ho & Hh & He & _).
  exists w'. repeat split; assumption.
Qed.

Lemma monitor_prints_every_message_witness :
  exists w',
    listen 60 true
      (fresh_world (stream [(6, list_byte_of_string "a"); (6, list_byte_of_string "bc")])
                   [Chunk 0; Chunk 20; Chunk 3] [])
    = Exits EXIT_FAILURE w' /\
    stdout w' = "" ++ printed [(6, list_byte_of_string "a"); (6, list_byte_of_string "bc")].
Proof.
  destruct (monitor_prints_every_message
              [(6, list_byte_of_string "a"); (6, list_byte_of_string "bc")] 60
              (fresh_world (stream [(6, list_byte_of_string "a");
                                    (6, list_byte_of_string "bc")])
                           [Chunk 0; Chunk 20; Chunk 3] []))
    as (w' & Hl & Hso & _).
  - repeat constructor.
  - repeat constructor.
  - reflexivity.
  - vm_compute. lia.
  - exists w'. split; [exact Hl | exact Hso].
Defined.

(* ================================================================== *)
(** * [write_socket], whatever the writes do                             *)
(* ================================================================== *)

(** One [write] of a non-empty buffer, whatever the schedule. *)
Lemma write_any_cases (b : list byte) (w : world) (n : Z) (w1 : world) :
  b <> [] ->
  write b w = (n, w1) ->
  same_reads w w1 /\
  (List.length (write_sched w1) <= List.length (write_sched w))%nat /\
  ((n = -1 /\ sock_out w1 = sock_out w /\
    (List.length (write_sched w1) < List.length (write_sched w))%nat)
   \/
   (exists k : nat,
      n = Z.of_nat k /\ (1 <= k <= List.length b)%nat /\
      sock_out w1 = (sock_out w ++ firstn k b)%list)).
Proof.
  intros Hb. unfold write, accept.
  assert (Hl : (1 <= List.length b)%nat).
  { destruct b; [congruence | cbn [List.length]; lia]. }
  destruct (write_sched w) as [|[c|e] s] eqn:E; intros H; injection H as <- <-.
  - split; [repeat split |]. split; [fields; rewrite E; lia |]. right.
    exists (Nat.min (List.length b) (List.length b)).
    split; [reflexivity |]. split; [lia | reflexivity].
  - split; [repeat split |]. split; [fields; cbn [List.length]; lia |]. right.
    exists (Nat.min (S c) (List.length b)).
    split; [reflexivity |]. split; [lia | reflexivity].
  - split; [repeat split |]. split; [fields; cbn [List.length]; lia |]. left.
    split; [reflexivity |]. split; [reflexivity |].
    fields. cbn [List.length]. lia.
Qed.

Lemma firstn_plus {A} (a : nat) : forall (c : nat) (l : list A),
  firstn (a + c) l = (firstn a l ++ firstn c (skipn a l))%list.
Proof.
  induction a as [|a IH]; intros c l; [reflexivity |].
  destruct l as [|x l]; cbn [Nat.add firstn skipn app].
  - now rewrite firstn_nil.
  - now rewrite IH.
Qed.

Lemma write_loop_any (fuel : nat) : forall buf written w,
  (written <= List.length buf)%nat ->
  (List.length buf - written + List.length (write_sched w) < fuel)%nat ->
  exists r w' k,
    write_loop fuel buf written w = Returns r w' /\
    (written <= k <= List.length buf)%nat /\
    sock_out w' = (sock_out w ++ firstn (k - written) (skipn written buf))%list /\
    (List.length (write_sched w') <= List.length (write_sched w))%nat /\
    same_reads w w' /\
    ((r = Z.of_nat (List.length buf) /\ k = List.length buf) \/
     (r = -1 /\ transient_write (errno w') = false)).
Proof.
  induction fuel as [|fuel IH]; intros buf written w Hw Hf; [lia |].
  rewrite write_loop_step.
  destruct (written <? List.length buf)%nat eqn:E.
  2:{ apply Nat.ltb_ge in E. assert (written = List.length buf) by lia. subst.
      exists (Z.of_nat (List.length buf)), w, (List.length buf).
      rewrite Nat.sub_diag. cbn [firstn]. rewrite app_nil_r.
      repeat split; auto. }
  apply Nat.ltb_lt in E.
  destruct (write (skipn written buf) w) as [n w1] eqn:W.
  assert (Hb : skipn written buf <> []).
  { intros Hnil. apply (f_equal (@List.length byte)) in Hnil.
    rewrite length_skipn in Hnil. cbn [List.length] in Hnil. lia. }
  destruct (write_any_cases _ _ _ _ Hb W) as (Hs1 & Hl1 & Hcases).
  destruct Hcases as [(-> & Ho1 & Hlt) | (k & -> & Hk & Ho1)].
  - cbn [Z.eqb]. destruct (transient_write (errno w1)) eqn:Et.
    + destruct (IH buf written w1 Hw) as (r & w' & k & Hr & Hk & Ho & Hl & Hs & Hres);
        [lia |].
      exists r, w', k. rewrite Hr, Ho, Ho1.
      repeat split; auto; try lia.
      all: destruct Hs1 as (? & ? & ? & ? & ? & ?);
           destruct Hs as (? & ? & ? & ? & ? & ?); congruence.
    + exists (-1), w1, written. rewrite Nat.sub_diag. cbn [firstn].
      rewrite app_nil_r. repeat split; auto; try lia; apply Hs1.
  - rewrite length_skipn in Hk.
    destruct (Z.of_nat k =? -1) eqn:E1; [apply Z.eqb_eq in E1; lia |].
    rewrite Nat2Z.id.
    destruct (IH buf (written + k)%nat w1) as (r & w' & j & Hr & Hj & Ho & Hl & Hs & Hres);
      [lia | lia |].
    exists r, w', j. rewrite Hr, Ho, Ho1. split; [reflexivity |].
    split; [lia |]. split.
    + rewrite <- app_assoc. f_equal.
      replace (j - written)%nat with (k + (j - (written + k)))%nat by lia.
      rewrite firstn_plus, skipn_skipn, (Nat.add_comm k written). reflexivity.
    + split; [lia |]. split; [exact (same_reads_trans _ _ _ Hs1 Hs) | exact Hres].
Qed.

(** X6.  [write_socket] ends, whatever the writes do, and in one of two
    ways: it returns the length of the buffer and the whole buffer is on
    the wire, or it returns -1 with [errno] set to a condition it does
    not retry and a prefix of the buffer on the wire.  It never writes
    bytes out of order or past the end of the buffer, and it touches
    nothing on the read side. *)
Theorem write_socket_all_or_error (fuel : nat) (buf : list byte) (w : world) :
  (List.length buf + List.length (write_sched w) < fuel)%nat ->
  exists r w' k,
    write_socket fuel buf w = Returns r w' /\
    (k <= List.length buf)%nat /\
    sock_out w' = (sock_out w ++ firstn k buf)%list /\
    sock_in w' = sock_in w /\
    ((r = Z.of_nat (List.length buf) /\ k = List.length buf) \/
     (r = -1 /\ transient_write (errno w') = false)).
Proof.
  intros Hf. unfold write_socket.
  destruct (write_loop_any fuel buf O w) as (r & w' & k & Hr & Hk & Ho & _ & Hs & Hres);
    [lia | lia |].
  exists r, w', k. rewrite Nat.sub_0_r in Ho. cbn [skipn] in Ho.
  repeat split; auto; try lia. apply Hs.
Qed.

Lemma write_socket_all_or_error_witness :
  exists r w' k,
    write_socket 20 ok_reply (fresh_world [] [] [Chunk 4; Fail EINTR; Chunk 1; Fail EPIPE])
    = Returns r w' /\
    (k <= List.length ok_reply)%nat /\
    sock_out w' = ([] ++ firstn k ok_reply)%list /\
    ((r = Z.of_nat (List.length ok_reply) /\ k = List.length ok_reply) \/
     (r = -1 /\ transient_write (errno w') = false)).
Proof.
  destruct (write_socket_all_or_error 20 ok_reply
              (fresh_world [] [] [Chunk 4; Fail EINTR; Chunk 1; Fail EPIPE]))
    as (r & w' & k & Hr & Hk & Ho & _ & Hres).
  - vm_compute. lia.
  - exists r, w', k. auto.
Defined.

(* ================================================================== *)
(** * Requests and their replies                                        *)
(* ================================================================== *)

Lemma length_list_byte_of_string (s : string) :
  List.length (list_byte_of_string s) = String.length s.
Proof.
  unfold list_byte_of_string. rewrite length_map.
  induction s as [|c s IH]; cbn; [reflexivity | now rewrite IH].
Qed.

Lemma write_loop_sched_le (fuel : nat) : forall buf written w r w',
  write_loop fuel buf written w = Returns r w' ->
  (List.length (write_sched w') <= List.length (write_sched w))%nat.
Proof.
  induction fuel as [|fuel IH]; intros buf written w r w' H; [discriminate |].
  rewrite write_loop_step in H.
  destruct (written <? List.length buf)%nat; [| injection H as <- <-; lia].
  destruct (write (skipn written buf) w) as [n w1] eqn:W.
  assert (Hl : (List.length (write_sched w1) <= List.length (write_sched w))%nat).
  { unfold write, accept in W.
    destruct (write_sched w) as [|[c|e] s] eqn:E; injection W as <- <-;
      fields; try rewrite E; cbn [List.length]; lia. }
  destruct (n =? -1).
  - destruct (transient_write (errno w1)).
    + apply IH in H. lia.
    + injection H as <- <-. exact Hl.
  - apply IH in H. lia.
Qed.

(** [send_message] with a text as payload, when no write fails for
    good: the request's frame goes out whole. *)
Lemma send_text_ok (fuel : nat) (t : IPCMessageType) (text : string) (w : world) :
  Forall write_benign (write_sched w) ->
  Z.of_nat (String.length text) < 2 ^ 32 ->
  (12 + String.length text + List.length (write_sched w) < fuel)%nat ->
  exists w1,
    send_message fuel t (Z.of_nat (String.length text))
                 (list_byte_of_string text) w = Returns 0 w1 /\
    sock_out w1 = (sock_out w ++ request_frame t text)%list /\
    same_reads w w1 /\ Forall write_benign (write_sched w1) /\
    (List.length (write_sched w1) <= List.length (write_sched w))%nat.
Proof.
  intros Hc Hlt Hf.
  assert (Hbuf : message_buffer t (Z.of_nat (String.length text))
                                (list_byte_of_string text)
                 = request_frame t text).
  { rewrite <- length_list_byte_of_string. apply message_buffer_whole. }
  destruct (send_message_ok fuel t (Z.of_nat (String.length text))
              (list_byte_of_string text) w Hc) as (w1 & Hs & Ho & Hsr & Hc1).
  - lia.
  - rewrite Hbuf. unfold request_frame, frame. cbn [fst snd].
    rewrite length_app, header_length, length_list_byte_of_string. lia.
  - exists w1. rewrite <- Hbuf. repeat split; try assumption; try apply Hsr.
    unfold send_message in Hs.
    destruct (write_socket fuel _ w) as [r w1' | |] eqn:Hw; cbn [bind] in Hs;
      try discriminate.
    injection Hs as <-. unfold write_socket in Hw.
    exact (write_loop_sched_le _ _ _ _ _ _ Hw).
Qed.

(** A request sent and its reply read, printed unless [quiet]. *)
Lemma request_reply_ok (quiet : bool) (fuel : nat) (t : IPCMessageType)
                       (text : string) (w : world) (c n : Z)
                       (payload rest : list byte) :
  Forall write_benign (write_sched w) ->
  Forall is_chunk (read_sched w) ->
  sock_in w = (header_bytes c n ++ payload ++ rest)%list ->
  n = Z.of_nat (List.length payload) -> n < 2 ^ 32 ->
  Z.of_nat (String.length text) < 2 ^ 32 ->
  (12 + String.length text + List.length (write_sched w) < fuel)%nat ->
  (12 + List.length payload < fuel)%nat ->
  exists w',
    (do (_r, w1) <- send_message fuel t (Z.of_nat (String.length text))
                                 (list_byte_of_string text) w;
     do (_u, w2) <- (if quiet then flush_socket_reply fuel w1
                     else print_socket_reply fuel w1);
     Returns 0 w2) = Returns 0 w' /\
    exchanged w w' (request_frame t text) rest
              (if quiet then stdout w
               else stdout w ++ c_string payload ++ newline).
Proof.
  intros Hcw Hcr Hin Hn Hlt Htext Hfw Hfr.
  destruct (send_text_ok fuel t text w Hcw Htext Hfw)
    as (w1 & Hs & Ho & (S1 & S2 & S3 & S4 & S5 & S6) & Hcw1 & Hlw1).
  rewrite Hs. cbn [bind].
  assert (Hcr1 : Forall is_chunk (read_sched w1)) by (rewrite S2; exact Hcr).
  assert (Hin1 : sock_in w1 = (header_bytes c n ++ payload ++ rest)%list)
    by (rewrite S1; exact Hin).
  destruct quiet.
  - destruct (flush_socket_reply_chunks fuel w1 c n payload rest Hcr1 Hin1 Hn Hlt Hfr)
      as (sched & Hp & Hcs & Hls).
    rewrite Hp. cbn [bind]. eexists. split; [reflexivity |].
    unfold exchanged, after_reply. fields.
    repeat split; try assumption; congruence.
  - destruct (print_socket_reply_chunks fuel w1 c n payload rest Hcr1 Hin1 Hn Hlt Hfr)
      as (sched & Hp & Hcs & Hls).
    rewrite Hp. cbn [bind]. eexists. split; [reflexivity |].
    unfold exchanged, after_reply. fields.
    repeat split; try assumption; congruence.
Qed.

(** X7.  [run_command], when no write fails for good and a reply of
    less than 2^31 bytes arrives whole: the frame of type 0 carrying the
    run_command document goes out, exactly one reply frame is consumed
    and its buffer freed, and the reply's payload is printed on one
    line, or nothing is printed when [ignore_reply] is set.  The call
    returns 0. *)
Theorem run_command_exchange (fuel : nat) (name : string) (args : list string)
                             (w : world) (c n : Z) (payload rest : list byte) :
  Forall write_benign (write_sched w) ->
  Forall is_chunk (read_sched w) ->
  sock_in w = (header_bytes c n ++ payload ++ rest)%list ->
  n = Z.of_nat (List.length payload) -> n < 2 ^ 31 ->
  Z.of_nat (String.length (run_command_text name args)) < 2 ^ 32 ->
  (12 + String.length (run_command_text name args)
   + List.length (write_sched w) < fuel)%nat ->
  (12 + List.length payload < fuel)%nat ->
  exists w',
    run_command fuel name args w = Returns 0 w' /\
    exchanged w w'
      (request_frame IPC_TYPE_RUN_COMMAND (run_command_text name args)) rest
      (if ignore_reply w then stdout w
       else stdout w ++ c_string payload ++ newline).
Proof.
  intros Hcw Hcr Hin Hn Hint Htext Hfw Hfr.
  assert (Hlt : n < 2 ^ 32) by lia.
  unfold run_command, yajl_gen_get_buf. rewrite run_command_gen_text.
  destruct (send_text_ok fuel IPC_TYPE_RUN_COMMAND _ w Hcw Htext Hfw)
    as (w1 & Hs & _ & (_ & _ & S3 & _) & _).
  destruct (request_reply_ok (ignore_reply w) fuel IPC_TYPE_RUN_COMMAND
              (run_command_text name args) w c n payload rest
              Hcw Hcr Hin Hn Hlt Htext Hfw Hfr) as (w' & Hr & Hex).
  exists w'. split; [| exact Hex].
  rewrite Hs in *. cbn [bind] in *. rewrite S3.
  destruct (ignore_reply w); exact Hr.
Qed.

Lemma run_command_exchange_witness :
  exists w',
    run_command 80 "tag" ["3"; "-1"; "east"]
      (fresh_world (ok_reply ++ evt_event) [Chunk 0; Chunk 30] [Chunk 5; Fail EINTR])
    = Returns 0 w' /\
    sock_in w' = evt_event /\ stdout w' = "" ++ c_string (list_byte_of_string "ok") ++ newline.
Proof.
  destruct (run_command_exchange 80 "tag" ["3"; "-1"; "east"]
              (fresh_world (ok_reply ++ evt_event) [Chunk 0; Chunk 30]
                           [Chunk 5; Fail EINTR])
              1 2 (list_byte_of_string "ok") evt_event)
    as (w' & Hr & _ & Hin & Hso & _).
  - repeat constructor.
  - repeat constructor.
  - reflexivity.
  - reflexivity.
  - reflexivity.
  - vm_compute. reflexivity.
  - vm_compute. lia.
  - vm_compute. lia.
  - exists w'. split; [exact Hr |]. split; [exact Hin | exact Hso].
Defined.

Lemma exchanged_chain (a b c : world) (s1 s2 r1 r2 : list byte) (o1 o2 : string) :
  exchanged a b s1 r1 o1 -> exchanged b c s2 r2 o2 ->
  exchanged a c (s1 ++ s2) r2 o2.
Proof.
  unfold exchanged.
  intros (A1 & A2 & A3 & A4 & A5 & A6 & A7 & A8 & A9 & A10)
         (B1 & B2 & B3 & B4 & B5 & B6 & B7 & B8 & B9 & B10).
  repeat split; try assumption; try congruence; try lia.
  rewrite B1, A1, app_assoc. reflexivity.
Qed.

(** [subscribe] when no write fails for good and its reply arrives
    whole. *)
Lemma subscribe_ok (fuel : nat) (event : string) (w : world) (c n : Z)
                   (payload rest : list byte) :
  Forall write_benign (write_sched w) ->
  Forall is_chunk (read_sched w) ->
  sock_in w = (header_bytes c n ++ payload ++ rest)%list ->
  n = Z.of_nat (List.length payload) -> n < 2 ^ 32 ->
  Z.of_nat (String.length (subscribe_text event)) < 2 ^ 32 ->
  (12 + String.length (subscribe_text event)
   + List.length (write_sched w) < fuel)%nat ->
  (12 + List.length payload < fuel)%nat ->
  exists w',
    subscribe fuel event w = Returns 0 w' /\
    exchanged w w'
      (request_frame IPC_TYPE_SUBSCRIBE (subscribe_text event)) rest
      (if ignore_reply w then stdout w
       else stdout w ++ c_string payload ++ newline).
Proof.
  intros Hcw Hcr Hin Hn Hlt Htext Hfw Hfr.
  unfold subscribe, yajl_gen_get_buf. rewrite subscribe_gen_text.
  destruct (send_text_ok fuel IPC_TYPE_SUBSCRIBE _ w Hcw Htext Hfw)
    as (w1 & Hs & _ & (_ & _ & S3 & _) & _).
  destruct (request_reply_ok (ignore_reply w) fuel IPC_TYPE_SUBSCRIBE
              (subscribe_text event) w c n payload rest
              Hcw Hcr Hin Hn Hlt Htext Hfw Hfr) as (w' & Hr & Hex).
  exists w'. split; [| exact Hex].
  rewrite Hs in *. cbn [bind] in *. rewrite S3.
  destruct (ignore_reply w); exact Hr.
Qed.

(** X8.  [main]'s loop over the event names, when no write fails for
    good and one whole reply, of less than 2^31 bytes, arrives per
    request: one subscribe frame goes out per name, in the order given
    and with no deduplication, one reply is consumed per name, each
    reply is printed unless [ignore_reply] is set, and the stream is
    left at the first byte after the last reply. *)
Theorem subscribe_all_exchanges (events : list string) :
  forall (replies : list (Z * list byte)) (fuel : nat) (w : world)
         (rest : list byte),
  List.length replies = List.length events ->
  Forall fits_int replies ->
  Forall (fun m => (12 + List.length (snd m) < fuel)%nat) replies ->
  Forall (fun e => Z.of_nat (String.length (subscribe_text e)) < 2 ^ 32
                   /\ (12 + String.length (subscribe_text e)
                       + List.length (write_sched w) < fuel)%nat) events ->
  Forall write_benign (write_sched w) ->
  Forall is_chunk (read_sched w) ->
  sock_in w = (stream replies ++ rest)%list ->
  exists w',
    subscribe_all fuel events w = Returns tt w' /\
    exchanged w w'
      (stream (map (fun e => (type_code IPC_TYPE_SUBSCRIBE,
                              list_byte_of_string (subscribe_text e))) events))
      rest
      (if ignore_reply w then stdout w else stdout w ++ printed replies).
Proof.
  induction events as [|e events IH];
    intros replies fuel w rest Hlen Hfit Hfr Hev Hcw Hcr Hin.
  - destruct replies; [| discriminate]. cbn [stream app] in Hin.
    exists w. split; [reflexivity |].
    unfold exchanged. cbn [map stream printed].
    rewrite app_nil_r, append_nil_r.
    repeat split; try assumption; try lia.
    destruct (ignore_reply w); reflexivity.
  - destruct replies as [|m replies]; [discriminate |].
    injection Hlen as Hlen.
    inversion Hfit as [|? ? Hm Hfit']; subst.
    inversion Hfr as [|? ? Hfm Hfr']; subst.
    inversion Hev as [|? ? [Het Hef] Hev']; subst.
    rewrite stream_cons, <- !app_assoc in Hin.
    assert (Hm32 : Z.of_nat (List.length (snd m)) < 2 ^ 32)
      by (unfold fits_int in Hm; lia).
    destruct (subscribe_ok fuel e w (fst m) _ (snd m) (stream replies ++ rest)%list
                Hcw Hcr Hin eq_refl Hm32 Het Hef Hfm) as (w2 & Hsub & Hex).
    cbn [subscribe_all]. rewrite Hsub. cbn [bind].
    pose proof Hex as (E1 & E2 & E3 & E4 & E5 & E6 & E7 & E8 & E9 & E10).
    destruct (IH replies fuel w2 rest Hlen Hfit' Hfr') as (w' & Hall & Hex').
    + eapply Forall_impl; [| exact Hev']. cbv beta. intros a [Ha Hb].
      split; [exact Ha | lia].
    + exact E8.
    + exact E7.
    + exact E2.
    + exists w'. split; [exact Hall |].
      pose proof (exchanged_chain _ _ _ _ _ _ _ _ _ Hex Hex') as Hch.
      unfold exchanged in *. cbn [map stream]. unfold request_frame in Hch.
      destruct Hch as (C1 & C2 & C3 & C4 & C5 & C6 & C7 & C8 & C9 & C10).
      repeat split; try assumption.
      rewrite C3, E6, E3. destruct (ignore_reply w); [reflexivity |].
      cbn [printed]. rewrite !append_assoc. reflexivity.
Qed.

Lemma subscribe_all_exchanges_witness :
  exists w',
    subscribe_all 100 ["tag_change_event"; "layout_change_event"]
      (fresh_world (stream [(5, list_byte_of_string "ok"); (5, list_byte_of_string "ok")]
                      ++ evt_event)
                   [Chunk 3] [Chunk 20])
    = Returns tt w' /\ sock_in w' = evt_event.
Proof.
  destruct (subscribe_all_exchanges ["tag_change_event"; "layout_change_event"]
              [(5, list_byte_of_string "ok"); (5, list_byte_of_string "ok")] 100
              (fresh_world (stream [(5, list_byte_of_string "ok");
                                    (5, list_byte_of_string "ok")] ++ evt_event)
                           [Chunk 3] [Chunk 20])
              evt_event)
    as (w' & Hr & _ & Hin & _).
  - reflexivity.
  - repeat constructor.
  - repeat constructor; vm_compute; lia.
  - repeat constructor; vm_compute; (reflexivity || lia).
  - repeat constructor.
  - repeat constructor.
  - reflexivity.
  - exists w'. split; [exact Hr | exact Hin].
Defined.

(* ================================================================== *)
(** * The client lookup                                                 *)
(* ================================================================== *)

Lemma length_append (a b : string) :
  String.length (a ++ b) = (String.length a + String.length b)%nat.
Proof.
  induction a as [|x a IH]; cbn; [reflexivity | now rewrite IH].
Qed.

Lemma fmt_digits_length (fuel : nat) : forall n tail,
  (String.length (fmt_digits fuel n tail) <= fuel + String.length tail)%nat.
Proof.
  induction fuel as [|fuel IH]; intros n tail; cbn [fmt_digits]; [lia |].
  destruct (n <? 10); [cbn; lia |].
  specialize (IH (n / 10) (String (digit_char (n mod 10)) tail)).
  cbn [String.length] in IH. lia.
Qed.

Lemma fmt_lld_length (n : Z) :
  0 <= n <= LLONG_MAX -> (String.length (fmt_lld n) <= 64)%nat.
Proof.
  intros Hn. unfold fmt_lld.
  replace (n <? 0) with false by (symmetry; apply Z.ltb_ge; lia).
  unfold fmt_unsigned.
  pose proof (fmt_digits_length (S (Z.to_nat (Z.log2 n))) n "") as H.
  cbn [String.length] in H.
  assert (L : Z.log2 n < 63).
  { destruct (Z.eq_dec n 0) as [-> | Hz]; [reflexivity |].
    apply Z.log2_lt_pow2; [lia |]. unfold LLONG_MAX in Hn. lia. }
  pose proof (Z.log2_nonneg n). lia.
Qed.

Lemma get_dwm_client_gen_text (win : Z) :
  gen_buf (get_dwm_client_gen win)
  = dq "{'client_window_id':" ++ fmt_lld win ++ "}".
Proof.
  unfold get_dwm_client_gen.
  rewrite map_open_alloc, string_first_key, integer_value.
  rewrite map_close_top by (left; reflexivity).
  cbn [gen_buf]. rewrite !append_assoc. reflexivity.
Qed.

(** X9.  The client lookup through [main]: an argument that is the
    decimal text of a window id between 0 and [LONG_MAX], extra leading
    zeros allowed, passes the unsigned scan and is sent as the JSON
    integer of the document [{"client_window_id": id}] in a frame of
    type 4; one reply, of less than 2^31 bytes, is consumed and
    printed, also when [ignore_reply] is set, since this request never
    takes the quiet path; arguments after the first are not looked
    at. *)
Theorem client_lookup_exchange (n : Z) (k : nat) (more : list string)
                               (fuel : nat) (w : world) (c sz : Z)
                               (payload rest : list byte) :
  0 <= n <= LLONG_MAX ->
  Forall write_benign (write_sched w) ->
  Forall is_chunk (read_sched w) ->
  sock_in w = (header_bytes c sz ++ payload ++ rest)%list ->
  sz = Z.of_nat (List.length payload) -> sz < 2 ^ 31 ->
  (100 + List.length (write_sched w) < fuel)%nat ->
  (12 + List.length payload < fuel)%nat ->
  exists w',
    main fuel IPC_TYPE_GET_DWM_CLIENT false (padded k n :: more) w
    = Returns 0 w' /\
    exchanged w w'
      (request_frame IPC_TYPE_GET_DWM_CLIENT
                     (dq "{'client_window_id':" ++ fmt_lld n ++ "}"))
      rest (stdout w ++ c_string payload ++ newline).
Proof.
  intros Hn Hcw Hcr Hin Hsz Hint Hfw Hfr.
  assert (Hlt : sz < 2 ^ 32) by lia.
  assert (Hu : is_unsigned_int (padded k n) = true).
  { unfold padded. replace (n <? 0) with false by (symmetry; apply Z.ltb_ge; lia).
    apply zeros_unsigned, fmt_unsigned_unsigned. lia. }
  assert (Ha : atol (padded k n) = n).
  { unfold atol. apply atoll_padded. unfold LLONG_MIN. lia. }
  assert (Hlen : (String.length (dq "{'client_window_id':" ++ fmt_lld n ++ "}")
                  <= 86)%nat).
  { rewrite !length_append. pose proof (fmt_lld_length n Hn).
    change (String.length (dq "{'client_window_id':")) with 20%nat.
    change (String.length "}") with 1%nat. lia. }
  destruct (request_reply_ok false fuel IPC_TYPE_GET_DWM_CLIENT
              (dq "{'client_window_id':" ++ fmt_lld n ++ "}") w c sz payload rest
              Hcw Hcr Hin Hsz Hlt) as (w' & Hr & Hex); [lia | lia | exact Hfr |].
  exists w'. split; [| exact Hex].
  cbn [main andb is_subscribe negb]. rewrite Hu, Ha.
  unfold get_dwm_client, yajl_gen_get_buf. rewrite get_dwm_client_gen_text.
  rewrite Hr. reflexivity.
Qed.

Lemma client_lookup_exchange_witness :
  exists w',
    main 120 IPC_TYPE_GET_DWM_CLIENT false [padded 0 4194306]
         (fresh_world ok_reply [Chunk 1] [Chunk 7])
    = Returns 0 w' /\
    sock_out w'
    = ([] ++ request_frame IPC_TYPE_GET_DWM_CLIENT
                (dq "{'client_window_id':" ++ fmt_lld 4194306 ++ "}"))%list.
Proof.
  destruct (client_lookup_exchange 4194306 0 [] 120
              (fresh_world ok_reply [Chunk 1] [Chunk 7])
              1 2 (list_byte_of_string "ok") [])
    as (w' & Hr & Ho & _).
  - unfold LLONG_MAX. lia.
  - repeat constructor.
  - repeat constructor.
  - reflexivity.
  - reflexivity.
  - reflexivity.
  - vm_compute. lia.
  - vm_compute. lia.
  - exists w'. split; [exact Hr | exact Ho].
Defined.

(* ================================================================== *)
(** * Failed reads                                                      *)
(* ================================================================== *)

(** [read_socket] when the next [read] fails: the header loop gives up
    with -1 at once, and [errno] decides between one more round and the
    end of the process. *)
Lemma read_socket_failed_read (fuel : nat) (w : world) (e : errno_t)
                              (sched : list io_event) :
  read_sched w = Fail e :: sched ->
  read_socket (S fuel) w
  = if transient_read e
    then read_socket fuel (set_errno e (set_read_sched sched w))
    else err receiving_failed (set_errno e (set_read_sched sched w)).
Proof.
  intros H. cbn [read_socket]. unfold recv_message.
  rewrite read_header_step. cbv zeta. cbn [List.length].
  change (Z.of_nat 0 <? to_read) with true. cbv iota.
  unfold read. rewrite H. cbv iota beta.
  change (-1 =? 0) with false. change (-1 =? -1) with true. cbv iota.
  cbn [bind]. change (-1 =? -1) with true. cbn [andb]. fields. reflexivity.
Qed.

(** X10.  A read that fails for good while [read_socket] waits for the
    first byte of a message ends the process: whatever number of
    interrupted or would-block reads came before it, the status is
    [EXIT_FAILURE], the one diagnostic carries the [errno] of the
    failing read, and no byte of the stream has been taken. *)
Theorem hard_read_error_is_fatal (pre : list io_event) :
  forall (fuel : nat) (w : world) (e : errno_t) (sched : list io_event),
  Forall transient_failure pre ->
  transient_read e = false ->
  read_sched w = (pre ++ Fail e :: sched)%list ->
  (List.length pre < fuel)%nat ->
  read_socket fuel w
  = Exits EXIT_FAILURE
      (set_stderr (stderr w ++ [Err receiving_failed e])
         (set_errno e (set_read_sched sched w))).
Proof.
  induction pre as [|ev pre IH]; intros fuel w e sched Hpre He Hs Hf;
    (destruct fuel as [|fuel]; [cbn [List.length] in Hf; lia |]).
  - cbn [app] in Hs. rewrite (read_socket_failed_read fuel w e sched Hs), He.
    reflexivity.
  - inversion Hpre as [|? ? Hev Hpre']; subst.
    destruct ev as [k|e0]; [destruct Hev |]. cbn [transient_failure] in Hev.
    cbn [app] in Hs.
    rewrite (read_socket_failed_read fuel w e0 _ Hs), Hev.
    rewrite (IH fuel _ e sched Hpre' He); [| reflexivity | cbn [List.length] in Hf; lia].
    destruct w; reflexivity.
Qed.

Lemma hard_read_error_is_fatal_witness :
  read_socket 5 (fresh_world ok_reply [Fail EINTR; Fail EAGAIN; Fail ECONNRESET] [])
  = Exits EXIT_FAILURE
      (set_stderr [Err receiving_failed ECONNRESET]
         (set_errno ECONNRESET
            (set_read_sched [] (fresh_world ok_reply [] [])))).
Proof.
  apply (hard_read_error_is_fatal [Fail EINTR; Fail EAGAIN] 5
           (fresh_world ok_reply [Fail EINTR; Fail EAGAIN; Fail ECONNRESET] [])
           ECONNRESET []).
  - repeat constructor.
  - reflexivity.
  - reflexivity.
  - cbn [List.length]. lia.
Defined.

(** The header loop when one [read] brings the whole header. *)
Lemma read_header_whole (fuel : nat) (w : world) (k : nat) (sched : list io_event)
                        (hdr rest : list byte) :
  read_sched w = Chunk k :: sched -> (11 <= k)%nat ->
  sock_in w = (hdr ++ rest)%list -> List.length hdr = 12%nat ->
  read_header (S (S fuel)) [] w
  = Returns (inl hdr) (set_sock_in rest (set_read_sched sched w)).
Proof.
  intros Hs Hk Hin Hl.
  rewrite read_header_step. cbv zeta. cbn [List.length].
  change (Z.of_nat 0 <? to_read) with true. cbv iota.
  unfold read. rewrite Hs. cbv iota beta. unfold deliver. fields.
  rewrite Hin.
  replace (Nat.min (S k) (Nat.min (Z.to_nat (to_read - Z.of_nat 0))
                                  (List.length (hdr ++ rest)%list))) with 12%nat.
  2:{ rewrite length_app, Hl. change (Z.to_nat (to_read - Z.of_nat 0)) with 12%nat.
      lia. }
  rewrite firstn_app_le, skipn_app_le by lia.
  rewrite <- Hl, firstn_all, skipn_all. rewrite Hl.
  change (Z.of_nat 12 =? 0) with false. change (Z.of_nat 12 =? -1) with false.
  cbv iota. cbn [app].
  rewrite read_header_step. cbv zeta. rewrite Hl.
  change (Z.of_nat 12 <? to_read) with false. cbv iota.
  reflexivity.
Qed.

(** X11.  Where interrupted reads do no harm: before the first byte of
    a message is read (any number of them), and anywhere in the payload,
    provided the header itself arrives in one [read].  Then
    [read_socket] returns the message whole, leaves the stream at the
    byte after it and writes no diagnostic. *)
Theorem interruptions_around_the_header_are_absorbed (pre : list io_event) :
  forall (fuel : nat) (w : world) (k : nat) (sched : list io_event) (c n : Z)
         (payload rest : list byte),
  Forall transient_failure pre -> (11 <= k)%nat -> Forall read_benign sched ->
  read_sched w = (pre ++ Chunk k :: sched)%list ->
  sock_in w = (header_bytes c n ++ payload ++ rest)%list ->
  n = Z.of_nat (List.length payload) -> n < 2 ^ 32 ->
  (List.length pre + 2 + List.length payload + List.length sched < fuel)%nat ->
  exists w',
    read_socket fuel w = Returns (c mod 256, n, payload) w' /\
    sock_in w' = rest /\ heap w' = n :: heap w /\
    stderr w' = stderr w /\ stdout w' = stdout w /\ sock_out w' = sock_out w.
Proof.
  induction pre as [|ev pre IH];
    intros fuel w k sched c n payload rest Hpre Hk Hb Hs Hin Hn Hlt Hf;
    cbn [List.length app] in *.
  - destruct fuel as [|[|fuel]]; [lia | lia |].
    pose proof (read_header_whole fuel w k sched (header_bytes c n)
                  (payload ++ rest)%list Hs Hk Hin (header_length c n)) as Hh.
    set (w1 := set_sock_in (payload ++ rest)%list (set_read_sched sched w)) in *.
    destruct (read_payload_ok (S (S fuel)) [] (malloc n w1) payload rest n)
      as (wp & Hp & Hinp & _ & Hmp);
      [exact Hb | reflexivity | cbn [List.length]; lia | unfold w1; fields; lia |].
    exists wp. cbn [app] in Hp.
    destruct (errno_moved_fields _ _ Hmp) as (_ & P2 & _ & P4 & P5 & P6).
    fields in P2. fields in P4. fields in P5. fields in P6.
    repeat split; try assumption.
    cbn [read_socket]. unfold recv_message. rewrite Hh. cbn [bind].
    rewrite header_magic. cbn [negb].
    rewrite header_size, header_type by lia.
    fold w1. rewrite Hp. reflexivity.
  - pose proof (Forall_inv Hpre) as Hev. pose proof (Forall_inv_tail Hpre) as Hpre'.
    destruct ev as [j|e0]; [destruct Hev |]. cbn [transient_failure] in Hev.
    destruct fuel as [|fuel]; [lia |].
    rewrite (read_socket_failed_read fuel w e0 _ Hs), Hev.
    destruct (IH fuel (set_errno e0 (set_read_sched (pre ++ Chunk k :: sched)%list w))
                k sched c n payload rest Hpre' Hk Hb eq_refl Hin Hn Hlt)
      as (w' & Hr & H1 & H2 & H3 & H4 & H5); [lia |].
    exists w'. repeat split; assumption.
Qed.

Lemma interruptions_around_the_header_are_absorbed_witness :
  exists w',
    read_socket 20 (fresh_world (ok_reply ++ evt_event)
                      [Fail EINTR; Fail EAGAIN; Chunk 11; Fail EINTR; Chunk 0] [])
    = Returns (1, 2, list_byte_of_string "ok") w' /\
    sock_in w' = evt_event.
Proof.
  destruct (interruptions_around_the_header_are_absorbed [Fail EINTR; Fail EAGAIN] 20
              (fresh_world (ok_reply ++ evt_event)
                 [Fail EINTR; Fail EAGAIN; Chunk 11; Fail EINTR; Chunk 0] [])
              11 [Fail EINTR; Chunk 0] 1 2 (list_byte_of_string "ok") evt_event)
    as (w' & Hr & Hin & _).
  - repeat constructor.
  - lia.
  - repeat constructor.
  - reflexivity.
  - reflexivity.
  - reflexivity.
  - reflexivity.
  - cbn [List.length]. vm_compute. lia.
  - exists w'. split; [exact Hr | exact Hin].
Defined.

(* ================================================================== *)
(** * Every request ends                                                *)
(* ================================================================== *)

(** [send_message] returns 0 whatever the writes do. *)
Lemma send_message_any (fuel : nat) (t : IPCMessageType) (msg_size : Z)
                       (msg : list byte) (w : world) :
  (12 + List.length msg + List.length (write_sched w) < fuel)%nat ->
  exists w1,
    send_message fuel t msg_size msg w = Returns 0 w1 /\
    same_reads w w1 /\
    (List.length (write_sched w1) <= List.length (write_sched w))%nat.
Proof.
  intros Hf. unfold send_message, write_socket.
  destruct (write_loop_any fuel (message_buffer t (msg_size mod 2 ^ 32) msg) 0 w)
    as (r & w1 & k & Hr & _ & _ & Hl & Hs & _); [lia | |].
  - unfold message_buffer. rewrite length_app, header_length, length_firstn. lia.
  - exists w1. cbv zeta. rewrite Hr. cbn [bind]. auto.
Qed.

(** Waiting for one reply, to print it or to drop it. *)
Lemma reply_any (quiet : bool) (fuel : nat) (w : world) :
  (pending w < fuel)%nat ->
  match (if quiet then flush_socket_reply fuel w else print_socket_reply fuel w) with
  | Returns _ w' =>
      heap w' = heap w /\ (pending w' < pending w)%nat /\
      write_sched w' = write_sched w
  | Exits status w' => status = EXIT_FAILURE /\ heap w' = heap w
  | OutOfFuel => False
  end.
Proof.
  intros Hf.
  pose proof (read_socket_inv fuel w Hf) as Hinv.
  pose proof (read_socket_total fuel w Hf) as Htot.
  unfold flush_socket_reply, print_socket_reply.
  destruct (read_socket fuel w) as [[[c n] msg] w1 | st w1 |] eqn:Hr;
    cbn [bind ends_in] in *.
  - apply read_socket_progress in Hr.
    destruct Hinv as (Hh & _). destruct Htot as ((_ & Hw & _) & _).
    destruct quiet; unfold printf_reply, pending in *; fields;
      rewrite Hh; cbn [tl]; auto.
  - destruct quiet; exact Hinv.
  - destruct quiet; exact Hinv.
Qed.

(** A request and the wait for its reply. *)
Lemma request_any (quiet : world -> bool) (fuel : nat) (t : IPCMessageType)
                  (msg_size : Z) (msg : list byte) (w : world) :
  (pending w < fuel)%nat ->
  (12 + List.length msg + List.length (write_sched w) < fuel)%nat ->
  match (do (_r, w1) <- send_message fuel t msg_size msg w;
         do (_u, w2) <- (if quiet w1 then flush_socket_reply fuel w1
                         else print_socket_reply fuel w1);
         Returns 0 w2) with
  | Returns r w' =>
      r = 0 /\ heap w' = heap w /\ (pending w' < pending w)%nat /\
      (List.length (write_sched w') <= List.length (write_sched w))%nat
  | Exits status w' => status = EXIT_FAILURE /\ heap w' = heap w
  | OutOfFuel => False
  end.
Proof.
  intros Hp Hf.
  destruct (send_message_any fuel t msg_size msg w Hf) as (w1 & -> & Hs & Hl).
  cbn [bind].
  destruct Hs as (S1 & S2 & _ & S4 & _).
  assert (Hp1 : (pending w1 < fuel)%nat) by (unfold pending in *; rewrite S1, S2; exact Hp).
  pose proof (reply_any (quiet w1) fuel w1 Hp1) as H.
  destruct (if quiet w1 then flush_socket_reply fuel w1 else print_socket_reply fuel w1)
    as [u w2 | st w2 |]; cbn [bind].
  - destruct H as (H1 & H2 & H3). unfold pending in *.
    rewrite S1, S2 in H2. rewrite H3. repeat split; [congruence | lia | lia].
  - destruct H as (H1 & H2). split; congruence.
  - exact H.
Qed.

Lemma negb_if {A} (b : bool) (x y : A) :
  (if negb b then x else y) = (if b then y else x).
Proof. destruct b; reflexivity. Qed.

Lemma subscribe_any (fuel : nat) (event : string) (w : world) :
  (pending w < fuel)%nat ->
  (12 + String.length (gen_buf (subscribe_gen event))
   + List.length (write_sched w) < fuel)%nat ->
  match subscribe fuel event w with
  | Returns r w' =>
      r = 0 /\ heap w' = heap w /\ (pending w' < pending w)%nat /\
      (List.length (write_sched w') <= List.length (write_sched w))%nat
  | Exits status w' => status = EXIT_FAILURE /\ heap w' = heap w
  | OutOfFuel => False
  end.
Proof.
  intros Hp Hf. unfold subscribe, yajl_gen_get_buf.
  pose proof (request_any ignore_reply fuel IPC_TYPE_SUBSCRIBE
                (Z.of_nat (String.length (gen_buf (subscribe_gen event))))
                (list_byte_of_string (gen_buf (subscribe_gen event))) w Hp) as H.
  rewrite length_list_byte_of_string in H. specialize (H Hf).
  destruct (send_message fuel IPC_TYPE_SUBSCRIBE _ _ w) as [r w1 | |];
    cbn [bind] in *; try exact H.
  rewrite negb_if. exact H.
Qed.

Lemma subscribe_all_any (events : list string) : forall (fuel : nat) (w : world),
  (pending w < fuel)%nat ->
  (12 + list_max (map (fun e => String.length (gen_buf (subscribe_gen e))) events)
   + List.length (write_sched w) < fuel)%nat ->
  match subscribe_all fuel events w with
  | Returns _ w' => heap w' = heap w /\ (pending w' <= pending w)%nat
  | Exits status w' => status = EXIT_FAILURE /\ heap w' = heap w
  | OutOfFuel => False
  end.
Proof.
  induction events as [|e events IH]; intros fuel w Hp Hf.
  - cbn [subscribe_all]. split; [reflexivity | lia].
  - cbn [subscribe_all].
    change (list_max (map (fun e => String.length (gen_buf (subscribe_gen e)))
                          (e :: events)))
      with (Nat.max (String.length (gen_buf (subscribe_gen e)))
                    (list_max (map (fun e => String.length (gen_buf (subscribe_gen e)))
                                   events))) in Hf.
    pose proof (subscribe_any fuel e w Hp) as H.
    destruct (subscribe fuel e w) as [r w1 | st w1 |]; cbn [bind].
    + destruct H as (_ & H1 & H2 & H3); [lia |].
      specialize (IH fuel w1).
      destruct (subscribe_all fuel events w1) as [u w2 | st w2 |].
      * destruct IH as (I1 & I2); [lia | lia |]. split; [congruence | lia].
      * destruct IH as (I1 & I2); [lia | lia |]. split; congruence.
      * apply IH; lia.
    + apply H. lia.
    + apply H. lia.
Qed.

(** Closes a goal on the way a request ended from what [request_any]
    says of it. *)
Ltac ends_by H :=
  cbn [zero_or_failure];
  first [ apply H; lia
        | destruct H as (? & ? & _); [lia | split; congruence] ].

(** X12.  [main], from the end of option parsing, always ends, whatever
    the arguments, the bytes the server sends before it closes and the
    way the reads and writes go, as long as the server sends less than
    2^31 bytes in all, so that no reply reaches the size where its
    length is no precision for [printf] any more, and no write finds
    the peer gone, where the process would get [SIGPIPE]: with a large
    enough bound on the loops [main] returns 0 or the process exits
    with [EXIT_FAILURE]; in monitor mode only the exit is possible; and
    at either end the blocks allocated for replies have all been
    released. *)
Theorem main_returns_zero_or_exits (t : IPCMessageType) (monitor : bool)
                                   (rest : list string) (w : world) :
  Z.of_nat (List.length (sock_in w)) < 2 ^ 31 ->
  Forall no_sigpipe (write_sched w) ->
  exists fuel0 : nat, forall fuel : nat, (fuel0 <= fuel)%nat ->
    if monitor then exits_with_failure w (main fuel t monitor rest w)
    else zero_or_failure w (main fuel t monitor rest w).
Proof.
  intros _ _.
  exists (14 + pending w + List.length (write_sched w)
          + String.length (gen_buf (run_command_gen (hd "" rest) (tl rest)))
          + String.length (gen_buf (get_dwm_client_gen (atol (hd "" rest))))
          + list_max (map (fun e => String.length (gen_buf (subscribe_gen e))) rest))%nat.
  intros fuel Hf.
  assert (Hp : (pending w < fuel)%nat) by lia.
  destruct monitor.
  - (* monitor mode *)
    destruct t; cbn [main andb negb is_subscribe usage_error exits_with_failure];
      try (split; reflexivity).
    destruct rest as [|e events]; [split; reflexivity |].
    pose proof (subscribe_all_any (e :: events) fuel w Hp) as H.
    destruct (subscribe_all fuel (e :: events) w) as [u w1 | st w1 |]; cbn [bind].
    + destruct H as (H1 & H2); [lia |].
      destruct (listen_exits fuel w1) as (w' & -> & _ & Hh); [lia |].
      cbn [bind]. split; [reflexivity | congruence].
    + apply H. lia.
    + apply H. lia.
  - destruct t; cbn [main andb negb is_subscribe usage_error].
    + (* run_command *)
      destruct rest as [|name args]; [split; reflexivity |].
      cbn [hd tl] in Hf. unfold run_command, yajl_gen_get_buf.
      pose proof (request_any ignore_reply fuel IPC_TYPE_RUN_COMMAND
                    (Z.of_nat (String.length (gen_buf (run_command_gen name args))))
                    (list_byte_of_string (gen_buf (run_command_gen name args)))
                    w Hp) as H.
      rewrite length_list_byte_of_string in H.
      destruct (send_message fuel IPC_TYPE_RUN_COMMAND _ _ w) as [r w1 | |];
        cbn [bind] in *; [rewrite negb_if | |]; [| ends_by H | ends_by H].
      destruct (if ignore_reply w1 then flush_socket_reply fuel w1
                else print_socket_reply fuel w1) as [u w2 | st w2 |];
        cbn [bind] in *; ends_by H.
    + pose proof (request_any (fun _ => false) fuel IPC_TYPE_GET_MONITORS 1
                    empty_literal w Hp) as H.
      cbn [List.length empty_literal] in H. unfold get_monitors.
      destruct (send_message fuel IPC_TYPE_GET_MONITORS 1 empty_literal w)
        as [r w1 | |]; cbn [bind] in *; [| ends_by H | ends_by H].
      destruct (print_socket_reply fuel w1) as [u w2 | st w2 |];
        cbn [bind] in *; ends_by H.
    + pose proof (request_any (fun _ => false) fuel IPC_TYPE_GET_TAGS 1
                    empty_literal w Hp) as H.
      cbn [List.length empty_literal] in H. unfold get_tags.
      destruct (send_message fuel IPC_TYPE_GET_TAGS 1 empty_literal w)
        as [r w1 | |]; cbn [bind] in *; [| ends_by H | ends_by H].
      destruct (print_socket_reply fuel w1) as [u w2 | st w2 |];
        cbn [bind] in *; ends_by H.
    + pose proof (request_any (fun _ => false) fuel IPC_TYPE_GET_LAYOUTS 1
                    empty_literal w Hp) as H.
      cbn [List.length empty_literal] in H. unfold get_layouts.
      destruct (send_message fuel IPC_TYPE_GET_LAYOUTS 1 empty_literal w)
        as [r w1 | |]; cbn [bind] in *; [| ends_by H | ends_by H].
      destruct (print_socket_reply fuel w1) as [u w2 | st w2 |];
        cbn [bind] in *; ends_by H.
    + (* get_dwm_client *)
      destruct rest as [|arg more]; [split; reflexivity |].
      cbn [hd tl] in Hf.
      destruct (is_unsigned_int arg); [| split; reflexivity].
      cbv zeta. unfold get_dwm_client, yajl_gen_get_buf.
      pose proof (request_any (fun _ => false) fuel IPC_TYPE_GET_DWM_CLIENT
                    (Z.of_nat (String.length (gen_buf (get_dwm_client_gen (atol arg)))))
                    (list_byte_of_string (gen_buf (get_dwm_client_gen (atol arg))))
                    w Hp) as H.
      rewrite length_list_byte_of_string in H.
      destruct (send_message fuel IPC_TYPE_GET_DWM_CLIENT _ _ w) as [r w1 | |];
        cbn [bind] in *; [| ends_by H | ends_by H].
      destruct (print_socket_reply fuel w1) as [u w2 | st w2 |];
        cbn [bind] in *; ends_by H.
    + (* subscribe, one shot *)
      destruct rest as [|e events]; [split; reflexivity |].
      pose proof (subscribe_all_any (e :: events) fuel w Hp) as H.
      destruct (subscribe_all fuel (e :: events) w) as [u w1 | st w1 |]; cbn [bind].
      * destruct H as (H1 & H2); [lia |].
        destruct fuel as [|fuel]; [lia |]. cbn [listen].
        pose proof (reply_any false (S fuel) w1) as R. cbv iota in R.
        destruct (print_socket_reply (S fuel) w1) as [v w2 | st w2 |]; cbn [bind].
        -- destruct R as (R1 & _); [lia |]. split; [reflexivity | congruence].
        -- destruct R as (R1 & R2); [lia |]. split; congruence.
        -- apply R. lia.
      * apply H. lia.
      * apply H. lia.
    + split; reflexivity.
Qed.

Lemma main_returns_zero_or_exits_witness :
  exists fuel0 : nat, forall fuel : nat, (fuel0 <= fuel)%nat ->
    zero_or_failure
      (fresh_world (ok_reply ++ evt_event) [Chunk 2; Fail EIO] [Chunk 3; Fail EINTR])
      (main fuel IPC_TYPE_RUN_COMMAND false ["tag"; "3"]
            (fresh_world (ok_reply ++ evt_event) [Chunk 2; Fail EIO]
                         [Chunk 3; Fail EINTR])).
Proof.
  apply (main_returns_zero_or_exits IPC_TYPE_RUN_COMMAND false ["tag"; "3"]
           (fresh_world (ok_reply ++ evt_event) [Chunk 2; Fail EIO]
                        [Chunk 3; Fail EINTR])).
  - vm_compute. reflexivity.
  - repeat constructor.
Defined.

(* ================================================================== *)
(** * The names of the requests                                         *)
(* ================================================================== *)

Lemma char_code_inj (a b : ascii) : char_code a = char_code b -> a = b.
Proof.
  unfold char_code. intros H. apply N2Z.inj in H.
  rewrite <- (ascii_N_embedding a), <- (ascii_N_embedding b). now rewrite H.
Qed.

Lemma tolower_not_nul (c : ascii) :
  (char_code c =? 0) = false -> char_code (tolower c) <> 0.
Proof.
  destruct c as [[] [] [] [] [] [] [] []]; vm_compute; congruence.
Qed.

Lemma strcasecmp_zero (a : string) : forall b,
  no_nul a = true -> no_nul b = true ->
  (strcasecmp a b = 0 <-> lowercase a = lowercase b).
Proof.
  induction a as [|x a IH]; intros [|y b] Ha Hb; cbn [strcasecmp lowercase].
  - tauto.
  - cbn [no_nul] in Hb. apply andb_true_iff in Hb as [Hy _].
    apply negb_true_iff, tolower_not_nul in Hy.
    split; [lia | discriminate].
  - cbn [no_nul] in Ha. apply andb_true_iff in Ha as [Hx _].
    apply negb_true_iff, tolower_not_nul in Hx.
    split; [lia | discriminate].
  - cbn [no_nul] in Ha, Hb.
    apply andb_true_iff in Ha as [_ Ha]. apply andb_true_iff in Hb as [_ Hb].
    cbv zeta.
    destruct (char_code (tolower x) - char_code (tolower y) =? 0) eqn:E.
    + apply Z.eqb_eq in E.
      assert (Hxy : tolower x = tolower y) by (apply char_code_inj; lia).
      rewrite (IH b Ha Hb), Hxy.
      split; [intros ->; reflexivity | intros H; now injection H].
    + apply Z.eqb_neq in E. split; [intros H; contradiction |].
      intros H. injection H as H _. rewrite H in E. lia.
Qed.

Lemma strcasecmp_name (s name : string) :
  no_nul s = true -> no_nul name = true -> lowercase name = name ->
  (strcasecmp s name =? 0) = String.eqb (lowercase s) name.
Proof.
  intros Hs Hn Hl.
  destruct (String.eqb_spec (lowercase s) name) as [E | E].
  - apply Z.eqb_eq, strcasecmp_zero; congruence.
  - apply Z.eqb_neq. intros H. apply strcasecmp_zero in H; congruence.
Qed.

(** X13.  What [-t] accepts: the argument selects a request exactly
    when, put in lower case, it is one of the seven names of the table;
    [command] and [run_command] name the same request, letter case is
    not looked at, and no argument selects [IPC_TYPE_EVENT]. *)
Theorem type_names_ignore_case (s : string) (t : IPCMessageType) :
  no_nul s = true ->
  (select_type s = Some t <-> In (lowercase s, t) type_names).
Proof.
  intros Hs. unfold select_type.
  rewrite !(strcasecmp_name s) by (exact Hs || reflexivity).
  unfold type_names. cbn [In].
  destruct (String.eqb_spec (lowercase s) "command") as [-> | N1];
    [split; [intros [= <-]; auto | intros H; decompose [or] H; clear H;
       try congruence; try contradiction] |].
  destruct (String.eqb_spec (lowercase s) "run_command") as [-> | N2];
    [split; [intros [= <-]; auto | intros H; decompose [or] H; clear H;
       try congruence; try contradiction] |].
  destruct (String.eqb_spec (lowercase s) "get_monitors") as [-> | N3];
    [split; [intros [= <-]; auto | intros H; decompose [or] H; clear H;
       try congruence; try contradiction] |].
  destruct (String.eqb_spec (lowercase s) "get_tags") as [-> | N4];
    [split; [intros [= <-]; auto 6 | intros H; decompose [or] H; clear H;
       try congruence; try contradiction] |].
  destruct (String.eqb_spec (lowercase s) "get_layouts") as [-> | N5];
    [split; [intros [= <-]; auto 7 | intros H; decompose [or] H; clear H;
       try congruence; try contradiction] |].
  destruct (String.eqb_spec (lowercase s) "get_dwm_client") as [-> | N6];
    [split; [intros [= <-]; auto 8 | intros H; decompose [or] H; clear H;
       try congruence; try contradiction] |].
  destruct (String.eqb_spec (lowercase s) "subscribe") as [-> | N7];
    [split; [intros [= <-]; auto 9 | intros H; decompose [or] H; clear H;
       try congruence; try contradiction] |].
  split; [discriminate |].
  intros H; decompose [or] H; clear H; try contradiction;
    match goal with E : (_, _) = (_, _) |- _ => injection E as E1 E2 end;
    congruence.
Qed.

Lemma type_names_ignore_case_witness :
  select_type "Get_Monitors" = Some IPC_TYPE_GET_MONITORS
  <-> In (lowercase "Get_Monitors", IPC_TYPE_GET_MONITORS) type_names.
Proof.
  apply (type_names_ignore_case "Get_Monitors" IPC_TYPE_GET_MONITORS).
  reflexivity.
Defined.

(* ================================================================== *)
(** * The queries and what is printed                                   *)
(* ================================================================== *)

Lemma send_bytes_ok (fuel : nat) (t : IPCMessageType) (msg : list byte) (w : world) :
  Forall write_benign (write_sched w) ->
  Z.of_nat (List.length msg) < 2 ^ 32 ->
  (12 + List.length msg + List.length (write_sched w) < fuel)%nat ->
  exists w1,
    send_message fuel t (Z.of_nat (List.length msg)) msg w = Returns 0 w1 /\
    sock_out w1 = (sock_out w ++ frame (type_code t, msg))%list /\
    same_reads w w1 /\ Forall write_benign (write_sched w1) /\
    (List.length (write_sched w1) <= List.length (write_sched w))%nat.
Proof.
  intros Hc Hlt Hf.
  pose proof (message_buffer_whole t msg) as Hbuf.
  destruct (send_message_ok fuel t (Z.of_nat (List.length msg)) msg w Hc)
    as (w1 & Hs & Ho & Hsr & Hc1).
  - lia.
  - rewrite Hbuf, length_app, header_length. lia.
  - exists w1. rewrite Hbuf in Ho. repeat split; try assumption; try apply Hsr.
    unfold send_message in Hs.
    destruct (write_socket fuel _ w) as [r w1' | |] eqn:Hw; cbn [bind] in Hs;
      try discriminate.
    injection Hs as <-. unfold write_socket in Hw.
    exact (write_loop_sched_le _ _ _ _ _ _ Hw).
Qed.

(** X14.  The three queries without argument through [main]: the
    13-byte frame goes out, one reply, of less than 2^31 bytes, is
    consumed and printed on a line of its own, whether or not
    [ignore_reply] is set, and the arguments left on the command line
    are not looked at. *)
Theorem queries_print_the_reply (t : IPCMessageType) (args : list string)
                                (fuel : nat) (w : world) (c n : Z)
                                (payload rest : list byte) :
  is_query t = true ->
  Forall write_benign (write_sched w) ->
  Forall is_chunk (read_sched w) ->
  sock_in w = (header_bytes c n ++ payload ++ rest)%list ->
  n = Z.of_nat (List.length payload) -> n < 2 ^ 31 ->
  (13 + List.length (write_sched w) < fuel)%nat ->
  (12 + List.length payload < fuel)%nat ->
  exists w',
    main fuel t false args w = Returns 0 w' /\
    exchanged w w' (frame (type_code t, empty_literal)) rest
              (stdout w ++ c_string payload ++ newline).
Proof.
  intros Ht Hcw Hcr Hin Hn Hint Hfw Hfr.
  assert (Hlt : n < 2 ^ 32) by lia.
  destruct (send_bytes_ok fuel t empty_literal w Hcw)
    as (w1 & Hs & Ho & (S1 & S2 & S3 & S4 & S5 & S6) & Hcw1 & Hlw1);
    [reflexivity | cbn [List.length empty_literal]; lia |].
  change (Z.of_nat (List.length empty_literal)) with 1 in Hs.
  assert (Hcr1 : Forall is_chunk (read_sched w1)) by (rewrite S2; exact Hcr).
  assert (Hin1 : sock_in w1 = (header_bytes c n ++ payload ++ rest)%list)
    by (rewrite S1; exact Hin).
  destruct (print_socket_reply_chunks fuel w1 c n payload rest Hcr1 Hin1 Hn Hlt Hfr)
    as (sched & Hp & Hcs & Hls).
  eexists. split.
  - destruct t; try discriminate Ht;
      cbn [main andb negb is_subscribe];
      unfold get_monitors, get_tags, get_layouts;
      rewrite Hs; cbn [bind]; rewrite Hp; reflexivity.
  - unfold exchanged, after_reply. fields.
    repeat split; try assumption; congruence.
Qed.

Lemma queries_print_the_reply_witness :
  exists w',
    main 40 IPC_TYPE_GET_TAGS false ["left"; "over"]
         (fresh_world (ok_reply ++ evt_event) [Chunk 0; Chunk 3] [Chunk 4])
    = Returns 0 w' /\ sock_in w' = evt_event.
Proof.
  destruct (queries_print_the_reply IPC_TYPE_GET_TAGS ["left"; "over"] 40
              (fresh_world (ok_reply ++ evt_event) [Chunk 0; Chunk 3] [Chunk 4])
              1 2 (list_byte_of_string "ok") evt_event)
    as (w' & Hr & _ & Hin & _).
  - reflexivity.
  - repeat constructor.
  - repeat constructor.
  - reflexivity.
  - reflexivity.
  - reflexivity.
  - vm_compute. lia.
  - vm_compute. lia.
  - exists w'. split; [exact Hr | exact Hin].
Defined.

Lemma until_nul_app (a b : list byte) :
  has_no_nul a -> until_nul (a ++ x00 :: b) = a.
Proof.
  induction 1 as [|x a Hx Ha IH]; cbn [app until_nul].
  - reflexivity.
  - rewrite IH. destruct x; try reflexivity. contradiction.
Qed.

(** X15.  A reply is printed as a C string: when its payload holds a
    NUL byte, what is printed stops before the first one, while the
    whole payload, the bytes after the NUL too, is taken from the
    stream. *)
Theorem reply_is_printed_up_to_its_first_nul (fuel : nat) (w : world) (c : Z)
                                             (a b rest : list byte) :
  has_no_nul a ->
  Forall is_chunk (read_sched w) ->
  sock_in w = (frame (c, (a ++ x00 :: b)%list) ++ rest)%list ->
  fits_u32 (c, (a ++ x00 :: b)%list) ->
  (13 + List.length a + List.length b < fuel)%nat ->
  exists w',
    print_socket_reply fuel w = Returns tt w' /\
    stdout w' = stdout w ++ string_of_list_byte a ++ newline /\
    sock_in w' = rest /\ heap w' = heap w.
Proof.
  intros Ha Hc Hin Hfit Hf.
  unfold frame in Hin. cbn [fst snd] in Hin. rewrite <- app_assoc in Hin.
  destruct (print_socket_reply_chunks fuel w c _ (a ++ x00 :: b)%list rest Hc Hin
              eq_refl Hfit) as (sched & Hp & _).
  - rewrite length_app. cbn [List.length]. lia.
  - eexists. split; [exact Hp |].
    unfold after_reply, c_string. fields. rewrite (until_nul_app a b Ha).
    repeat split.
Qed.

Lemma reply_is_printed_up_to_its_first_nul_witness :
  exists w',
    print_socket_reply 40
      (fresh_world (frame (1, (list_byte_of_string "ok" ++ x00
                                 :: list_byte_of_string "rest")%list))
                   [Chunk 5] [])
    = Returns tt w' /\
    stdout w' = "" ++ string_of_list_byte (list_byte_of_string "ok") ++ newline.
Proof.
  destruct (reply_is_printed_up_to_its_first_nul 40
              (fresh_world (frame (1, (list_byte_of_string "ok" ++ x00
                                         :: list_byte_of_string "rest")%list))
                           [Chunk 5] [])
              1 (list_byte_of_string "ok") (list_byte_of_string "rest") [])
    as (w' & Hr & Ho & _).
  - repeat constructor; discriminate.
  - repeat constructor.
  - vm_compute. reflexivity.
  - vm_compute. reflexivity.
  - vm_compute. lia.
  - exists w'. split; [exact Hr | exact Ho].
Defined.

(* ================================================================== *)
(** * The one-shot subscribe                                            *)
(* ================================================================== *)

(** C6, as the code has it.  With one event name, when no write fails
    for good and the reply, of less than 2^31 bytes, arrives whole:
    the payload sent is the subscribe document, in one frame of type 5,
    and [subscribe] consumes exactly one reply, printed unless
    [ignore_reply] is set.  Without [-m], [main] then runs the body of
    its loop once: one more message is consumed and printed, and [main]
    returns 0 with the stream at the byte after it; if the stream ends
    right after the reply the process exits with [EXIT_FAILURE].  With
    [-m] every message that follows is printed in turn, nothing more is
    sent, and the only way out is that exit. *)
Theorem subscribe_reads_its_reply_then_the_loop_runs
    (event : string) (fuel : nat) (w : world) (reply : Z * list byte)
    (tail : list byte) :
  Forall write_benign (write_sched w) ->
  Forall is_chunk (read_sched w) ->
  sock_in w = (frame reply ++ tail)%list ->
  fits_int reply ->
  Z.of_nat (String.length (subscribe_text event)) < 2 ^ 32 ->
  (12 + String.length (subscribe_text event)
   + List.length (write_sched w) < fuel)%nat ->
  (pending w < fuel)%nat ->
  gen_buf (subscribe_gen event) = subscribe_text event /\
  (exists w1,
     subscribe fuel event w = Returns 0 w1 /\
     exchanged w w1 (request_frame IPC_TYPE_SUBSCRIBE (subscribe_text event))
               tail (shown (ignore_reply w) (stdout w) (snd reply))) /\
  (forall (m : Z * list byte) (rest : list byte),
     tail = (frame m ++ rest)%list -> fits_int m ->
     exists w',
       main fuel IPC_TYPE_SUBSCRIBE false [event] w = Returns 0 w' /\
       exchanged w w' (request_frame IPC_TYPE_SUBSCRIBE (subscribe_text event))
                 rest
                 (shown (ignore_reply w) (stdout w) (snd reply)
                  ++ line_of (snd m))) /\
  (tail = [] ->
     exists w',
       main fuel IPC_TYPE_SUBSCRIBE false [event] w = Exits EXIT_FAILURE w' /\
       sock_out w'
       = (sock_out w
            ++ request_frame IPC_TYPE_SUBSCRIBE (subscribe_text event))%list /\
       stdout w' = shown (ignore_reply w) (stdout w) (snd reply) /\
       heap w' = heap w) /\
  (forall ms : list (Z * list byte),
     tail = stream ms -> Forall fits_int ms ->
     exists w',
       main fuel IPC_TYPE_SUBSCRIBE true [event] w = Exits EXIT_FAILURE w' /\
       sock_out w'
       = (sock_out w
            ++ request_frame IPC_TYPE_SUBSCRIBE (subscribe_text event))%list /\
       stdout w' = shown (ignore_reply w) (stdout w) (snd reply) ++ printed ms /\
       heap w' = heap w).
Proof.
  intros Hcw Hcr Hin Hfit Htext Hfw Hp.
  unfold frame in Hin. rewrite <- app_assoc in Hin.
  assert (Hm32 : Z.of_nat (List.length (snd reply)) < 2 ^ 32)
    by (unfold fits_int in Hfit; lia).
  assert (Hlen : (12 + List.length (snd reply) + List.length tail
                  + List.length (read_sched w) < fuel)%nat).
  { unfold pending in Hp. rewrite Hin, !length_app, header_length in Hp. lia. }
  destruct (subscribe_ok fuel event w (fst reply) _ (snd reply) tail
              Hcw Hcr Hin eq_refl Hm32 Htext Hfw) as (w1 & Hsub & Hex); [lia |].
  pose proof Hex as (E1 & E2 & E3 & E4 & E5 & E6 & E7 & E8 & E9 & E10).
  change (if ignore_reply w then stdout w
          else stdout w ++ c_string (snd reply) ++ newline)
    with (shown (ignore_reply w) (stdout w) (snd reply)) in *.
  split; [apply subscribe_gen_text |].
  split; [exists w1; split; assumption |].
  split; [| split].
  - (* one more message *)
    intros m rest Ht Hm.
    rewrite Ht in E2. unfold frame in E2. rewrite <- app_assoc in E2.
    assert (Hm32' : Z.of_nat (List.length (snd m)) < 2 ^ 32)
      by (unfold fits_int in Hm; lia).
    destruct fuel as [|fuel]; [lia |].
    destruct (print_socket_reply_chunks (S fuel) w1 (fst m) _ (snd m) rest
                E7 E2 eq_refl Hm32') as (sched & Hpr & Hcs & Hls).
    { rewrite Ht in Hlen. unfold frame in Hlen.
      rewrite !length_app, header_length in Hlen. lia. }
    eexists. split.
    + cbn [main andb negb is_subscribe subscribe_all]. rewrite Hsub. cbn [bind].
      cbn [listen]. rewrite Hpr. cbn [bind]. reflexivity.
    + unfold exchanged, after_reply, line_of. fields.
      repeat split; try assumption; try congruence; lia.
  - (* the stream ends after the reply *)
    intros Ht. rewrite Ht in E2.
    destruct fuel as [|fuel]; [lia |].
    destruct (read_socket_at_end fuel w1 E7 E2)
      as (w' & Hr & Hso & Hh & Ho & _).
    exists w'. split.
    + cbn [main andb negb is_subscribe subscribe_all]. rewrite Hsub. cbn [bind].
      cbn [listen]. unfold print_socket_reply. rewrite Hr. reflexivity.
    + repeat split; congruence.
  - (* monitor mode *)
    intros ms Ht Hms. rewrite Ht in E2.
    destruct (listen_drains_stream ms fuel w1 E7 Hms E2)
      as (w' & Hl & Hso & Ho & Hh & _).
    { unfold pending. rewrite E2, <- Ht. lia. }
    exists w'. split.
    + cbn [main andb negb is_subscribe subscribe_all]. rewrite Hsub. cbn [bind].
      rewrite Hl. reflexivity.
    + repeat split; congruence.
Qed.

Lemma subscribe_reads_its_reply_then_the_loop_runs_witness :
  exists w',
    main 100 IPC_TYPE_SUBSCRIBE false ["tag_change_event"]
         (fresh_world (ok_reply ++ evt_event) [Chunk 1] [Chunk 6; Fail EINTR])
    = Returns 0 w' /\
    stdout w' = shown false "" (list_byte_of_string "ok")
                ++ line_of (list_byte_of_string "evt") /\
    sock_in w' = [].
Proof.
  destruct (subscribe_reads_its_reply_then_the_loop_runs "tag_change_event" 100
              (fresh_world (ok_reply ++ evt_event) [Chunk 1] [Chunk 6; Fail EINTR])
              (1, list_byte_of_string "ok") evt_event)
    as (_ & _ & Hone & _).
  - repeat constructor.
  - repeat constructor.
  - reflexivity.
  - reflexivity.
  - vm_compute. reflexivity.
  - vm_compute. lia.
  - vm_compute. lia.
  - destruct (Hone (6, list_byte_of_string "evt") [] eq_refl eq_refl)
      as (w' & Hr & _ & Hin & Hso & _).
    exists w'. split; [exact Hr |]. split; [exact Hso | exact Hin].
Defined.
